(** * String matching visualizer: the trace generators of StringMatch.jsx

    A shallow embedding of the three step generators of the component
    [StringMatchingVisualizer] (naive scan, Knuth-Morris-Pratt, Rabin-Karp),
    of the prefix-table builder, of the dispatcher [generateSteps] and of the
    three comparison counters of [generatePerformanceData], followed by the
    properties of the specification that concern them.

    Conventions of the embedding.
    - A JavaScript string is the list of its UTF-16 code units ([str]);
      [s[k]] is [get s k], which is [None] (the value [undefined]) outside
      the string, and [s.charCodeAt(k)] is [NaN] there.
    - Index variables that the program may load from an array cell hold a
      [jsval]: a number, [NaN] or [undefined].
    - Hash values are IEEE doubles.  Every finite value the hash code
      computes from code units below 65536 is a dyadic rational with fewer
      than 53 significant bits (a code unit times a power of two, or a
      small integer), on which double arithmetic is exact; the type [num]
      therefore carries an exact rational, and departs from real arithmetic
      only by overflow to an infinity and by [NaN].
    - [for] loops over a fixed range recurse on the trip count; the two
      [while] loops take fuel and answer [OutOfFuel] when it is used up.
    - Every trace carries the log of the array and string cells that were
      read while it was produced. *)

From Stdlib Require Import ZArith QArith Qpower Lia List Sorted String Ascii Bool.
From stdpp Require Import base list numbers.
Import ListNotations.
Local Open Scope Z_scope.

(** ** JavaScript values *)

Definition str := list Z.

Definition strlen (s : str) : Z := Z.of_nat (length s).

(** The code units of a JavaScript string are 16-bit. *)
Definition wf_str (s : str) : Prop := Forall (fun c => 0 <= c < 65536) s.

(** Code units of a string literal, for the examples. *)
Definition codes (s : string) : str :=
  map (fun a => Z.of_nat (nat_of_ascii a)) (list_ascii_of_string s).

Inductive jsval : Type :=
| JNum (z : Z)
| JNaN
| JUndef.

(** [a === b] *)
Definition jsval_eqb (a b : jsval) : bool :=
  match a, b with
  | JNum x, JNum y => x =? y
  | JUndef, JUndef => true
  | _, _ => false
  end.

(** [a++] (the value stored back) *)
Definition jincr (a : jsval) : jsval :=
  match a with
  | JNum x => JNum (x + 1)
  | _ => JNaN
  end.

(** [a - b] *)
Definition jsub (a b : jsval) : jsval :=
  match a, b with
  | JNum x, JNum y => JNum (x - y)
  | _, _ => JNaN
  end.

(** [l[k]] for a number [k]; [None] is [undefined]. *)
Definition get {A : Type} (l : list A) (k : Z) : option A :=
  if 0 <=? k then l !! Z.to_nat k else None.

(** [l[v]] for any value [v]: the keys [NaN] and [undefined] name no cell. *)
Definition getv {A : Type} (l : list A) (v : jsval) : option A :=
  match v with
  | JNum k => get l k
  | _ => None
  end.

(** [a === b] on two one-character strings or [undefined]. *)
Definition sym_eqb (a b : option Z) : bool :=
  match a, b with
  | Some x, Some y => x =? y
  | None, None => true
  | _, _ => false
  end.

(** A cell of the prefix table; outside the table the read gives [undefined]. *)
Definition lps_get (lps : list jsval) (v : jsval) : jsval :=
  match getv lps v with
  | Some x => x
  | None => JUndef
  end.

(** ** The log of reads *)

Inductive array : Type := AText | APattern | ALps.

Record access : Type := Rd { acc_array : array; acc_index : jsval }.

(** A read is in bounds when its index is a number inside the array; the
    prefix table has the length of the pattern. *)
Definition in_bounds (n m : Z) (a : access) : Prop :=
  match acc_index a with
  | JNum k => 0 <= k < (match acc_array a with AText => n | _ => m end)
  | _ => False
  end.

Definition in_boundsb (n m : Z) (a : access) : bool :=
  match acc_index a with
  | JNum k => (0 <=? k) && (k <? (match acc_array a with AText => n | _ => m end))
  | _ => false
  end.

(** ** Doubles, as far as the hash code uses them *)

Inductive num : Type :=
| Fin (q : Q)
| Inf (neg : bool)
| NaN.

Definition two_1024 : Q := inject_Z (2 ^ 1024).

(** The double for an exact result [q].  The finite results of the hash
    code have fewer than 53 significant bits, so below [2^1024] they are
    doubles and no rounding takes place; from [2^1024] on the result is an
    infinity. *)
Definition norm (q : Q) : num :=
  let r := Qred q in
  if Qle_bool two_1024 r then Inf false
  else if Qle_bool r (Qopp two_1024) then Inf true
  else Fin r.

Definition Qneg (q : Q) : bool := negb (Qle_bool 0 q).

Definition nadd (x y : num) : num :=
  match x, y with
  | NaN, _ | _, NaN => NaN
  | Fin a, Fin b => norm (a + b)
  | Inf s, Fin _ | Fin _, Inf s => Inf s
  | Inf s, Inf t => if Bool.eqb s t then Inf s else NaN
  end.

Definition nopp (x : num) : num :=
  match x with
  | Fin a => Fin (Qred (Qopp a))
  | Inf s => Inf (negb s)
  | NaN => NaN
  end.

Definition nsub (x y : num) : num := nadd x (nopp y).

Definition nmul (x y : num) : num :=
  match x, y with
  | NaN, _ | _, NaN => NaN
  | Fin a, Fin b => norm (a * b)
  | Inf s, Fin a | Fin a, Inf s =>
      if Qeq_bool a 0 then NaN else Inf (xorb s (Qneg a))
  | Inf s, Inf t => Inf (xorb s t)
  end.

(** Truncation towards zero. *)
Definition Qtrunc (q : Q) : Z := Z.quot (Qnum q) (Zpos (Qden q)).

(** [x % y]: the remainder has the sign of the dividend. *)
Definition nrem (x y : num) : num :=
  match x, y with
  | NaN, _ | _, NaN => NaN
  | Inf _, _ => NaN
  | Fin a, Inf _ => Fin a
  | Fin a, Fin b =>
      if Qeq_bool b 0 then NaN
      else Fin (Qred (a - b * inject_Z (Qtrunc (a / b))))
  end.

(** [x === y] on numbers. *)
Definition num_eqb (x y : num) : bool :=
  match x, y with
  | Fin a, Fin b => Qeq_bool a b
  | Inf s, Inf t => Bool.eqb s t
  | _, _ => false
  end.

Definition of_Z (z : Z) : num := Fin (inject_Z z).

(** [Math.pow(256, k)] for an integer [k]: a power of two, hence exact
    while it is in range. *)
Definition Math_pow_256 (k : Z) : num := norm (Qpower (inject_Z 256) k).

(** [s.charCodeAt(k)] *)
Definition charCodeAt (s : str) (k : Z) : num :=
  match get s k with
  | Some c => of_Z c
  | None => NaN
  end.

(** ** Traces *)

(** One entry of [currentComparisons]. *)
Record comparison : Type := Comparison {
  c_textIndex : Z;
  c_patternIndex : jsval;
  c_match : bool
}.

(** The template strings of the field [description], with the number they
    interpolate:
    - [MatchFoundAt p]: Match found at position p!
    - [MismatchAtShifting p]: Mismatch at position p, shifting pattern.
    - [MismatchPrefixShift]: Mismatch, using prefix table to shift pattern.
    - [MismatchAtBeginning]: Mismatch at beginning of pattern, moving to
      next position.
    - [HashMatchConfirmed p]: Hash match! Confirmed match at position p.
    - [HashMatchSpurious]: Hash match but actual string mismatch (spurious
      hit).
    - [HashMismatchSkipped]: Hash mismatch, skipping detailed comparison. *)
Inductive description : Type :=
| MatchFoundAt (p : jsval)
| MismatchAtShifting (p : Z)
| MismatchPrefixShift
| MismatchAtBeginning
| HashMatchConfirmed (p : Z)
| HashMatchSpurious
| HashMismatchSkipped.

(** The field that only one algorithm sets: [prefixUse] ([null] or the pair
    [oldJ], [newJ]) for KMP, [hashInfo] for Rabin-Karp, none for the naive
    scan.  [spurious] is [false] where the object has no such field. *)
Inductive detail : Type :=
| NoDetail
| PrefixUse (p : option (jsval * jsval))
| HashInfo (patternHash textHash : num) (hashMatch spurious : bool).

Record step : Type := Step {
  s_textIndex : jsval;
  s_patternIndex : Z;
  s_comparisons : list comparison;
  s_totalComparisons : Z;
  s_description : description;
  s_detail : detail
}.

(** One entry of [history]. *)
Record hist : Type := Hist {
  h_step : Z;
  h_comparisons : Z;
  h_totalComparisons : Z
}.

(** What a generator leaves behind: the returned [steps], the values handed
    to [setMatches], [setComparisons] and [setComparisonHistory], and the
    log of reads. *)
Record trace : Type := Trace {
  steps : list step;
  foundMatches : list jsval;
  totalComparisons : Z;
  history : list hist;
  reads : list access
}.

Definition empty_trace : trace :=
  {| steps := []; foundMatches := []; totalComparisons := 0;
     history := []; reads := [] |}.

(** The outcome of a function with a [while] loop: it returned [a], or its
    loop was still running when the fuel ran out. *)
Inductive run (A : Type) : Type :=
| Done (a : A)
| OutOfFuel.
Arguments Done {A} a.
Arguments OutOfFuel {A}.

(** [while (cond) { body }] on the variables [s], with fuel. *)
Fixpoint while {St : Type} (cond : St -> bool) (body : St -> St) (fuel : nat)
  (s : St) : run St :=
  if cond s then
    match fuel with
    | O => OutOfFuel
    | S fuel' => while cond body fuel' (body s)
    end
  else Done s.

(** ** The naive scan *)

(** The state of the inner loop [for (j = 0; j < pattern.length; j++)],
    which the naive scan and the Rabin-Karp confirmation share. *)
Record scan : Type := Scan {
  sc_j : Z;
  sc_comparisons : list comparison;
  sc_total : Z;
  sc_stepc : Z;
  sc_reads : list access
}.

(** The reads of one evaluation of [text[i + j]] against [pattern[j]]. *)
Definition cmp_reads (i j : Z) : list access :=
  [Rd AText (JNum (i + j)); Rd APattern (JNum j)].

(** [k] is the number of values of [j] left before [j < pattern.length]
    fails; a mismatch leaves the loop by [break], without [j++]. *)
Fixpoint inner_scan (text pattern : str) (i : Z) (k : nat) (s : scan) : scan :=
  match k with
  | O => s
  | S k' =>
      let j := sc_j s in
      let eq := sym_eqb (get text (i + j)) (get pattern j) in
      let pushed (j' : Z) :=
        {| sc_j := j';
           sc_comparisons := sc_comparisons s ++ [Comparison (i + j) (JNum j) eq];
           sc_total := sc_total s + 1;
           sc_stepc := sc_stepc s + 1;
           sc_reads := sc_reads s ++ cmp_reads i j ++ cmp_reads i j |} in
      if eq then inner_scan text pattern i k' (pushed (j + 1)) else pushed j
  end.

Definition start_scan (total : Z) (stepc : Z) (rd : list access) : scan :=
  {| sc_j := 0; sc_comparisons := []; sc_total := total; sc_stepc := stepc;
     sc_reads := rd |}.

(** The body of [for (let i = 0; i <= text.length - pattern.length; i++)]. *)
Definition naive_body (text pattern : str) (tr : trace) (i : Z) : trace :=
  let s := inner_scan text pattern i (length pattern)
             (start_scan (totalComparisons tr) 0 (reads tr)) in
  let full := sc_j s =? strlen pattern in
  {| steps := steps tr ++
       [Step (JNum i) 0 (sc_comparisons s) (sc_total s)
          (if full then MatchFoundAt (JNum i)
           else MismatchAtShifting (i + sc_j s))
          NoDetail];
     foundMatches :=
       if full then foundMatches tr ++ [JNum i] else foundMatches tr;
     totalComparisons := sc_total s;
     history := history tr ++ [Hist i (sc_stepc s) (sc_total s)];
     reads := sc_reads s |}.

Definition naiveStringMatching (text pattern : str) : trace :=
  fold_left (naive_body text pattern)
    (seqZ 0 (strlen text - strlen pattern + 1)) empty_trace.

(** ** The prefix table of KMP *)

(** The variables of [computeKMPPrefixTable]. *)
Record table_state : Type := TableState {
  t_lps : list jsval;
  t_len : jsval;
  t_i : Z;
  t_reads : list access
}.

(** The body of [while (i < pattern.length)].  The two writes [lps[i] = ...]
    happen under the loop guard with [1 <= i], inside the array that
    [Array(pattern.length).fill(0)] allocated. *)
Definition table_iter (pattern : str) (s : table_state) : table_state :=
  let i := t_i s in
  let len := t_len s in
  let rd := t_reads s ++ [Rd APattern (JNum i); Rd APattern len] in
  if sym_eqb (get pattern i) (getv pattern len) then
    let len' := jincr len in
    {| t_lps := <[Z.to_nat i := len']> (t_lps s); t_len := len';
       t_i := i + 1; t_reads := rd |}
  else if negb (jsval_eqb len (JNum 0)) then
    {| t_lps := t_lps s;
       t_len := lps_get (t_lps s) (jsub len (JNum 1));
       t_i := i;
       t_reads := rd ++ [Rd ALps (jsub len (JNum 1))] |}
  else
    {| t_lps := <[Z.to_nat i := JNum 0]> (t_lps s); t_len := len;
       t_i := i + 1; t_reads := rd |}.

Definition table_loop (fuel : nat) (pattern : str) (s : table_state)
  : run table_state :=
  while (fun s => t_i s <? strlen pattern) (table_iter pattern) fuel s.

Definition table_init (pattern : str) : table_state :=
  {| t_lps := replicate (length pattern) (JNum 0); t_len := JNum 0;
     t_i := 1; t_reads := [] |}.

Definition computeKMPPrefixTable (fuel : nat) (pattern : str)
  : run table_state :=
  table_loop fuel pattern (table_init pattern).

(** ** The KMP scan *)

(** The variables of [kmpStringMatching]. *)
Record kmp_state : Type := KmpState {
  k_i : Z;
  k_j : jsval;
  k_step : Z;
  k_trace : trace
}.

(** The body of [while (i < text.length)]. *)
Definition kmp_iter (text pattern : str) (lps : list jsval) (s : kmp_state)
  : kmp_state :=
  let tr := k_trace s in
  let i0 := k_i s in
  let j0 := k_j s in
  let eq := sym_eqb (get text i0) (getv pattern j0) in
  let cur := [Comparison i0 j0 eq] in
  let total := totalComparisons tr + 1 in
  let rd0 := reads tr ++ [Rd AText (JNum i0); Rd APattern j0;
                          Rd AText (JNum i0); Rd APattern j0] in
  let i := if eq then i0 + 1 else i0 in
  let j := if eq then jincr j0 else j0 in
  if jsval_eqb j (JNum (strlen pattern)) then
    let pos := jsub (JNum i) j in
    {| k_i := i;
       k_j := lps_get lps (jsub j (JNum 1));
       k_step := k_step s + 1;
       k_trace :=
         {| steps := steps tr ++
              [Step pos 0 cur total (MatchFoundAt pos) (PrefixUse None)];
            foundMatches := foundMatches tr ++ [pos];
            totalComparisons := total;
            history := history tr ++ [Hist (k_step s) 1 total];
            reads := rd0 ++ [Rd ALps (jsub j (JNum 1))] |} |}
  else if i <? strlen text then
    let rd1 := rd0 ++ [Rd AText (JNum i); Rd APattern j] in
    if negb (sym_eqb (get text i) (getv pattern j)) then
      if negb (jsval_eqb j (JNum 0)) then
        let j' := lps_get lps (jsub j (JNum 1)) in
        {| k_i := i;
           k_j := j';
           k_step := k_step s + 1;
           k_trace :=
             {| steps := steps tr ++
                  [Step (jsub (JNum i) j') 0 cur total MismatchPrefixShift
                     (PrefixUse (Some (j, j')))];
                foundMatches := foundMatches tr;
                totalComparisons := total;
                history := history tr ++ [Hist (k_step s) 1 total];
                reads := rd1 ++ [Rd ALps (jsub j (JNum 1));
                                 Rd ALps (jsub j (JNum 1))] |} |}
      else
        {| k_i := i + 1;
           k_j := j;
           k_step := k_step s + 1;
           k_trace :=
             {| steps := steps tr ++
                  [Step (jsub (JNum i) j) 0 cur total MismatchAtBeginning
                     (PrefixUse None)];
                foundMatches := foundMatches tr;
                totalComparisons := total;
                history := history tr ++ [Hist (k_step s) 1 total];
                reads := rd1 |} |}
    else
      {| k_i := i; k_j := j; k_step := k_step s;
         k_trace :=
           {| steps := steps tr; foundMatches := foundMatches tr;
              totalComparisons := total; history := history tr;
              reads := rd1 |} |}
  else
    {| k_i := i; k_j := j; k_step := k_step s;
       k_trace :=
         {| steps := steps tr; foundMatches := foundMatches tr;
            totalComparisons := total; history := history tr;
            reads := rd0 |} |}.

Definition kmp_loop (fuel : nat) (text pattern : str) (lps : list jsval)
  (s : kmp_state) : run kmp_state :=
  while (fun s => k_i s <? strlen text) (kmp_iter text pattern lps) fuel s.

Definition kmp_init (rd : list access) : kmp_state :=
  {| k_i := 0; k_j := JNum 0; k_step := 0;
     k_trace := {| steps := []; foundMatches := []; totalComparisons := 0;
                   history := []; reads := rd |} |}.

Definition kmpStringMatching (fuel : nat) (text pattern : str) : run trace :=
  match computeKMPPrefixTable fuel pattern with
  | OutOfFuel => OutOfFuel
  | Done t =>
      match kmp_loop fuel text pattern (t_lps t) (kmp_init (t_reads t)) with
      | OutOfFuel => OutOfFuel
      | Done s => Done (k_trace s)
      end
  end.

(** ** Rabin-Karp *)

Definition prime : num := of_Z 101.

(** [calculateHash(str, start, end)]: the value, and the cells of [str]
    (tagged [a]) that [charCodeAt] was asked for. *)
Definition calculateHash (s : str) (start end_ : Z) : num :=
  fold_left (fun hash i => nrem (nadd (nmul hash (of_Z 256)) (charCodeAt s i)) prime)
    (seqZ start (end_ - start)) (of_Z 0).

Definition calculateHash_reads (a : array) (start end_ : Z) : list access :=
  map (fun i => Rd a (JNum i)) (seqZ start (end_ - start)).

(** The update of [textHash] at the end of the window loop. *)
Definition roll (text : str) (m : Z) (textHash : num) (i : Z) : num :=
  nrem
    (nadd
       (nmul
          (nadd
             (nsub textHash
                (nrem (nmul (charCodeAt text i) (Math_pow_256 (m - 1))) prime))
             prime)
          (of_Z 256))
       (charCodeAt text (i + m)))
    prime.

(** The variables of the window loop that outlive an iteration. *)
Record rk_state : Type := RkState {
  r_textHash : num;
  r_trace : trace
}.

(** The body of [for (let i = 0; i <= text.length - pattern.length; i++)]. *)
Definition rk_body (text pattern : str) (patternHash : num) (st : rk_state)
  (i : Z) : rk_state :=
  let tr := r_trace st in
  let textHash := r_textHash st in
  let hashMatch := num_eqb textHash patternHash in
  let s := if hashMatch
           then inner_scan text pattern i (length pattern)
                  (start_scan (totalComparisons tr + 1) 1 (reads tr))
           else start_scan (totalComparisons tr + 1) 1 (reads tr) in
  let full := sc_j s =? strlen pattern in
  let more := i <? strlen text - strlen pattern in
  {| r_textHash := if more then roll text (strlen pattern) textHash i
                   else textHash;
     r_trace :=
       {| steps := steps tr ++
            [if hashMatch then
               if full then
                 Step (JNum i) 0 (sc_comparisons s) (sc_total s)
                   (HashMatchConfirmed i)
                   (HashInfo patternHash textHash true false)
               else
                 Step (JNum i) 0 (sc_comparisons s) (sc_total s)
                   HashMatchSpurious
                   (HashInfo patternHash textHash true true)
             else
               Step (JNum i) 0 [] (sc_total s) HashMismatchSkipped
                 (HashInfo patternHash textHash false false)];
          foundMatches :=
            if hashMatch && full then foundMatches tr ++ [JNum i]
            else foundMatches tr;
          totalComparisons := sc_total s;
          history := history tr ++ [Hist i (sc_stepc s) (sc_total s)];
          reads := sc_reads s ++
                   (if more then [Rd AText (JNum i);
                                  Rd AText (JNum (i + strlen pattern))]
                    else []) |} |}.

Definition rk_init (text pattern : str) : rk_state :=
  {| r_textHash := calculateHash text 0 (strlen pattern);
     r_trace :=
       {| steps := []; foundMatches := []; totalComparisons := 0;
          history := [];
          reads := calculateHash_reads APattern 0 (strlen pattern) ++
                   calculateHash_reads AText 0 (strlen pattern) |} |}.

Definition rabinKarpStringMatching (text pattern : str) : trace :=
  r_trace
    (fold_left (rk_body text pattern (calculateHash pattern 0 (strlen pattern)))
       (seqZ 0 (strlen text - strlen pattern + 1)) (rk_init text pattern)).

(** ** The dispatcher *)

(** [generateSteps], with the state variable [algorithm] as an argument: the
    [default] branch of the [switch] leaves [generatedSteps] empty and calls
    none of the setters. *)
Definition generateSteps (fuel : nat) (algorithm : string) (text pattern : str)
  : run trace :=
  if String.eqb algorithm "naive" then Done (naiveStringMatching text pattern)
  else if String.eqb algorithm "kmp" then kmpStringMatching fuel text pattern
  else if String.eqb algorithm "rabin-karp"
       then Done (rabinKarpStringMatching text pattern)
  else Done empty_trace.

(** The guard of the Start button:
    [disabled={isRunning || text.length === 0 || pattern.length === 0}]. *)
Definition start_disabled (isRunning : bool) (text pattern : str) : bool :=
  isRunning || (strlen text =? 0) || (strlen pattern =? 0).

(** ** The comparison counters of [generatePerformanceData] *)

(** The inner loop of [countNaiveComparisons] and of the confirmation in
    [countRabinKarpComparisons]; [k] counts the values of [j] left. *)
Fixpoint count_inner (text pattern : str) (i j : Z) (k : nat) (comparisons : Z)
  : Z :=
  match k with
  | O => comparisons
  | S k' =>
      if negb (sym_eqb (get text (i + j)) (get pattern j))
      then comparisons + 1
      else count_inner text pattern i (j + 1) k' (comparisons + 1)
  end.

Definition countNaiveComparisons (text pattern : str) : Z :=
  fold_left (fun comparisons i =>
               count_inner text pattern i 0 (length pattern) comparisons)
    (seqZ 0 (strlen text - strlen pattern + 1)) 0.

(** The variables of [countKMPComparisons] while it fills its own table. *)
Record ctable_state : Type := CTableState {
  ct_lps : list jsval;
  ct_len : jsval;
  ct_i : Z;
  ct_comparisons : Z
}.

Definition ctable_iter (pattern : str) (s : ctable_state) : ctable_state :=
  let i := ct_i s in
  let len := ct_len s in
  let comparisons := ct_comparisons s + 1 in
  if sym_eqb (get pattern i) (getv pattern len) then
    let len' := jincr len in
    {| ct_lps := <[Z.to_nat i := len']> (ct_lps s); ct_len := len';
       ct_i := i + 1; ct_comparisons := comparisons |}
  else if negb (jsval_eqb len (JNum 0)) then
    {| ct_lps := ct_lps s;
       ct_len := lps_get (ct_lps s) (jsub len (JNum 1));
       ct_i := i; ct_comparisons := comparisons |}
  else
    {| ct_lps := <[Z.to_nat i := JNum 0]> (ct_lps s); ct_len := len;
       ct_i := i + 1; ct_comparisons := comparisons |}.

Definition ctable_loop (fuel : nat) (pattern : str) (s : ctable_state)
  : run ctable_state :=
  while (fun s => ct_i s <? strlen pattern) (ctable_iter pattern) fuel s.

(** The variables of the search loop of [countKMPComparisons]. *)
Record ckmp_state : Type := CKmpState {
  ck_i : Z;
  ck_j : jsval;
  ck_comparisons : Z
}.

Definition ckmp_iter (text pattern : str) (lps : list jsval) (s : ckmp_state)
  : ckmp_state :=
  let comparisons := ck_comparisons s + 1 in
  let eq := sym_eqb (get text (ck_i s)) (getv pattern (ck_j s)) in
  let i := if eq then ck_i s + 1 else ck_i s in
  let j := if eq then jincr (ck_j s) else ck_j s in
  if jsval_eqb j (JNum (strlen pattern)) then
    {| ck_i := i; ck_j := lps_get lps (jsub j (JNum 1));
       ck_comparisons := comparisons |}
  else if (i <? strlen text) && negb (sym_eqb (get text i) (getv pattern j)) then
    if negb (jsval_eqb j (JNum 0)) then
      {| ck_i := i; ck_j := lps_get lps (jsub j (JNum 1));
         ck_comparisons := comparisons |}
    else
      {| ck_i := i + 1; ck_j := j; ck_comparisons := comparisons |}
  else
    {| ck_i := i; ck_j := j; ck_comparisons := comparisons |}.

Definition ckmp_loop (fuel : nat) (text pattern : str) (lps : list jsval)
  (s : ckmp_state) : run ckmp_state :=
  while (fun s => ck_i s <? strlen text) (ckmp_iter text pattern lps) fuel s.

Definition ctable_init (pattern : str) : ctable_state :=
  {| ct_lps := replicate (length pattern) (JNum 0); ct_len := JNum 0;
     ct_i := 1; ct_comparisons := 0 |}.

Definition countKMPComparisons (fuel : nat) (text pattern : str) : run Z :=
  match ctable_loop fuel pattern (ctable_init pattern) with
  | OutOfFuel => OutOfFuel
  | Done t =>
      match ckmp_loop fuel text pattern (ct_lps t)
              {| ck_i := 0; ck_j := JNum 0;
                 ck_comparisons := ct_comparisons t |} with
      | OutOfFuel => OutOfFuel
      | Done s => Done (ck_comparisons s)
      end
  end.

(** The variables of the window loop of [countRabinKarpComparisons]. *)
Record crk_state : Type := CRkState {
  cr_textHash : num;
  cr_comparisons : Z
}.

Definition crk_body (text pattern : str) (patternHash : num) (s : crk_state)
  (i : Z) : crk_state :=
  let c := cr_comparisons s + 1 in
  {| cr_comparisons :=
       if num_eqb (cr_textHash s) patternHash
       then count_inner text pattern i 0 (length pattern) c
       else c;
     cr_textHash :=
       if i <? strlen text - strlen pattern
       then roll text (strlen pattern) (cr_textHash s) i
       else cr_textHash s |}.

Definition countRabinKarpComparisons (text pattern : str) : Z :=
  cr_comparisons
    (fold_left (crk_body text pattern (calculateHash pattern 0 (strlen pattern)))
       (seqZ 0 (strlen text - strlen pattern + 1))
       {| cr_textHash := calculateHash text 0 (strlen pattern);
          cr_comparisons := 0 |}).

(** ** The hash code read in exact integer arithmetic *)

(** [calculateHash] and the rolling update with every number an integer and
    [%] the truncating remainder [Z.rem].  A cell outside the string, which
    the double code turns into [NaN], counts as 0 here; the statements about
    these functions keep every index inside the string. *)
Definition calculateHashZ (s : str) (start end_ : Z) : Z :=
  fold_left (fun hash i => Z.rem (hash * 256 + default 0 (get s i)) 101)
    (seqZ start (end_ - start)) 0.

Definition rollZ (text : str) (m : Z) (textHash : Z) (i : Z) : Z :=
  Z.rem
    ((textHash - Z.rem (default 0 (get text i) * 256 ^ (m - 1)) 101 + 101) * 256
     + default 0 (get text (i + m)))
    101.

(** The value of [textHash] when the window loop reaches offset [k]. *)
Fixpoint rolledZ (text : str) (m : Z) (k : nat) : Z :=
  match k with
  | O => calculateHashZ text 0 m
  | S k' => rollZ text m (rolledZ text m k') (Z.of_nat k')
  end.

Fixpoint rolled (text : str) (m : Z) (k : nat) : num :=
  match k with
  | O => calculateHash text 0 m
  | S k' => roll text m (rolled text m k') (Z.of_nat k')
  end.


(** ** Vocabulary of the statements *)

(** The pattern occurs in the text at offset [i]. *)
Definition occurs (text pattern : str) (i : Z) : bool :=
  forallb (fun j => sym_eqb (get text (i + j)) (get pattern j))
    (seqZ 0 (strlen pattern)).

(** The symbols [j .. j + k - 1] of the pattern agree with the text at
    offset [i]. *)
Definition agree (text pattern : str) (i j : Z) (k : nat) : bool :=
  forallb (fun j' => sym_eqb (get text (i + j')) (get pattern j'))
    (seqZ j (Z.of_nat k)).

(** The running sums [acc + x1], [acc + x1 + x2], ... of a list. *)
Fixpoint prefix_sums (acc : Z) (l : list Z) : list Z :=
  match l with
  | [] => []
  | x :: l' => (acc + x) :: prefix_sums (acc + x) l'
  end.

Fixpoint sumZ (l : list Z) : Z :=
  match l with
  | [] => 0
  | x :: l' => x + sumZ l'
  end.

(** The number of comparison records of a step. *)
Definition weight (st : step) : Z := Z.of_nat (length (s_comparisons st)).

(** The running total of the last step, when there is a step. *)
Definition last_total (l : list step) : option Z :=
  match rev l with
  | [] => None
  | st :: _ => Some (s_totalComparisons st)
  end.

(** The offsets at which the pattern occurs in the text, in ascending
    order. *)
Definition occurrences (text pattern : str) : list Z :=
  List.filter (occurs text pattern)
    (seqZ 0 (strlen text - strlen pattern + 1)).


(** ** Invariants of the prefix table *)

(** Every cell of the table holds a number between 0 and its index. *)
Definition table_ok (lps : list jsval) : Prop :=
  forall (k : nat) (v : jsval), lps !! k = Some v ->
    exists z, v = JNum z /\ 0 <= z <= Z.of_nat k.

(** The invariant of the loop of [computeKMPPrefixTable], and the quantity
    that bounds its remaining iterations. *)
Definition table_inv (pattern : str) (s : table_state) : Prop :=
  1 <= t_i s /\
  length (t_lps s) = length pattern /\
  table_ok (t_lps s) /\
  (exists l, t_len s = JNum l /\ 0 <= l < t_i s) /\
  Forall (in_bounds 0 (strlen pattern)) (t_reads s).

Definition table_variant (pattern : str) (s : table_state) : nat :=
  match t_len s with
  | JNum l => Z.to_nat (2 * strlen pattern - (2 * t_i s - l))
  | _ => 0
  end.

(** ** Invariants of the KMP scan *)

(** The invariant of the loop of [kmpStringMatching] on a non-empty
    pattern, and the quantity that bounds its remaining iterations. *)
Definition kmp_inv (text pattern : str) (s : kmp_state) : Prop :=
  0 <= k_i s <= strlen text /\
  (exists k, k_j s = JNum k /\ 0 <= k < strlen pattern /\ k <= k_i s) /\
  Forall (in_bounds (strlen text) (strlen pattern)) (reads (k_trace s)).

Definition kmp_variant (text : str) (s : kmp_state) : nat :=
  match k_j s with
  | JNum k => Z.to_nat (2 * strlen text - (2 * k_i s - k))
  | _ => 0
  end.

(** The variables of the KMP scan after [t] iterations of its loop, and
    the step that iteration [t + 1] pushed, when it pushed one. *)
Definition kmp_after (text pattern : str) (lps : list jsval)
  (rd : list access) (t : nat) : kmp_state :=
  Nat.iter t (kmp_iter text pattern lps) (kmp_init rd).



(** What every KMP trace satisfies: one comparison record per step, and a
    running total that is at least the number of steps emitted so far and
    at most the number of loop iterations so far. *)
Definition kmp_shape (tr : trace) : Prop :=
  Forall (fun st => weight st = 1) (steps tr) /\
  (forall (k : nat) (st : step), steps tr !! k = Some st ->
     Z.of_nat (S k) <= s_totalComparisons st <= totalComparisons tr) /\
  Z.of_nat (length (steps tr)) <= totalComparisons tr.




(** ** The window polynomial *)

(** The code unit at [i], 0 outside the string. *)
Definition code_at (s : str) (i : Z) : Z := default 0 (get s i).

(** The value of the [k] symbols from [start] read as a number in base
    256, before any reduction. *)
Definition polyZ (s : str) (start : Z) (k : nat) : Z :=
  fold_left (fun h i => h * 256 + code_at s i) (seqZ start (Z.of_nat k)) 0.

(** The string of [n] letters A. *)
Definition As (n : nat) : str := replicate n 65.


(** ** Borders, and what the KMP loops maintain *)

(** The [k] symbols of [s] from [a] are the [k] symbols of [t] from [b]. *)
Definition seg_eq (s t : str) (a b k : Z) : Prop :=
  forall d, 0 <= d < k -> get s (a + d) = get t (b + d).

(** The first [b] symbols of the pattern are also the last [b] of its first
    [q], and [b] is less than [q]: a proper border of the prefix of length
    [q]. *)
Definition border (pattern : str) (q b : Z) : Prop :=
  0 <= b < q /\ seg_eq pattern pattern (q - b) 0 b.

Definition longest_border (pattern : str) (q b : Z) : Prop :=
  border pattern q b /\ forall b', border pattern q b' -> b' <= b.

(** The cells [0 .. upto - 1] of the table hold the longest borders of the
    prefixes of lengths [1 .. upto]. *)
Definition lps_correct (pattern : str) (lps : list jsval) (upto : Z) : Prop :=
  forall q, 1 <= q <= upto -> q <= strlen pattern ->
    exists b, lps_get lps (JNum (q - 1)) = JNum b /\ longest_border pattern q b.

(** The invariant of the table loop that makes the table correct. *)
Definition table_correct (pattern : str) (s : table_state) : Prop :=
  exists l, t_len s = JNum l /\
    border pattern (t_i s) l /\
    (forall b', border pattern (t_i s + 1) b' -> b' <= l + 1) /\
    lps_correct pattern (t_lps s) (t_i s) /\
    t_i s <= Z.max 1 (strlen pattern).

(** The invariant of the scan that makes the match list correct: the first
    [j] symbols of the pattern are the [j] symbols of the text before [i],
    and the matches found so far are the occurrences that start before
    [i - j]. *)
Definition kmp_correct (text pattern : str) (s : kmp_state) : Prop :=
  exists k, k_j s = JNum k /\
    seg_eq text pattern (k_i s - k) 0 k /\
    foundMatches (k_trace s) =
      map JNum (List.filter (occurs text pattern) (seqZ 0 (k_i s - k))).

(** Strictly ascending lists of offsets. *)
Definition ascending (l : list Z) : Prop := StronglySorted Z.lt l.


(** ** Vocabulary of the further properties *)

(** The comparison record of [text[i + j]] against [pattern[j]]. *)
Definition scan_record (text pattern : str) (i j : Z) : comparison :=
  Comparison (i + j) (JNum j) (sym_eqb (get text (i + j)) (get pattern j)).

(** The number of pairs compared from [pattern[j]] on, with [k] symbols of
    the pattern left: up to and including the first pair that differs. *)
Fixpoint compared (text pattern : str) (i j : Z) (k : nat) : nat :=
  match k with
  | O => O
  | S k' =>
      if sym_eqb (get text (i + j)) (get pattern j)
      then S (compared text pattern i (j + 1) k')
      else 1%nat
  end.

(** The number of pairs compared when the pattern is laid at offset [i],
    and their records. *)
Definition scan_length (text pattern : str) (i : Z) : nat :=
  compared text pattern i 0 (length pattern).

Definition scan_records (text pattern : str) (i : Z) : list comparison :=
  map (scan_record text pattern i)
    (seqZ 0 (Z.of_nat (scan_length text pattern i))).

(** The tag of the Rabin-Karp step of a window, from the outcome of the
    hash test and of the confirmation. *)
Definition rk_tag (hashMatch occ : bool) (i : Z) : description :=
  if hashMatch then
    if occ then HashMatchConfirmed i else HashMatchSpurious
  else HashMismatchSkipped.

(** A comparison record of the pattern laid at offset [p] of a text of [n]
    symbols: pattern symbol [j] against the text symbol above it. *)
Definition aligned_record (p n m : Z) (c : comparison) : Prop :=
  exists j, c_patternIndex c = JNum j /\ c_textIndex c = p + j /\
            0 <= j < m /\ p + j < n.

(** ** Playback *)

(** The state variables of the component that playback reads and writes,
    and [u_interval]: whether the interval set by [startVisualization] is
    still armed.  ([prefixTable], [currentHash] and [performanceData] are
    only displayed and are left out.) *)
Record ui : Type := Ui {
  u_isRunning : bool;
  u_currentStep : Z;
  u_steps : list step;
  u_comparisons : Z;
  u_matches : list jsval;
  u_comparisonHistory : list hist;
  u_interval : bool
}.

(** The setters that a generator runs before it returns the trace [tr],
    and [setSteps] that [generateSteps] runs after it. *)
Definition store_trace (tr : trace) (u : ui) : ui :=
  {| u_isRunning := u_isRunning u; u_currentStep := u_currentStep u;
     u_steps := steps tr;
     u_comparisons := totalComparisons tr;
     u_matches := foundMatches tr;
     u_comparisonHistory := history tr;
     u_interval := u_interval u |}.

(** The [default] branch of [generateSteps]: only [setComparisons(0)] and
    [setSteps([])] run. *)
Definition store_nothing (u : ui) : ui :=
  {| u_isRunning := u_isRunning u; u_currentStep := u_currentStep u;
     u_steps := [];
     u_comparisons := 0;
     u_matches := u_matches u;
     u_comparisonHistory := u_comparisonHistory u;
     u_interval := u_interval u |}.

(** [generateSteps] with its effect on the state variables. *)
Definition generateSteps_ui (fuel : nat) (algorithm : string)
  (text pattern : str) (u : ui) : run ui :=
  if String.eqb algorithm "naive"
  then Done (store_trace (naiveStringMatching text pattern) u)
  else if String.eqb algorithm "kmp" then
    match kmpStringMatching fuel text pattern with
    | Done tr => Done (store_trace tr u)
    | OutOfFuel => OutOfFuel
    end
  else if String.eqb algorithm "rabin-karp"
  then Done (store_trace (rabinKarpStringMatching text pattern) u)
  else Done (store_nothing u).

(** [startVisualization]: nothing more happens when [generateSteps]
    returned no step; otherwise playback starts at step 0 and the interval
    is armed. *)
Definition startVisualization (fuel : nat) (algorithm : string)
  (text pattern : str) (u : ui) : run ui :=
  match generateSteps_ui fuel algorithm text pattern u with
  | OutOfFuel => OutOfFuel
  | Done u' =>
      if Z.of_nat (length (u_steps u')) =? 0 then Done u'
      else
        Done {| u_isRunning := true; u_currentStep := 0;
                u_steps := u_steps u';
                u_comparisons := u_comparisons u';
                u_matches := u_matches u';
                u_comparisonHistory := u_comparisonHistory u';
                u_interval := true |}
  end.

(** One firing of the interval: the updater passed to [setCurrentStep],
    with the [clearInterval] and [setIsRunning(false)] it performs on the
    last step.  [len] is [generatedSteps.length], which the callback
    captured.  A cleared interval fires no more. *)
Definition tick (len : Z) (u : ui) : ui :=
  if u_interval u then
    let nextStep := u_currentStep u + 1 in
    if len <=? nextStep then
      {| u_isRunning := false; u_currentStep := u_currentStep u;
         u_steps := u_steps u; u_comparisons := u_comparisons u;
         u_matches := u_matches u;
         u_comparisonHistory := u_comparisonHistory u;
         u_interval := false |}
    else
      {| u_isRunning := u_isRunning u; u_currentStep := nextStep;
         u_steps := u_steps u; u_comparisons := u_comparisons u;
         u_matches := u_matches u;
         u_comparisonHistory := u_comparisonHistory u;
         u_interval := u_interval u |}
  else u.

(** [steps[currentStep] || {}]: [None] is the empty object. *)
Definition currentStepData (u : ui) : option step :=
  get (u_steps u) (u_currentStep u).

(** ** History and the steps of KMP *)

(** The history that mirrors a list of steps: one entry per step, numbered
    from 0, with the step's number of comparison records plus [extra] and
    the step's running total. *)
Definition history_of (extra : Z) (sts : list step) : list hist :=
  imap (fun k st =>
          Hist (Z.of_nat k) (extra + weight st) (s_totalComparisons st))
    sts.

(** What a step of the KMP scan of a text of [n] symbols for a pattern of
    [m] looks like.  It holds one comparison record, of text symbol [ti]
    against pattern symbol [pj], both inside their strings, and an
    alignment offset [p] inside the text.  Its tag goes with [prefixUse]:
    - a match, at the alignment offset, where the whole pattern fits, its
      record being the last symbol of the pattern, equal to the text
      symbol above it;
    - a mismatch at the first symbol of the pattern, its record being that
      symbol, different from the text symbol above it;
    - a mismatch further on, with a shift from [oldJ] to a smaller
      [newJ]: the alignment offset is the one after the shift, so that
      the recorded pattern symbol lies [oldJ - newJ] cells to the right
      of the recorded text symbol. *)
Definition kmp_step_ok (n m : Z) (st : step) : Prop :=
  exists ti pj b p,
    s_comparisons st = [Comparison ti (JNum pj) b] /\
    0 <= ti < n /\ 0 <= pj < m /\
    s_textIndex st = JNum p /\ 0 <= p <= n /\
    match s_description st, s_detail st with
    | MatchFoundAt pos, PrefixUse None =>
        pos = JNum p /\ p <= n - m /\ pj = m - 1 /\ ti = p + pj /\ b = true
    | MismatchAtBeginning, PrefixUse None =>
        p < n /\ pj = 0 /\ ti = p /\ b = false
    | MismatchPrefixShift, PrefixUse (Some (JNum oldJ, JNum newJ)) =>
        0 <= newJ < oldJ /\ oldJ < m /\ ti = p + pj - (oldJ - newJ)
    | _, _ => False
    end.

(** What the KMP scan keeps true of its step counter, its history and its
    steps. *)
Definition kmp_steps_inv (text pattern : str) (s : kmp_state) : Prop :=
  k_step s = Z.of_nat (length (steps (k_trace s))) /\
  history (k_trace s) = history_of 0 (steps (k_trace s)) /\
  Forall (kmp_step_ok (strlen text) (strlen pattern)) (steps (k_trace s)).

(** ** The pattern row *)

(** [v || 0] for a value that is a number or [undefined]. *)
Definition or_zero (v : jsval) : jsval :=
  match v with
  | JNum z => JNum z
  | JNaN | JUndef => JNum 0
  end.

(** The length of [Array(currentStepData.textIndex || 0)], the blank cells
    that shift the pattern row under the text: [None] is the [RangeError]
    that [Array] throws for a length that is negative or 2^32 or more.
    With no current step the object is empty and its [textIndex] is
    [undefined]. *)
Definition pattern_row_spacers (d : option step) : option Z :=
  match or_zero (match d with Some st => s_textIndex st | None => JUndef end)
  with
  | JNum z => if (0 <=? z) && (z <? 2 ^ 32) then Some z else None
  | JNaN | JUndef => None
  end.


(** ** What an iteration of the KMP scan does after its comparison *)




(** ** The hash with its reads *)




(** * Properties *)

(** Side conditions on the lengths of literal strings. *)
Ltac concrete := unfold strlen, codes; simpl; lia.

(** Case analysis on every test of the goal. *)
Ltac split_ifs :=
  repeat match goal with
         | |- context [if ?b then _ else _] => destruct b eqn:?
         end.

(** ** Reading cells *)

Lemma get_Some_iff {A : Type} (l : list A) (k : Z) :
  is_Some (get l k) <-> 0 <= k < Z.of_nat (length l).
Proof.
  unfold get. destruct (Z.leb_spec 0 k) as [Hk|Hk].
  - rewrite lookup_lt_is_Some. lia.
  - split; [intros [x Hx]; discriminate | lia].
Qed.

Lemma get_None_iff {A : Type} (l : list A) (k : Z) :
  get l k = None <-> k < 0 \/ Z.of_nat (length l) <= k.
Proof.
  rewrite eq_None_not_Some, get_Some_iff. lia.
Qed.

Lemma sym_eqb_true (a b : option Z) : sym_eqb a b = true <-> a = b.
Proof.
  destruct a as [x|], b as [y|]; simpl; try (split; congruence).
  rewrite Z.eqb_eq. split; congruence.
Qed.

Lemma sym_eqb_false (a b : option Z) : sym_eqb a b = false <-> a <> b.
Proof.
  rewrite <- sym_eqb_true. destruct (sym_eqb a b); split; congruence.
Qed.

Lemma strlen_nonneg (s : str) : 0 <= strlen s.
Proof. unfold strlen. lia. Qed.

Lemma strlen_nil : strlen [] = 0.
Proof. reflexivity. Qed.

Lemma strlen_pos (s : str) : s <> [] -> 0 < strlen s.
Proof. destruct s; [congruence | unfold strlen; simpl; lia]. Qed.

(** ** The naive scan on an empty pattern *)

Lemma naive_body_empty_pattern (text : str) (tr : trace) (i : Z) :
  naive_body text [] tr i =
  {| steps := steps tr ++
       [Step (JNum i) 0 [] (totalComparisons tr) (MatchFoundAt (JNum i)) NoDetail];
     foundMatches := foundMatches tr ++ [JNum i];
     totalComparisons := totalComparisons tr;
     history := history tr ++ [Hist i 0 (totalComparisons tr)];
     reads := reads tr |}.
Proof. reflexivity. Qed.

Lemma naive_fold_empty_pattern (text : str) (l : list Z) (tr : trace) :
  fold_left (naive_body text []) l tr =
  {| steps := steps tr ++
       map (fun i => Step (JNum i) 0 [] (totalComparisons tr)
                       (MatchFoundAt (JNum i)) NoDetail) l;
     foundMatches := foundMatches tr ++ map JNum l;
     totalComparisons := totalComparisons tr;
     history := history tr ++ map (fun i => Hist i 0 (totalComparisons tr)) l;
     reads := reads tr |}.
Proof.
  revert tr. induction l as [|i l IH]; intros tr.
  - simpl. rewrite !app_nil_r. now destruct tr.
  - cbn [fold_left]. rewrite IH, naive_body_empty_pattern. cbn.
    now rewrite <- !app_assoc.
Qed.

(** C10. On an empty pattern the naive scan raises nothing and returns
    [|text| + 1] steps, one per offset [0 .. |text|], each tagged as a match
    with no comparison and a running total of 0; the match positions are
    [0, 1, ..., |text|], the last of which lies outside the text. *)
Theorem naive_empty_pattern (text : str) :
  naiveStringMatching text [] =
    {| steps := map (fun i => Step (JNum i) 0 [] 0 (MatchFoundAt (JNum i)) NoDetail)
                  (seqZ 0 (strlen text + 1));
       foundMatches := map JNum (seqZ 0 (strlen text + 1));
       totalComparisons := 0;
       history := map (fun i => Hist i 0 0) (seqZ 0 (strlen text + 1));
       reads := [] |}
  /\ length (steps (naiveStringMatching text [])) = S (length text)
  /\ In (JNum (strlen text)) (foundMatches (naiveStringMatching text []))
  /\ get text (strlen text) = None.
Proof.
  assert (E : naiveStringMatching text [] =
    {| steps := map (fun i => Step (JNum i) 0 [] 0 (MatchFoundAt (JNum i)) NoDetail)
                  (seqZ 0 (strlen text + 1));
       foundMatches := map JNum (seqZ 0 (strlen text + 1));
       totalComparisons := 0;
       history := map (fun i => Hist i 0 0) (seqZ 0 (strlen text + 1));
       reads := [] |}).
  { unfold naiveStringMatching. rewrite strlen_nil, Z.sub_0_r.
    now rewrite naive_fold_empty_pattern. }
  split; [exact E|]. rewrite E. cbn [steps foundMatches].
  split; [|split].
  - rewrite length_map, length_seqZ. unfold strlen. lia.
  - apply in_map. apply list_elem_of_In, elem_of_seqZ.
    pose proof (strlen_nonneg text). lia.
  - apply get_None_iff. right. unfold strlen. lia.
Qed.


(** ** The inner loop *)



Lemma agree_S (text pattern : str) (i j : Z) (k : nat) :
  agree text pattern i j (S k) =
  sym_eqb (get text (i + j)) (get pattern j) && agree text pattern i (j + 1) k.
Proof.
  unfold agree. rewrite seqZ_cons by lia. cbn [forallb].
  replace (Z.pred (Z.of_nat (S k))) with (Z.of_nat k) by lia.
  now replace (Z.succ j) with (j + 1) by lia.
Qed.

Lemma occurs_agree (text pattern : str) (i : Z) :
  occurs text pattern i = agree text pattern i 0 (length pattern).
Proof. reflexivity. Qed.

Section InnerScan.
Variables (text pattern : str) (i : Z).

Lemma inner_scan_comparisons (k : nat) (s : scan) :
  exists cs,
    sc_comparisons (inner_scan text pattern i k s) = sc_comparisons s ++ cs /\
    sc_total (inner_scan text pattern i k s) = sc_total s + Z.of_nat (length cs) /\
    sc_stepc (inner_scan text pattern i k s) = sc_stepc s + Z.of_nat (length cs) /\
    (length cs <= k)%nat.
Proof.
  revert s. induction k as [|k IH]; intros s.
  - exists []. cbn. rewrite app_nil_r. repeat split; lia.
  - cbn [inner_scan].
    destruct (sym_eqb (get text (i + sc_j s)) (get pattern (sc_j s))).
    + match goal with |- context [inner_scan _ _ _ k ?s'] =>
        destruct (IH s') as (cs & E1 & E2 & E3 & E4) end.
      cbn [sc_comparisons sc_total sc_stepc] in E1, E2, E3.
      eexists (_ :: cs). rewrite E1, E2, E3, <- app_assoc. cbn [length app].
      repeat split; lia.
    + eexists [_]. cbn [sc_comparisons sc_total sc_stepc length]. repeat split; lia.
Qed.

Lemma inner_scan_total (k : nat) (s : scan) :
  sc_total (inner_scan text pattern i k s) - sc_total s =
  Z.of_nat (length (sc_comparisons (inner_scan text pattern i k s)))
  - Z.of_nat (length (sc_comparisons s)).
Proof.
  destruct (inner_scan_comparisons k s) as (cs & E1 & E2 & _).
  rewrite E1, E2, length_app. lia.
Qed.

(** The loop ends with [j] at the bound exactly when all [k] symbols
    agreed. *)
Lemma inner_scan_j (k : nat) (s : scan) :
  sc_j s <= sc_j (inner_scan text pattern i k s) <= sc_j s + Z.of_nat k /\
  (sc_j (inner_scan text pattern i k s) =? sc_j s + Z.of_nat k) =
  agree text pattern i (sc_j s) k.
Proof.
  revert s. induction k as [|k IH]; intros s.
  - cbn. split; [lia|]. rewrite Z.add_0_r. apply Z.eqb_refl.
  - rewrite agree_S. cbn [inner_scan].
    destruct (sym_eqb (get text (i + sc_j s)) (get pattern (sc_j s))).
    + match goal with |- context [inner_scan _ _ _ k ?s'] =>
        destruct (IH s') as (E1 & E2) end.
      cbn [sc_j] in E1, E2. split; [lia|].
      rewrite <- E2. cbn [andb]. f_equal. lia.
    + cbn [sc_j andb]. split; [lia|]. apply Z.eqb_neq. lia.
Qed.

(** The counter of [count_inner] is the running total of [inner_scan]. *)
Lemma count_inner_scan (k : nat) (s : scan) :
  count_inner text pattern i (sc_j s) k (sc_total s) =
  sc_total (inner_scan text pattern i k s).
Proof.
  revert s. induction k as [|k IH]; intros s; [reflexivity|].
  cbn [count_inner inner_scan].
  destruct (sym_eqb (get text (i + sc_j s)) (get pattern (sc_j s)));
    cbn [negb]; [|reflexivity].
  match goal with |- context [inner_scan _ _ _ k ?s'] =>
    rewrite <- (IH s') end.
  reflexivity.
Qed.

(** Every cell the loop reads lies in the window [i + j], [j] for a [j]
    below the bound. *)
Lemma inner_scan_reads (k : nat) (s : scan) (P : access -> Prop) :
  Forall P (sc_reads s) ->
  (forall j, sc_j s <= j < sc_j s + Z.of_nat k ->
             P (Rd AText (JNum (i + j))) /\ P (Rd APattern (JNum j))) ->
  Forall P (sc_reads (inner_scan text pattern i k s)).
Proof.
  revert s. induction k as [|k IH]; intros s Hs HP; [exact Hs|].
  cbn [inner_scan].
  assert (Hr : Forall P (sc_reads s ++ cmp_reads i (sc_j s) ++ cmp_reads i (sc_j s))).
  { destruct (HP (sc_j s)) as [H1 H2]; [lia|].
    rewrite !Forall_app. unfold cmp_reads. repeat split; auto. }
  destruct (sym_eqb (get text (i + sc_j s)) (get pattern (sc_j s))).
  - apply IH; cbn [sc_reads sc_j]; [exact Hr|].
    intros j Hj. apply HP. lia.
  - exact Hr.
Qed.
End InnerScan.

(** ** Running sums *)






Lemma prefix_sums_lookup (acc : Z) (l : list Z) (k : nat) (x : Z) :
  prefix_sums acc l !! k = Some x -> x = acc + sumZ (take (S k) l).
Proof.
  revert acc k. induction l as [|y l IH]; intros acc k H; [discriminate|].
  destruct k as [|k]; cbn in H.
  - inversion H. cbn [take sumZ]. rewrite take_0. cbn [sumZ]. lia.
  - apply IH in H. rewrite H. cbn [take sumZ]. lia.
Qed.


(** ** The naive scan *)

Section Naive.
Variables (text pattern : str).

Lemma naive_body_spec (tr : trace) (i : Z) :
  exists st,
    steps (naive_body text pattern tr i) = steps tr ++ [st] /\
    s_totalComparisons st = totalComparisons (naive_body text pattern tr i) /\
    totalComparisons (naive_body text pattern tr i) =
      totalComparisons tr + weight st /\
    foundMatches (naive_body text pattern tr i) =
      foundMatches tr ++ (if occurs text pattern i then [JNum i] else []).
Proof.
  unfold naive_body.
  set (s0 := start_scan (totalComparisons tr) 0 (reads tr)).
  pose proof (inner_scan_total text pattern i (length pattern) s0) as Ht.
  destruct (inner_scan_j text pattern i (length pattern) s0) as [_ Hj].
  rewrite <- occurs_agree in Hj. cbn [sc_j s0 start_scan] in Hj.
  rewrite Z.add_0_l in Hj. fold (strlen pattern) in Hj.
  eexists. cbn [steps totalComparisons foundMatches].
  split; [reflexivity|]. unfold weight. cbn [s_totalComparisons s_comparisons s_description].
  split; [reflexivity|]. split.
  { cbn [s0 start_scan sc_total sc_comparisons length] in Ht. lia. }
  rewrite Hj. destruct (occurs text pattern i);
    [reflexivity | now rewrite app_nil_r].
Qed.

Lemma naive_fold_matches (l : list Z) (tr : trace) :
  foundMatches (fold_left (naive_body text pattern) l tr) =
  foundMatches tr ++ map JNum (List.filter (occurs text pattern) l).
Proof.
  revert tr. induction l as [|i l IH]; intros tr; cbn [fold_left].
  - cbn. now rewrite app_nil_r.
  - rewrite IH. destruct (naive_body_spec tr i) as (st & _ & _ & _ & E).
    rewrite E. cbn [List.filter]. destruct (occurs text pattern i).
    + cbn [map]. now rewrite <- app_assoc.
    + now rewrite app_nil_r.
Qed.


Lemma naive_fold_last (l : list Z) (tr : trace) :
  l <> [] ->
  let tr' := fold_left (naive_body text pattern) l tr in
  last_total (steps tr') = Some (totalComparisons tr').
Proof.
  intros Hl. destruct (exists_last Hl) as (l' & i & ->).
  cbn zeta. rewrite fold_left_app. cbn [fold_left].
  destruct (naive_body_spec (fold_left (naive_body text pattern) l' tr) i)
    as (st & E1 & E2 & _).
  unfold last_total. rewrite E1, rev_unit. now rewrite E2.
Qed.

Lemma naive_fold_count (l : list Z) (tr : trace) :
  fold_left (fun comparisons i =>
               count_inner text pattern i 0 (length pattern) comparisons)
    l (totalComparisons tr) =
  totalComparisons (fold_left (naive_body text pattern) l tr).
Proof.
  revert tr. induction l as [|i l IH]; intros tr; cbn [fold_left]; [reflexivity|].
  rewrite <- IH. f_equal.
  apply (count_inner_scan text pattern i (length pattern)
           (start_scan (totalComparisons tr) 0 (reads tr))).
Qed.

Lemma naive_fold_reads (l : list Z) (tr : trace) :
  Forall (fun i => 0 <= i <= strlen text - strlen pattern) l ->
  Forall (in_bounds (strlen text) (strlen pattern)) (reads tr) ->
  Forall (in_bounds (strlen text) (strlen pattern))
    (reads (fold_left (naive_body text pattern) l tr)).
Proof.
  revert tr. induction l as [|i l IH]; intros tr Hl Hr; cbn [fold_left];
    [exact Hr|].
  inversion Hl as [|? ? Hi Hl']; subst. apply IH; [exact Hl'|].
  cbn [naive_body reads]. apply inner_scan_reads; [exact Hr|].
  cbn [start_scan sc_j]. unfold in_bounds, strlen in *. cbn. intros j Hj. lia.
Qed.
End Naive.


(** ** Rabin-Karp: what does not depend on the hash values *)

Section RabinKarp.
Variables (text pattern : str) (patternHash : num).

Lemma rk_body_spec (st : rk_state) (i : Z) :
  let st' := rk_body text pattern patternHash st i in
  exists stp,
    steps (r_trace st') = steps (r_trace st) ++ [stp] /\
    s_totalComparisons stp = totalComparisons (r_trace st') /\
    totalComparisons (r_trace st') =
      totalComparisons (r_trace st) + 1 + weight stp /\
    foundMatches (r_trace st') =
      foundMatches (r_trace st) ++
      (if num_eqb (r_textHash st) patternHash && occurs text pattern i
       then [JNum i] else []) /\
    r_textHash st' =
      (if i <? strlen text - strlen pattern
       then roll text (strlen pattern) (r_textHash st) i
       else r_textHash st).
Proof.
  unfold rk_body. cbn zeta.
  set (tr := r_trace st).
  set (s0 := start_scan (totalComparisons tr + 1) 1 (reads tr)).
  pose proof (inner_scan_total text pattern i (length pattern) s0) as Ht.
  destruct (inner_scan_j text pattern i (length pattern) s0) as [_ Hj].
  rewrite <- occurs_agree in Hj. cbn [sc_j s0 start_scan] in Hj.
  rewrite Z.add_0_l in Hj. fold (strlen pattern) in Hj.
  cbn [s0 start_scan sc_total sc_comparisons length] in Ht.
  cbn [r_trace r_textHash steps totalComparisons foundMatches].
  destruct (num_eqb (r_textHash st) patternHash); cbn [andb].
  - rewrite Hj. eexists. split; [reflexivity|].
    destruct (occurs text pattern i);
      unfold weight; cbn [s_totalComparisons s_comparisons];
      (split; [reflexivity|]); (split; [lia|]);
      rewrite ?app_nil_r; split; reflexivity.
  - eexists. split; [reflexivity|].
    unfold weight. cbn [s_totalComparisons s_comparisons s0 start_scan sc_total length].
    split; [reflexivity|]. split; [lia|]. rewrite app_nil_r. split; reflexivity.
Qed.


Lemma rk_fold_last (l : list Z) (st : rk_state) :
  l <> [] ->
  let tr' := r_trace (fold_left (rk_body text pattern patternHash) l st) in
  last_total (steps tr') = Some (totalComparisons tr').
Proof.
  intros Hl. destruct (exists_last Hl) as (l' & i & ->).
  cbn zeta. rewrite fold_left_app. cbn [fold_left].
  destruct (rk_body_spec (fold_left (rk_body text pattern patternHash) l' st) i)
    as (stp & E1 & E2 & _).
  unfold last_total. rewrite E1, rev_unit. now rewrite E2.
Qed.

Lemma rk_fold_count (l : list Z) (st : rk_state) (c : crk_state) :
  cr_textHash c = r_textHash st ->
  cr_comparisons c = totalComparisons (r_trace st) ->
  cr_comparisons (fold_left (crk_body text pattern patternHash) l c) =
  totalComparisons (r_trace (fold_left (rk_body text pattern patternHash) l st)).
Proof.
  revert st c. induction l as [|i l IH]; intros st c H1 H2; cbn [fold_left];
    [exact H2|].
  apply IH.
  - cbn [crk_body rk_body cr_textHash r_textHash]. now rewrite H1.
  - cbn [crk_body rk_body cr_comparisons r_trace totalComparisons].
    rewrite H1, H2.
    destruct (num_eqb (r_textHash st) patternHash); [|reflexivity].
    apply (count_inner_scan text pattern i (length pattern)
             (start_scan (totalComparisons (r_trace st) + 1) 1
                (reads (r_trace st)))).
Qed.

Lemma rk_fold_reads (l : list Z) (st : rk_state) :
  Forall (fun i => 0 <= i <= strlen text - strlen pattern) l ->
  Forall (in_bounds (strlen text) (strlen pattern)) (reads (r_trace st)) ->
  Forall (in_bounds (strlen text) (strlen pattern))
    (reads (r_trace (fold_left (rk_body text pattern patternHash) l st))).
Proof.
  revert st. induction l as [|i l IH]; intros st Hl Hr; cbn [fold_left];
    [exact Hr|].
  inversion Hl as [|? ? Hi Hl']; subst. apply IH; [exact Hl'|].
  cbn [rk_body r_trace reads]. apply Forall_app. split.
  - destruct (num_eqb (r_textHash st) patternHash); [|exact Hr].
    apply inner_scan_reads; [exact Hr|].
    cbn [start_scan sc_j]. unfold in_bounds, strlen in *. cbn. intros j Hj. lia.
  - destruct (Z.ltb_spec i (strlen text - strlen pattern)); [|constructor].
    pose proof (strlen_nonneg pattern).
    repeat constructor; unfold in_bounds; cbn; lia.
Qed.

(** The window loop sees the rolled hash of its offset, and keeps the
    offsets whose hash equals the pattern's and where the pattern occurs. *)
Lemma rk_fold_prefix (k : nat) :
  Z.of_nat k <= strlen text - strlen pattern + 1 ->
  let st' := fold_left (rk_body text pattern patternHash)
               (seqZ 0 (Z.of_nat k)) (rk_init text pattern) in
  r_textHash st' =
    rolled text (strlen pattern)
      (Nat.min k (Z.to_nat (strlen text - strlen pattern))) /\
  foundMatches (r_trace st') =
    map JNum
      (List.filter
         (fun i => num_eqb (rolled text (strlen pattern) (Z.to_nat i))
                     patternHash && occurs text pattern i)
         (seqZ 0 (Z.of_nat k))).
Proof.
  induction k as [|k IH]; intros Hk; cbn zeta.
  - cbn. split; reflexivity.
  - rewrite seqZ_S, fold_left_app. cbn [fold_left]. rewrite Z.add_0_l.
    destruct IH as [IH1 IH2]; [lia|].
    destruct (rk_body_spec
                (fold_left (rk_body text pattern patternHash)
                   (seqZ 0 (Z.of_nat k)) (rk_init text pattern)) (Z.of_nat k))
      as (stp & _ & _ & _ & E4 & E5).
    cbn zeta in E4, E5. rewrite E4, E5, IH1, IH2.
    replace (Nat.min k (Z.to_nat (strlen text - strlen pattern))) with k by lia.
    split.
    + destruct (Z.ltb_spec (Z.of_nat k) (strlen text - strlen pattern)).
      * replace (Nat.min (S k) (Z.to_nat (strlen text - strlen pattern)))
          with (S k) by lia.
        reflexivity.
      * replace (Nat.min (S k) (Z.to_nat (strlen text - strlen pattern)))
          with k by lia.
        reflexivity.
    + rewrite List.filter_app, map_app. f_equal.
      cbn [List.filter]. rewrite Nat2Z.id.
      now destruct (num_eqb (rolled text (strlen pattern) k) patternHash
                    && occurs text pattern (Z.of_nat k)).
Qed.
End RabinKarp.


(** ** While loops *)

Section While.
Context {St : Type} (cond : St -> bool) (body : St -> St).

(** An invariant that the body keeps holds when the loop returns. *)
Lemma while_invariant (Inv : St -> Prop) :
  (forall s, Inv s -> cond s = true -> Inv (body s)) ->
  forall fuel s s', Inv s -> while cond body fuel s = Done s' ->
                    Inv s' /\ cond s' = false.
Proof.
  intros Hbody fuel. induction fuel as [|fuel IH]; intros s s' Hs; cbn [while];
    destruct (cond s) eqn:Hc; try discriminate.
  - intros [= <-]. auto.
  - intros H. eapply IH; [|exact H]. auto.
  - intros [= <-]. auto.
Qed.

(** With a variant that the body decreases, enough fuel makes the loop
    return. *)
Lemma while_terminates (Inv : St -> Prop) (v : St -> nat) :
  (forall s, Inv s -> cond s = true -> Inv (body s) /\ (v (body s) < v s)%nat) ->
  forall fuel s, Inv s -> (v s <= fuel)%nat ->
                 exists s', while cond body fuel s = Done s' /\ Inv s' /\
                            cond s' = false.
Proof.
  intros Hbody fuel. induction fuel as [|fuel IH]; intros s Hs Hv; cbn [while];
    destruct (cond s) eqn:Hc; eauto.
  - destruct (Hbody s Hs Hc). lia.
  - destruct (Hbody s Hs Hc). apply IH; [assumption | lia].
Qed.


(** A loop whose guard holds on an invariant never returns. *)
Lemma while_diverges (Inv : St -> Prop) :
  (forall s, Inv s -> cond s = true /\ Inv (body s)) ->
  forall fuel s, Inv s -> while cond body fuel s = OutOfFuel.
Proof.
  intros Hbody fuel. induction fuel as [|fuel IH]; intros s Hs; cbn [while];
    destruct (Hbody s Hs) as [-> Hs']; auto.
Qed.
End While.

(** Two loops that stay related run in lockstep. *)
Lemma while_simulation {S1 S2 : Type} (c1 : S1 -> bool) (b1 : S1 -> S1)
  (c2 : S2 -> bool) (b2 : S2 -> S2) (R : S1 -> S2 -> Prop) :
  (forall s t, R s t -> c1 s = c2 t /\ (c1 s = true -> R (b1 s) (b2 t))) ->
  forall fuel s t, R s t ->
    match while c1 b1 fuel s, while c2 b2 fuel t with
    | Done s', Done t' => R s' t'
    | OutOfFuel, OutOfFuel => True
    | _, _ => False
    end.
Proof.
  intros H fuel. induction fuel as [|fuel IH]; intros s t Hst; cbn [while];
    destruct (H s t Hst) as [Hc Hb]; rewrite <- Hc; destruct (c1 s); auto.
  apply IH. auto.
Qed.

(** ** The prefix table: bounds and termination *)

Lemma table_ok_replicate (n : nat) : table_ok (replicate n (JNum 0)).
Proof.
  intros k v H. apply lookup_replicate in H as [-> _]. exists 0. split; [reflexivity | lia].
Qed.

Lemma table_ok_insert (lps : list jsval) (i : nat) (z : Z) :
  table_ok lps -> 0 <= z <= Z.of_nat i -> table_ok (<[i := JNum z]> lps).
Proof.
  intros H Hz k v Hk. destruct (decide (i = k)) as [->|Hne].
  - destruct (decide (k < length lps)%nat) as [Hlt|Hge].
    + rewrite list_lookup_insert_eq in Hk by exact Hlt. inversion Hk. eauto.
    + rewrite list_insert_ge in Hk by lia. eauto.
  - rewrite list_lookup_insert_ne in Hk by exact Hne. eauto.
Qed.

Lemma table_ok_get (lps : list jsval) (k : Z) :
  table_ok lps -> 0 <= k < Z.of_nat (length lps) ->
  exists z, lps_get lps (JNum k) = JNum z /\ 0 <= z <= k.
Proof.
  intros H Hk. unfold lps_get, getv.
  destruct (proj2 (get_Some_iff lps k) Hk) as [v Hv]. rewrite Hv.
  unfold get in Hv. destruct (Z.leb_spec 0 k); [|lia].
  apply H in Hv as (z & -> & Hz). exists z. split; [reflexivity | lia].
Qed.

Section Table.
Variable pattern : str.

Lemma table_init_inv : table_inv pattern (table_init pattern).
Proof.
  unfold table_inv, table_init. cbn.
  split; [lia|]. split; [apply length_replicate|].
  split; [apply table_ok_replicate|].
  split; [exists 0; split; [reflexivity | lia] | constructor].
Qed.

Lemma table_iter_inv (s : table_state) :
  table_inv pattern s -> (t_i s <? strlen pattern) = true ->
  table_inv pattern (table_iter pattern s) /\
  (table_variant pattern (table_iter pattern s) < table_variant pattern s)%nat.
Proof.
  intros (Hi & Hlen & Hok & (l & Hl & Hlb) & Hrd) Hc.
  apply Z.ltb_lt in Hc.
  assert (Hrd' : Forall (in_bounds 0 (strlen pattern))
                   (t_reads s ++ [Rd APattern (JNum (t_i s)); Rd APattern (t_len s)])).
  { apply Forall_app. split; [exact Hrd|]. rewrite Hl.
    repeat constructor; unfold in_bounds; cbn; lia. }
  unfold table_iter, table_variant, table_inv. rewrite Hl.
  cbn [getv jincr jsub jsval_eqb].
  destruct (sym_eqb (get pattern (t_i s)) (get pattern l)).
  - cbn [t_i t_lps t_len t_reads]. split; [|lia].
    split; [lia|]. split; [now rewrite length_insert|].
    split; [apply table_ok_insert; [exact Hok | lia]|].
    split; [exists (l + 1); split; [reflexivity | lia] | now rewrite Hl in Hrd'].
  - destruct (Z.eqb_spec l 0) as [->|Hne]; cbn [negb t_i t_lps t_len t_reads].
    + split; [|lia].
      split; [lia|]. split; [now rewrite length_insert|].
      split; [apply table_ok_insert; [exact Hok | lia]|].
      split; [exists 0; split; [reflexivity | lia] | now rewrite Hl in Hrd'].
    + destruct (table_ok_get (t_lps s) (l - 1) Hok) as (z & Hz & Hzb).
      { rewrite Hlen. unfold strlen in Hc. lia. }
      rewrite Hz. split; [|lia].
      split; [lia|]. split; [exact Hlen|]. split; [exact Hok|].
      split; [exists z; split; [reflexivity | lia]|].
      rewrite Hl in Hrd'. apply Forall_app. split; [exact Hrd'|].
      repeat constructor; unfold in_bounds; cbn; lia.
Qed.

(** The table loop returns within [2 * |pattern|] iterations, with a
    table of the length of the pattern whose cells are numbers bounded by
    their index, having read inside the pattern and the table only. *)
Lemma computeKMPPrefixTable_returns (fuel : nat) :
  (2 * length pattern <= fuel)%nat ->
  exists t, computeKMPPrefixTable fuel pattern = Done t /\ table_inv pattern t.
Proof.
  intros Hf. unfold computeKMPPrefixTable, table_loop.
  destruct (while_terminates (fun s => t_i s <? strlen pattern)
              (table_iter pattern) (table_inv pattern) (table_variant pattern)
              table_iter_inv fuel (table_init pattern) table_init_inv)
    as (t & Ht & Hinv & _).
  - unfold table_variant, table_init, strlen. cbn. lia.
  - eauto.
Qed.
End Table.


(** ** The KMP scan: bounds and termination *)

Lemma in_bounds_text_mono (n n' m : Z) (a : access) :
  in_bounds n m a -> n <= n' -> in_bounds n' m a.
Proof.
  unfold in_bounds. destruct (acc_index a); [|tauto|tauto].
  destruct (acc_array a); lia.
Qed.


Section Kmp.
Variables (text pattern : str) (lps : list jsval).

(** What one iteration does to the trace, whatever the state. *)
Lemma kmp_iter_trace (s : kmp_state) :
  let s' := kmp_iter text pattern lps s in
  totalComparisons (k_trace s') = totalComparisons (k_trace s) + 1 /\
  (steps (k_trace s') = steps (k_trace s) \/
   exists st, steps (k_trace s') = steps (k_trace s) ++ [st] /\
              s_comparisons st =
                [Comparison (k_i s) (k_j s)
                   (sym_eqb (get text (k_i s)) (getv pattern (k_j s)))] /\
              s_totalComparisons st = totalComparisons (k_trace s) + 1).
Proof.
  unfold kmp_iter. cbn zeta. split_ifs; cbn [k_trace totalComparisons steps];
    (split; [reflexivity|]); eauto.
Qed.

Lemma kmp_iter_shape (s : kmp_state) :
  kmp_shape (k_trace s) -> kmp_shape (k_trace (kmp_iter text pattern lps s)).
Proof.
  intros (H1 & H2 & H3).
  destruct (kmp_iter_trace s) as (Et & [Es | (st & Es & Ec & Est)]);
    unfold kmp_shape; rewrite Et, Es.
  - split; [exact H1|]. split; [|lia].
    intros k st Hk. specialize (H2 k st Hk). lia.
  - split; [|split].
    + apply Forall_app. split; [exact H1|]. constructor; [|constructor].
      unfold weight. now rewrite Ec.
    + intros k st' Hk. apply lookup_app_Some in Hk as [Hk | [Hlen Hk]].
      * specialize (H2 k st' Hk). lia.
      * destruct (k - length (steps (k_trace s)))%nat as [|d] eqn:Hd;
          [|destruct d; discriminate].
        inversion Hk; subst st'. rewrite Est. lia.
    + rewrite length_app. cbn. lia.
Qed.

(** The running total is the number of iterations, and the total of a
    step is the number of the iteration that pushed it. *)
Lemma kmp_after_S (rd : list access) (t : nat) :
  kmp_after text pattern lps rd (S t) =
  kmp_iter text pattern lps (kmp_after text pattern lps rd t).
Proof. reflexivity. Qed.

Lemma kmp_after_total (rd : list access) (t : nat) :
  totalComparisons (k_trace (kmp_after text pattern lps rd t)) = Z.of_nat t.
Proof.
  induction t as [|t IH]; [reflexivity|].
  rewrite kmp_after_S.
  destruct (kmp_iter_trace (kmp_after text pattern lps rd t)) as [E _].
  rewrite E, IH. lia.
Qed.


Hypothesis lps_length : length lps = length pattern.
Hypothesis lps_ok : table_ok lps.

Lemma kmp_iter_inv (s : kmp_state) :
  kmp_inv text pattern s -> (k_i s <? strlen text) = true ->
  kmp_inv text pattern (kmp_iter text pattern lps s) /\
  (kmp_variant text (kmp_iter text pattern lps s) < kmp_variant text s)%nat.
Proof.
  intros (Hi & (k & Hj & Hk & Hki) & Hrd) Hc. apply Z.ltb_lt in Hc.
  assert (Hlen : Z.of_nat (length lps) = strlen pattern)
    by (unfold strlen; now rewrite lps_length).
  assert (Hrd0 : Forall (in_bounds (strlen text) (strlen pattern))
            (reads (k_trace s) ++
             [Rd AText (JNum (k_i s)); Rd APattern (JNum k);
              Rd AText (JNum (k_i s)); Rd APattern (JNum k)])).
  { apply Forall_app. split; [exact Hrd|].
    repeat constructor; unfold in_bounds; cbn; lia. }
  unfold kmp_iter, kmp_variant, kmp_inv. rewrite Hj. cbn zeta.
  destruct (sym_eqb (get text (k_i s)) (getv pattern (JNum k))) eqn:Heq;
    cbn [jincr jsval_eqb jsub].
  - (* the symbols agree: [i++], [j++] *)
    destruct (Z.eqb_spec (k + 1) (strlen pattern)) as [Hm|Hm].
    + destruct (table_ok_get lps (k + 1 - 1) lps_ok) as (z & Hz & Hzb); [lia|].
      rewrite Hz. cbn [k_i k_j k_trace reads]. split; [|lia].
      split; [lia|]. split; [exists z; split; [reflexivity | lia]|].
      apply Forall_app. split; [exact Hrd0|].
      repeat constructor; unfold in_bounds; cbn; lia.
    + destruct (Z.ltb_spec (k_i s + 1) (strlen text)) as [Hlt|Hge].
      * assert (Hrd1 : Forall (in_bounds (strlen text) (strlen pattern))
            ((reads (k_trace s) ++
              [Rd AText (JNum (k_i s)); Rd APattern (JNum k);
               Rd AText (JNum (k_i s)); Rd APattern (JNum k)]) ++
             [Rd AText (JNum (k_i s + 1)); Rd APattern (JNum (k + 1))])).
        { apply Forall_app. split; [exact Hrd0|].
          repeat constructor; unfold in_bounds; cbn; lia. }
        destruct (sym_eqb (get text (k_i s + 1)) (getv pattern (JNum (k + 1))));
          cbn [negb].
        -- cbn [k_i k_j k_trace reads]. split; [|lia].
           split; [lia|]. split; [exists (k + 1); split; [reflexivity | lia]|].
           exact Hrd1.
        -- destruct (Z.eqb_spec (k + 1) 0) as [?|_]; [lia|]. cbn [negb].
           destruct (table_ok_get lps (k + 1 - 1) lps_ok) as (z & Hz & Hzb); [lia|].
           rewrite Hz. cbn [k_i k_j k_trace reads]. split; [|lia].
           split; [lia|]. split; [exists z; split; [reflexivity | lia]|].
           apply Forall_app. split; [exact Hrd1|].
           repeat constructor; unfold in_bounds; cbn; lia.
      * cbn [k_i k_j k_trace reads]. split; [|lia].
        split; [lia|]. split; [exists (k + 1); split; [reflexivity | lia]|].
        exact Hrd0.
  - (* the symbols differ *)
    destruct (Z.eqb_spec k (strlen pattern)) as [?|_]; [lia|].
    destruct (Z.ltb_spec (k_i s) (strlen text)) as [_|?]; [|lia].
    rewrite Heq. cbn [negb].
    assert (Hrd1 : Forall (in_bounds (strlen text) (strlen pattern))
            ((reads (k_trace s) ++
              [Rd AText (JNum (k_i s)); Rd APattern (JNum k);
               Rd AText (JNum (k_i s)); Rd APattern (JNum k)]) ++
             [Rd AText (JNum (k_i s)); Rd APattern (JNum k)])).
    { apply Forall_app. split; [exact Hrd0|].
      repeat constructor; unfold in_bounds; cbn; lia. }
    destruct (Z.eqb_spec k 0) as [->|Hk0]; cbn [negb].
    + cbn [k_i k_j k_trace reads]. split; [|lia].
      split; [lia|]. split; [exists 0; split; [reflexivity | lia]|].
      exact Hrd1.
    + destruct (table_ok_get lps (k - 1) lps_ok) as (z & Hz & Hzb); [lia|].
      rewrite Hz. cbn [k_i k_j k_trace reads]. split; [|lia].
      split; [lia|]. split; [exists z; split; [reflexivity | lia]|].
      apply Forall_app. split; [exact Hrd1|].
      repeat constructor; unfold in_bounds; cbn; lia.
Qed.
End Kmp.


Section KmpRuns.
Variables (text pattern : str).

Lemma kmp_init_inv (rd : list access) :
  pattern <> [] ->
  Forall (in_bounds (strlen text) (strlen pattern)) rd ->
  kmp_inv text pattern (kmp_init rd).
Proof.
  intros Hp Hrd. unfold kmp_inv, kmp_init. cbn.
  pose proof (strlen_nonneg text). pose proof (strlen_pos pattern Hp).
  split; [lia|]. split; [exists 0; split; [reflexivity | lia] | exact Hrd].
Qed.

Lemma kmp_init_shape (rd : list access) : kmp_shape (k_trace (kmp_init rd)).
Proof.
  unfold kmp_shape, kmp_init. cbn. split; [constructor|]. split; [|lia].
  intros k st H. discriminate.
Qed.

(** On a non-empty pattern the scan returns within [2 * |text|]
    iterations, and whatever the iterations preserve holds at the end. *)
Lemma kmp_loop_returns (lps : list jsval) (P : kmp_state -> Prop)
  (fuel : nat) (s : kmp_state) :
  length lps = length pattern -> table_ok lps ->
  (forall s, kmp_inv text pattern s -> P s -> (k_i s <? strlen text) = true ->
             P (kmp_iter text pattern lps s)) ->
  kmp_inv text pattern s -> P s -> (kmp_variant text s <= fuel)%nat ->
  exists s', kmp_loop fuel text pattern lps s = Done s' /\
             kmp_inv text pattern s' /\ P s' /\ k_i s' = strlen text.
Proof.
  intros Hlen Hok HP Hinv Hs Hf. unfold kmp_loop.
  assert (Hbody : forall s1, kmp_inv text pattern s1 /\ P s1 ->
            (k_i s1 <? strlen text) = true ->
            (kmp_inv text pattern (kmp_iter text pattern lps s1) /\
             P (kmp_iter text pattern lps s1)) /\
            (kmp_variant text (kmp_iter text pattern lps s1)
             < kmp_variant text s1)%nat).
  { intros s1 [H1 H2] Hc.
    destruct (kmp_iter_inv text pattern lps Hlen Hok s1 H1 Hc). auto. }
  destruct (while_terminates _ _ _ _ Hbody fuel s (conj Hinv Hs) Hf)
    as (s' & Hs' & [Hinv' HP'] & Hc).
  exists s'. split; [exact Hs'|]. split; [exact Hinv'|]. split; [exact HP'|].
  apply Z.ltb_ge in Hc. destruct Hinv' as [? _]. lia.
Qed.

(** The whole KMP generator on a non-empty pattern. *)
Lemma kmpStringMatching_returns (P : kmp_state -> Prop) (fuel : nat) :
  pattern <> [] ->
  (2 * (length text + length pattern) <= fuel)%nat ->
  (forall lps s, length lps = length pattern -> table_ok lps ->
                 kmp_inv text pattern s -> P s ->
                 (k_i s <? strlen text) = true ->
                 P (kmp_iter text pattern lps s)) ->
  (forall rd, P (kmp_init rd)) ->
  exists t s, computeKMPPrefixTable fuel pattern = Done t /\
              table_inv pattern t /\
              kmp_loop fuel text pattern (t_lps t) (kmp_init (t_reads t)) = Done s /\
              kmpStringMatching fuel text pattern = Done (k_trace s) /\
              kmp_inv text pattern s /\ P s /\ k_i s = strlen text.
Proof.
  intros Hp Hf HP HP0.
  destruct (computeKMPPrefixTable_returns pattern fuel) as (t & Ht & Hinv); [lia|].
  pose proof Hinv as (_ & Hlen & Hok & _ & Hrd).
  destruct (kmp_loop_returns (t_lps t) P fuel (kmp_init (t_reads t)))
    as (s & Hs & Hinv' & HP' & Hi); auto.
  - apply kmp_init_inv; [exact Hp|].
    eapply Forall_impl; [|exact Hrd]. intros a Ha.
    eapply in_bounds_text_mono; [exact Ha | apply strlen_nonneg].
  - unfold kmp_variant, kmp_init, strlen. cbn. lia.
  - exists t, s. unfold kmpStringMatching. rewrite Ht, Hs. auto 10.
Qed.

Lemma computeKMPPrefixTable_empty (fuel : nat) :
  computeKMPPrefixTable fuel [] = Done (table_init []).
Proof. destruct fuel; reflexivity. Qed.

(** On an empty pattern and a non-empty text the scan never returns. *)
Lemma kmp_empty_pattern_diverges (fuel : nat) :
  pattern = [] -> text <> [] -> kmpStringMatching fuel text pattern = OutOfFuel.
Proof.
  intros -> Ht. unfold kmpStringMatching.
  rewrite computeKMPPrefixTable_empty. unfold kmp_loop.
  rewrite (while_diverges _ _
             (fun s => k_i s = 0 /\ (k_j s = JNum 0 \/ k_j s = JUndef)));
    [reflexivity | | cbn; auto].
  intros s [Hi Hj]. pose proof (strlen_pos text Ht) as Hn.
  split; [apply Z.ltb_lt; lia|].
  destruct (get text 0) as [c|] eqn:Hc;
    [|apply get_None_iff in Hc; unfold strlen in *; lia].
  unfold kmp_iter. rewrite Hi, Hc.
  destruct Hj as [-> | ->]; cbn -[get];
    destruct (Z.ltb_spec 0 (strlen text)); try lia; rewrite ?Hc; cbn; auto.
Qed.
End KmpRuns.


(** ** The counters against the generators *)

Section Counters.
Variables (text pattern : str).

Lemma ctable_simulation (fuel : nat) :
  match ctable_loop fuel pattern (ctable_init pattern),
        table_loop fuel pattern (table_init pattern) with
  | Done c, Done t =>
      ct_lps c = t_lps t /\ strlen pattern - 1 <= ct_comparisons c
  | OutOfFuel, OutOfFuel => True
  | _, _ => False
  end.
Proof.
  pose proof (while_simulation
    (fun s => ct_i s <? strlen pattern) (ctable_iter pattern)
    (fun s => t_i s <? strlen pattern) (table_iter pattern)
    (fun c t => ct_lps c = t_lps t /\ ct_len c = t_len t /\ ct_i c = t_i t /\
                ct_i c - 1 <= ct_comparisons c)) as H.
  specialize (H ltac:(
    intros c t (H1 & H2 & H3 & H4); split; [now rewrite H3|]; intros _;
    unfold ctable_iter, table_iter; rewrite H1, H2, H3;
    split_ifs; cbn; repeat split; lia) fuel (ctable_init pattern)
    (table_init pattern) ltac:(cbn; repeat split; lia)).
  unfold ctable_loop, table_loop.
  destruct (while _ (ctable_iter pattern) fuel _) as [c|] eqn:Ec,
           (while _ (table_iter pattern) fuel _) as [t|] eqn:Et; auto.
  destruct H as (H1 & _ & H3 & H4). split; [exact H1|].
  apply while_invariant with (Inv := fun _ => True) in Ec as [_ Hc]; auto.
  apply Z.ltb_ge in Hc. lia.
Qed.

Lemma ckmp_simulation (lps : list jsval) (fuel : nat) (c0 : Z)
  (rd : list access) :
  match ckmp_loop fuel text pattern lps (CKmpState 0 (JNum 0) c0),
        kmp_loop fuel text pattern lps (kmp_init rd) with
  | Done c, Done s => ck_comparisons c = c0 + totalComparisons (k_trace s)
  | OutOfFuel, OutOfFuel => True
  | _, _ => False
  end.
Proof.
  pose proof (while_simulation
    (fun s => ck_i s <? strlen text) (ckmp_iter text pattern lps)
    (fun s => k_i s <? strlen text) (kmp_iter text pattern lps)
    (fun c s => ck_i c = k_i s /\ ck_j c = k_j s /\
                ck_comparisons c = c0 + totalComparisons (k_trace s))) as H.
  specialize (H ltac:(
    intros c s (H1 & H2 & H3); split; [now rewrite H1|]; intros _;
    unfold ckmp_iter, kmp_iter; rewrite H1, H2, H3; cbn zeta;
    split_ifs; cbn in *; repeat split; try lia; congruence) fuel
    (CKmpState 0 (JNum 0) c0) (kmp_init rd) ltac:(cbn; repeat split; lia)).
  unfold ckmp_loop, kmp_loop.
  destruct (while _ (ckmp_iter text pattern lps) fuel _) as [c|],
           (while _ (kmp_iter text pattern lps) fuel _) as [s|]; auto.
  tauto.
Qed.
End Counters.


(** ** Borders *)

Lemma seg_eq_weaken (s t : str) (a b k k' : Z) :
  seg_eq s t a b k -> k' <= k -> seg_eq s t a b k'.
Proof. intros H Hk d Hd. apply H. lia. Qed.

Lemma border_zero (pattern : str) (q : Z) : 1 <= q -> border pattern q 0.
Proof. intros Hq. split; [lia|]. intros d Hd. lia. Qed.

Lemma border_shrink (pattern : str) (q b : Z) :
  border pattern (q + 1) b -> 1 <= b -> border pattern q (b - 1).
Proof.
  intros [Hb H] Hb1. split; [lia|]. intros d Hd.
  replace (q - (b - 1) + d) with (q + 1 - b + d) by lia. apply H. lia.
Qed.

Lemma border_extend (pattern : str) (q b : Z) :
  border pattern q b -> get pattern q = get pattern b ->
  border pattern (q + 1) (b + 1).
Proof.
  intros [Hb H] Heq. split; [lia|]. intros d Hd.
  destruct (Z.eq_dec d b) as [->|Hne].
  - replace (q + 1 - (b + 1) + b) with q by lia. now rewrite Z.add_0_l.
  - replace (q + 1 - (b + 1) + d) with (q - b + d) by lia. apply H. lia.
Qed.

Lemma border_last (pattern : str) (q b : Z) :
  border pattern (q + 1) (b + 1) -> 0 <= b -> get pattern q = get pattern b.
Proof.
  intros [_ H] Hb. specialize (H b ltac:(lia)).
  replace (q + 1 - (b + 1) + b) with q in H by lia. now rewrite Z.add_0_l in H.
Qed.

(** A border of a border is a border. *)
Lemma border_trans (pattern : str) (q l b : Z) :
  border pattern q l -> border pattern l b -> border pattern q b.
Proof.
  intros [Hl H1] [Hb H2]. split; [lia|]. intros d Hd.
  rewrite <- (H2 d Hd).
  replace (q - b + d) with (q - l + (l - b + d)) by lia.
  rewrite (H1 (l - b + d)) by lia. f_equal; lia.
Qed.

(** Of two borders of a prefix the shorter is a border of the longer. *)
Lemma border_of_border (pattern : str) (q l b : Z) :
  border pattern q l -> border pattern q b -> b < l -> border pattern l b.
Proof.
  intros [Hl H1] [Hb H2] Hbl. split; [lia|]. intros d Hd.
  rewrite <- (H2 d Hd).
  replace (q - b + d) with (q - l + (l - b + d)) by lia.
  rewrite (H1 (l - b + d)) by lia. f_equal; lia.
Qed.

(** ** The prefix table is the table of longest borders *)

Lemma lps_get_insert (lps : list jsval) (i : nat) (v : jsval) (k : Z) :
  (i < length lps)%nat ->
  lps_get (<[i := v]> lps) (JNum k) =
  if k =? Z.of_nat i then v else lps_get lps (JNum k).
Proof.
  intros Hi. unfold lps_get, getv, get.
  destruct (Z.eqb_spec k (Z.of_nat i)) as [->|Hne].
  - destruct (Z.leb_spec 0 (Z.of_nat i)); [|lia].
    rewrite Nat2Z.id. now rewrite list_lookup_insert_eq.
  - destruct (Z.leb_spec 0 k); [|reflexivity].
    rewrite list_lookup_insert_ne by lia. reflexivity.
Qed.

Lemma lps_correct_insert (pattern : str) (lps : list jsval) (i b : Z) :
  1 <= i -> (Z.to_nat i < length lps)%nat ->
  lps_correct pattern lps i ->
  longest_border pattern (i + 1) b ->
  lps_correct pattern (<[Z.to_nat i := JNum b]> lps) (i + 1).
Proof.
  intros Hi Hlen H Hb q Hq Hqm.
  rewrite lps_get_insert by exact Hlen. rewrite Z2Nat.id by lia.
  destruct (Z.eqb_spec (q - 1) i) as [E|E].
  - exists b. replace q with (i + 1) by lia. auto.
  - apply H; lia.
Qed.

Section TableCorrect.
Variable pattern : str.

Lemma table_init_correct : table_correct pattern (table_init pattern).
Proof.
exists 0. cbn [table_init t_len t_i t_lps].
split; [reflexivity|]. split; [apply border_zero; lia|].
split; [intros b' [Hb _]; lia|]. split; [|lia].
intros q Hq Hqm. replace q with 1 by lia. exists 0.
split.
- destruct pattern as [|c p]; [rewrite strlen_nil in Hqm; lia|]. reflexivity.
- split; [apply border_zero; lia|]. intros b' [Hb' _]. lia.
Qed.
End TableCorrect.


Section TableCorrectIter.
Variable pattern : str.

Lemma table_iter_correct (s : table_state) :
table_inv pattern s -> table_correct pattern s ->
(t_i s <? strlen pattern) = true ->
table_correct pattern (table_iter pattern s).
Proof.
intros (Hi & Hlen & _ & _ & _) (l & Hl & Hb & Hnext & Hlps & _) Hc.
apply Z.ltb_lt in Hc.
assert (Hl0 : 0 <= l < t_i s) by (destruct Hb; assumption).
assert (Hin : (Z.to_nat (t_i s) < length (t_lps s))%nat)
  by (rewrite Hlen; unfold strlen in Hc; lia).
unfold table_iter, table_correct. rewrite Hl. cbn [getv jincr jsub jsval_eqb].
destruct (sym_eqb (get pattern (t_i s)) (get pattern l)) eqn:Heq.
- (* the symbols agree: the border grows *)
  apply sym_eqb_true in Heq. cbn [t_len t_i t_lps].
  exists (l + 1). split; [reflexivity|].
  assert (Hb' : border pattern (t_i s + 1) (l + 1)) by now apply border_extend.
  split; [exact Hb'|]. split; [|split].
  + intros b' Hb''. destruct (Z.le_gt_cases b' 0) as [?|Hpos]; [lia|].
    apply border_shrink in Hb''; [|lia]. apply Hnext in Hb''. lia.
  + apply lps_correct_insert; auto. split; [exact Hb' | exact Hnext].
  + lia.
- apply sym_eqb_false in Heq.
  destruct (Z.eqb_spec l 0) as [->|Hne]; cbn [negb t_len t_i t_lps].
  + (* no border can be extended: the cell is 0 *)
    assert (Hmax : forall b', border pattern (t_i s + 1) b' -> b' <= 0).
    { intros b' Hb'. pose proof (Hnext b' Hb') as Hle.
      destruct (Z.eq_dec b' 1) as [->|?]; [|lia].
      apply (border_last pattern (t_i s) 0) in Hb'; [contradiction | lia]. }
    exists 0. split; [reflexivity|].
    split; [apply border_zero; lia|]. split; [|split].
    * intros b' Hb'. destruct (Z.le_gt_cases b' 0) as [?|Hpos]; [lia|].
      apply border_shrink in Hb'; [|lia]. apply Hmax in Hb'. lia.
    * apply lps_correct_insert; auto. split; [apply border_zero; lia | exact Hmax].
    * lia.
  + (* fall back to the longest border of the current border *)
    destruct (Hlps l) as (b0 & Hb0 & Hbb0 & Hmax0); [lia | lia |].
    rewrite Hb0. exists b0. split; [reflexivity|].
    split; [eapply border_trans; eassumption|]. split; [|split].
    * intros b' Hb'. destruct (Z.le_gt_cases b' 0) as [?|Hpos].
      { destruct Hbb0. lia. }
      pose proof (Hnext b' Hb') as Hle.
      destruct (Z.eq_dec b' (l + 1)) as [->|?].
      { apply border_last in Hb'; [contradiction | lia]. }
      apply border_shrink in Hb'; [|lia].
      assert (border pattern l (b' - 1))
        by (eapply border_of_border; [exact Hb | exact Hb' | lia]).
      specialize (Hmax0 (b' - 1) ltac:(assumption)). lia.
    * exact Hlps.
    * lia.
Qed.

(** The table loop returns the table of longest borders. *)
Lemma computeKMPPrefixTable_correct (fuel : nat) :
(2 * length pattern <= fuel)%nat ->
exists t, computeKMPPrefixTable fuel pattern = Done t /\
          table_inv pattern t /\
          lps_correct pattern (t_lps t) (strlen pattern).
Proof.
intros Hf. unfold computeKMPPrefixTable, table_loop.
assert (Hbody : forall s, table_inv pattern s /\ table_correct pattern s ->
          (t_i s <? strlen pattern) = true ->
          (table_inv pattern (table_iter pattern s) /\
           table_correct pattern (table_iter pattern s)) /\
          (table_variant pattern (table_iter pattern s)
           < table_variant pattern s)%nat).
{ intros s [H1 H2] Hc.
  destruct (table_iter_inv pattern s H1 Hc).
  pose proof (table_iter_correct s H1 H2 Hc). auto. }
destruct (while_terminates _ _ _ _ Hbody fuel (table_init pattern)
            (conj (table_init_inv pattern) (table_init_correct pattern)))
  as (t & Ht & [Hinv Hcor] & Hc).
{ unfold table_variant, table_init, strlen. cbn. lia. }
exists t. split; [exact Ht|]. split; [exact Hinv|].
destruct Hcor as (l & _ & _ & _ & Hlps & Hi). apply Z.ltb_ge in Hc.
intros q Hq Hqm. apply Hlps; lia.
Qed.
End TableCorrectIter.

(** The prefix table of the concrete scenario of the specification. *)
Lemma prefix_table_ABABCABAB :
  exists t, computeKMPPrefixTable 18 (codes "ABABCABAB") = Done t /\
            t_lps t = map JNum [0; 0; 1; 2; 0; 1; 2; 3; 4].
Proof. eexists. split; [vm_compute; reflexivity | reflexivity]. Qed.


(** ** The KMP scan finds the occurrences *)

Lemma occurs_iff (text pattern : str) (s : Z) :
  occurs text pattern s = true <-> seg_eq text pattern s 0 (strlen pattern).
Proof.
  unfold occurs, seg_eq. rewrite forallb_forall. split.
  - intros H d Hd. apply sym_eqb_true. apply H.
    apply list_elem_of_In, elem_of_seqZ. lia.
  - intros H d Hd. apply list_elem_of_In, elem_of_seqZ in Hd.
    apply sym_eqb_true. apply (H d). lia.
Qed.

Lemma occurs_mismatch (text pattern : str) (s d : Z) :
  0 <= d < strlen pattern -> get text (s + d) <> get pattern d ->
  occurs text pattern s = false.
Proof.
  intros Hd Hne. destruct (occurs text pattern s) eqn:E; [|reflexivity].
  apply occurs_iff in E. now specialize (E d Hd).
Qed.

(** An occurrence lies inside the text. *)
Lemma occurs_bound (text pattern : str) (s : Z) :
  pattern <> [] -> occurs text pattern s = true ->
  0 <= s <= strlen text - strlen pattern.
Proof.
  intros Hp H. apply occurs_iff in H. pose proof (strlen_pos pattern Hp) as Hm.
  assert (H0 : is_Some (get text (s + 0))).
  { rewrite (H 0) by lia. apply get_Some_iff. unfold strlen in Hm. lia. }
  assert (H1 : is_Some (get text (s + (strlen pattern - 1)))).
  { rewrite (H (strlen pattern - 1)) by lia. apply get_Some_iff.
    unfold strlen in *. lia. }
  apply get_Some_iff in H0, H1. unfold strlen in *. lia.
Qed.

Lemma filter_seqZ_none (f : Z -> bool) (lo len : Z) :
  (forall s, lo <= s < lo + len -> f s = false) ->
  List.filter f (seqZ lo len) = [].
Proof.
  intros H.
  destruct (List.filter f (seqZ lo len)) as [|x l] eqn:E; [reflexivity|].
  assert (Hin : In x (List.filter f (seqZ lo len))) by (rewrite E; now left).
  apply filter_In in Hin as [Hin Hfx].
  apply list_elem_of_In, elem_of_seqZ in Hin. rewrite H in Hfx by lia. discriminate.
Qed.

Lemma filter_seqZ_skip (f : Z -> bool) (a a' : Z) :
  0 <= a <= a' -> (forall s, a <= s < a' -> f s = false) ->
  List.filter f (seqZ 0 a') = List.filter f (seqZ 0 a).
Proof.
  intros Ha H. replace a' with (a + (a' - a)) by lia.
  rewrite seqZ_app by lia. rewrite List.filter_app.
  rewrite (filter_seqZ_none f (0 + a)); [apply app_nil_r|].
  intros s Hs. apply H. lia.
Qed.

Lemma filter_seqZ_hit (f : Z -> bool) (a a' : Z) :
  0 <= a < a' -> f a = true -> (forall s, a < s < a' -> f s = false) ->
  List.filter f (seqZ 0 a') = List.filter f (seqZ 0 a) ++ [a].
Proof.
  intros Ha Hfa H. replace a' with (a + (1 + (a' - a - 1))) by lia.
  rewrite seqZ_app by lia. rewrite List.filter_app. f_equal.
  rewrite Z.add_0_l, seqZ_app by lia. rewrite List.filter_app.
  rewrite (seqZ_cons a 1), (seqZ_nil _ (Z.pred 1)) by lia.
  cbn [List.filter]. rewrite Hfa.
  rewrite (filter_seqZ_none f (a + 1)); [reflexivity|].
  intros s Hs. apply H. lia.
Qed.

(** Falling back to the longest border of the matched prefix keeps the
    alignment and skips no occurrence. *)
Lemma kmp_shift (text pattern : str) (i k b : Z) :
  1 <= k <= strlen pattern ->
  seg_eq text pattern (i - k) 0 k ->
  longest_border pattern k b ->
  seg_eq text pattern (i - b) 0 b /\
  forall s, i - k < s < i - b -> occurs text pattern s = false.
Proof.
  intros Hk Hseg [[Hb Hbor] Hmax]. split.
  - intros d Hd. rewrite <- (Hbor d Hd).
    replace (i - b + d) with (i - k + (k - b + d)) by lia.
    rewrite (Hseg (k - b + d)) by lia. f_equal; lia.
  - intros s Hs. destruct (occurs text pattern s) eqn:E; [|reflexivity].
    apply occurs_iff in E.
    assert (Hbor' : border pattern k (i - s)).
    { split; [lia|]. intros d Hd.
      rewrite <- (E d) by lia.
      replace (s + d) with (i - k + (k - (i - s) + d)) by lia.
      rewrite (Hseg (k - (i - s) + d)) by lia. f_equal; lia. }
    apply Hmax in Hbor'. lia.
Qed.


Section KmpCorrect.
Variables (text pattern : str) (lps : list jsval).
Hypothesis lps_is_correct : lps_correct pattern lps (strlen pattern).

Lemma kmp_iter_correct (s : kmp_state) :
kmp_inv text pattern s -> kmp_correct text pattern s ->
(k_i s <? strlen text) = true ->
kmp_correct text pattern (kmp_iter text pattern lps s).
Proof.
intros (Hi & (k & Hj & Hk & Hki) & _) (k' & Hj' & Hseg & Hm) Hc.
rewrite Hj in Hj'. injection Hj' as <-. apply Z.ltb_lt in Hc.
unfold kmp_iter, kmp_correct. rewrite Hj. cbn zeta.
destruct (sym_eqb (get text (k_i s)) (getv pattern (JNum k))) eqn:Heq;
  cbn [jincr jsval_eqb jsub getv].
- (* the symbols agree: the matched prefix grows *)
  apply sym_eqb_true in Heq. cbn [getv] in Heq.
  assert (Hseg' : seg_eq text pattern (k_i s + 1 - (k + 1)) 0 (k + 1)).
  { intros d Hd. replace (k_i s + 1 - (k + 1) + d) with (k_i s - k + d) by lia.
    destruct (Z.eq_dec d k) as [->|];
      [replace (k_i s - k + k) with (k_i s) by lia; exact Heq | apply Hseg; lia]. }
  destruct (lps_is_correct (k + 1)) as (b0 & Hb0 & Hlb); [lia | lia |].
  destruct (kmp_shift text pattern (k_i s + 1) (k + 1) b0) as [Hs1 Hs2];
    [lia | exact Hseg' | exact Hlb |].
  assert (Hb0r : 0 <= b0 < k + 1) by (destruct Hlb as [[? _] _]; assumption).
  destruct (Z.eqb_spec (k + 1) (strlen pattern)) as [Hfull|Hnot].
  + (* the pattern is complete: report, then fall back *)
    rewrite Hb0. cbn [k_i k_j k_trace foundMatches].
    exists b0. split; [reflexivity|]. split; [exact Hs1|].
    rewrite Hm, (filter_seqZ_hit _ (k_i s - k) (k_i s + 1 - b0)).
    * rewrite map_app. cbn [map]. do 3 f_equal. lia.
    * lia.
    * apply occurs_iff. rewrite <- Hfull.
      replace (k_i s - k) with (k_i s + 1 - (k + 1)) by lia. exact Hseg'.
    * intros s' Hs'. apply Hs2. lia.
  + destruct (Z.ltb_spec (k_i s + 1) (strlen text)) as [Hlt|Hge].
    * destruct (sym_eqb (get text (k_i s + 1)) (get pattern (k + 1))) eqn:Heq';
        cbn [negb].
      -- cbn [k_i k_j k_trace foundMatches]. exists (k + 1).
         split; [reflexivity|]. split; [exact Hseg'|].
         rewrite Hm. do 3 f_equal. lia.
      -- (* the next pair differs: fall back at once *)
         apply sym_eqb_false in Heq'.
         destruct (Z.eqb_spec (k + 1) 0); [lia|]. cbn [negb].
         rewrite Hb0. cbn [k_i k_j k_trace foundMatches].
         exists b0. split; [reflexivity|]. split; [exact Hs1|].
         rewrite Hm. f_equal. symmetry. apply filter_seqZ_skip; [lia|].
         intros s' Hs'. destruct (Z.eq_dec s' (k_i s - k)) as [->|].
         ++ apply (occurs_mismatch text pattern _ (k + 1)); [lia|].
            now replace (k_i s - k + (k + 1)) with (k_i s + 1) by lia.
         ++ apply Hs2. lia.
    * cbn [k_i k_j k_trace foundMatches]. exists (k + 1).
      split; [reflexivity|]. split; [exact Hseg'|].
      rewrite Hm. do 3 f_equal. lia.
- (* the symbols differ *)
  apply sym_eqb_false in Heq. cbn [getv] in Heq.
  destruct (Z.eqb_spec k (strlen pattern)); [lia|].
  destruct (Z.ltb_spec (k_i s) (strlen text)); [|lia].
  destruct (sym_eqb (get text (k_i s)) (get pattern k)) eqn:Heq';
    [apply sym_eqb_true in Heq'; contradiction|]. cbn [negb].
  assert (Hno : occurs text pattern (k_i s - k) = false).
  { apply (occurs_mismatch text pattern _ k); [lia|].
    now replace (k_i s - k + k) with (k_i s) by lia. }
  destruct (Z.eqb_spec k 0) as [->|Hk0]; cbn [negb].
  + cbn [k_i k_j k_trace foundMatches]. exists 0.
    split; [reflexivity|]. split; [intros d Hd; lia|].
    rewrite Hm. f_equal. symmetry. apply filter_seqZ_skip; [lia|].
    intros s' Hs'. replace s' with (k_i s - 0) by lia. exact Hno.
  + destruct (lps_is_correct k) as (b0 & Hb0 & Hlb); [lia | lia |].
    destruct (kmp_shift text pattern (k_i s) k b0) as [Hs1 Hs2];
      [lia | exact Hseg | exact Hlb |].
    assert (Hb0r : 0 <= b0 < k) by (destruct Hlb as [[? _] _]; assumption).
    rewrite Hb0. cbn [k_i k_j k_trace foundMatches].
    exists b0. split; [reflexivity|]. split; [exact Hs1|].
    rewrite Hm. f_equal. symmetry. apply filter_seqZ_skip; [lia|].
    intros s' Hs'. destruct (Z.eq_dec s' (k_i s - k)) as [->|];
      [exact Hno | apply Hs2; lia].
Qed.
End KmpCorrect.

(** On a non-empty pattern the KMP generator returns the occurrences of
    the pattern, in ascending order. *)
Lemma kmp_finds_occurrences (text pattern : str) (fuel : nat) :
  pattern <> [] ->
  (2 * (length text + length pattern) <= fuel)%nat ->
  exists tr, kmpStringMatching fuel text pattern = Done tr /\
             foundMatches tr = map JNum (occurrences text pattern).
Proof.
  intros Hp Hf.
  destruct (computeKMPPrefixTable_correct pattern fuel) as (t & Ht & Hinv & Hlps);
    [lia|].
  pose proof Hinv as (_ & Hlen & Hok & _ & Hrd).
  destruct (kmp_loop_returns text pattern (t_lps t) (kmp_correct text pattern)
              fuel (kmp_init (t_reads t)))
    as (s & Hs & Hinv' & (k & Hj & _ & Hm) & Hi); auto.
  - intros s H1 H2 Hc. now apply kmp_iter_correct.
  - apply kmp_init_inv; [exact Hp|].
    eapply Forall_impl; [|exact Hrd]. intros a Ha.
    eapply in_bounds_text_mono; [exact Ha | apply strlen_nonneg].
  - exists 0. cbn. split; [reflexivity|]. split; [intros d Hd; lia | reflexivity].
  - unfold kmp_variant, kmp_init, strlen. cbn. lia.
  - exists (k_trace s). unfold kmpStringMatching. rewrite Ht, Hs.
    split; [reflexivity|]. rewrite Hm, Hi. f_equal. unfold occurrences.
    destruct Hinv' as (_ & (k' & Hj' & Hk' & _) & _).
    rewrite Hj in Hj'. injection Hj' as <-.
    pose proof (strlen_nonneg text).
    destruct (Z.le_gt_cases 0 (strlen text - strlen pattern + 1)) as [Hpos|Hneg].
    + apply filter_seqZ_skip; [lia|]. intros s' Hs'.
      destruct (occurs text pattern s') eqn:E; [|reflexivity].
      apply occurs_bound in E; [lia | exact Hp].
    + rewrite (seqZ_nil 0 (strlen text - strlen pattern + 1)) by lia.
      apply filter_seqZ_none. intros s' Hs'.
      destruct (occurs text pattern s') eqn:E; [|reflexivity].
      apply occurs_bound in E; [lia | exact Hp].
Qed.


(** ** The iterations of a loop that returned *)

Section WhileRun.
Context {St : Type} (cond : St -> bool) (body : St -> St).

(** A loop that returned from a state of an invariant ran its body [t]
  times; before each of them the invariant and the guard held, and the
  guard fails at the end. *)
Lemma while_run (Inv : St -> Prop) (fuel : nat) (s s' : St) :
(forall s, Inv s -> cond s = true -> Inv (body s)) ->
Inv s -> while cond body fuel s = Done s' ->
exists t, s' = Nat.iter t body s /\ cond s' = false /\
          forall u, (u < t)%nat ->
            Inv (Nat.iter u body s) /\ cond (Nat.iter u body s) = true.
Proof.
intros Hbody. revert s. induction fuel as [|fuel IH]; intros s Hs; cbn [while];
  destruct (cond s) eqn:Hc; try discriminate.
- intros [= <-]. exists 0%nat. split; [reflexivity|]. split; [exact Hc|].
  intros u Hu. lia.
- intros H. apply IH in H as (t & -> & Hend & Hrun); [|now apply Hbody].
  exists (S t). split; [cbn [Nat.iter]; apply Nat.iter_swap|].
  split; [exact Hend|]. intros [|u] Hu; [cbn; auto|].
  rewrite Nat.iter_succ, <- Nat.iter_swap. apply Hrun. lia.
- intros [= <-]. exists 0%nat. split; [reflexivity|]. split; [exact Hc|].
  intros u Hu. lia.
Qed.
End WhileRun.

(** ** Which iterations of the KMP scan push a step *)

Section KmpPushes.
Variables (text pattern : str) (lps : list jsval).


End KmpPushes.

(** The run of the KMP generator on a non-empty pattern: the table, the
    number [t] of iterations of the scan, and what held before each. *)
Lemma kmp_run (text pattern : str) (fuel : nat) :
  pattern <> [] ->
  (2 * (length text + length pattern) <= fuel)%nat ->
  exists tb t,
    computeKMPPrefixTable fuel pattern = Done tb /\
    kmpStringMatching fuel text pattern =
      Done (k_trace (kmp_after text pattern (t_lps tb) (t_reads tb) t)) /\
    k_i (kmp_after text pattern (t_lps tb) (t_reads tb) t) = strlen text /\
    forall u, (u < t)%nat ->
      kmp_inv text pattern (kmp_after text pattern (t_lps tb) (t_reads tb) u) /\
      (k_i (kmp_after text pattern (t_lps tb) (t_reads tb) u) <? strlen text)
        = true.
Proof.
  intros Hp Hf.
  destruct (kmpStringMatching_returns text pattern (fun _ => True) fuel Hp Hf)
    as (tb & s & Ht & Htinv & Hloop & Hs & _ & _ & Hi); auto.
  pose proof Htinv as (_ & Hlen & Hok & _ & Hrd).
  assert (Hinit : kmp_inv text pattern (kmp_init (t_reads tb))).
  { apply kmp_init_inv; [exact Hp|].
    eapply Forall_impl; [|exact Hrd]. intros a Ha.
    eapply in_bounds_text_mono; [exact Ha | apply strlen_nonneg]. }
  unfold kmp_loop in Hloop.
  apply (while_run _ _ (kmp_inv text pattern)) in Hloop
    as (t & Est & _ & Hrun); [|intros s1 H1 Hc|exact Hinit].
  - exists tb, t. split; [exact Ht|]. unfold kmp_after.
    rewrite <- Est. auto.
  - now destruct (kmp_iter_inv text pattern (t_lps tb) Hlen Hok s1 H1 Hc).
Qed.


(** ** The hash code in exact integer arithmetic *)

Lemma code_at_range (s : str) (i : Z) :
  wf_str s -> 0 <= code_at s i < 65536.
Proof.
  intros Hwf. unfold code_at.
  destruct (get s i) as [c|] eqn:E; unfold default; simpl; [|lia].
  unfold get in E. destruct (0 <=? i); [|discriminate].
  unfold wf_str in Hwf. rewrite Forall_forall in Hwf.
  apply Hwf. apply list_elem_of_In. eapply list_elem_of_lookup_2. exact E.
Qed.

Lemma polyZ_S (s : str) (a : Z) (k : nat) :
  polyZ s a (S k) = polyZ s a k * 256 + code_at s (a + Z.of_nat k).
Proof. unfold polyZ. now rewrite seqZ_S, fold_left_app. Qed.

Lemma polyZ_nonneg (s : str) (a : Z) (k : nat) : wf_str s -> 0 <= polyZ s a k.
Proof.
  intros Hwf. induction k as [|k IH]; [reflexivity|].
  rewrite polyZ_S. pose proof (code_at_range s (a + Z.of_nat k) Hwf). lia.
Qed.

(** Dropping the leading symbol. *)
Lemma polyZ_front (s : str) (a : Z) (k : nat) :
  polyZ s a (S k) = code_at s a * 256 ^ Z.of_nat k + polyZ s (a + 1) k.
Proof.
  induction k as [|k IH].
  - rewrite polyZ_S. change (polyZ s a 0) with 0. change (polyZ s (a + 1) 0) with 0.
    rewrite Z.add_0_r. change (256 ^ Z.of_nat 0) with 1. lia.
  - rewrite polyZ_S, IH, polyZ_S.
    replace (a + 1 + Z.of_nat k) with (a + Z.of_nat (S k)) by lia.
    replace (Z.of_nat (S k)) with (Z.succ (Z.of_nat k)) at 2 by lia.
    rewrite Z.pow_succ_r by lia. ring.
Qed.

(** Sliding the window by one symbol. *)
Lemma polyZ_slide (s : str) (a : Z) (k : nat) :
  polyZ s (a + 1) (S k) =
  (polyZ s a (S k) - code_at s a * 256 ^ Z.of_nat k) * 256
  + code_at s (a + 1 + Z.of_nat k).
Proof. rewrite polyZ_S, polyZ_front. ring. Qed.

Lemma rem_mod_nonneg (a : Z) : 0 <= a -> Z.rem a 101 = a mod 101.
Proof. intros H. apply Z.rem_mod_nonneg; lia. Qed.

(** [calculateHash] is the window polynomial modulo 101. *)
Lemma calculateHashZ_poly (s : str) (a : Z) (k : nat) :
  wf_str s -> calculateHashZ s a (a + Z.of_nat k) = polyZ s a k mod 101.
Proof.
  intros Hwf. unfold calculateHashZ.
  replace (a + Z.of_nat k - a) with (Z.of_nat k) by lia.
  induction k as [|k IH]; [reflexivity|].
  rewrite seqZ_S, fold_left_app. cbn [fold_left]. rewrite IH, polyZ_S.
  fold (code_at s (a + Z.of_nat k)).
  pose proof (code_at_range s (a + Z.of_nat k) Hwf).
  pose proof (Z.mod_pos_bound (polyZ s a k) 101).
  rewrite rem_mod_nonneg by lia.
  rewrite Z.add_mod, Z.mul_mod_idemp_l, <- Z.add_mod by lia. reflexivity.
Qed.

(** One rolling update takes the hash of a window to the hash of the next
    one. *)
Lemma rollZ_slide (text : str) (a : Z) (k : nat) :
  wf_str text ->
  rollZ text (Z.of_nat (S k)) (polyZ text a (S k) mod 101) a =
  polyZ text (a + 1) (S k) mod 101.
Proof.
  intros Hwf. unfold rollZ. fold (code_at text a).
  fold (code_at text (a + Z.of_nat (S k))).
  replace (Z.of_nat (S k) - 1) with (Z.of_nat k) by lia.
  pose proof (code_at_range text a Hwf) as Hc.
  pose proof (code_at_range text (a + Z.of_nat (S k)) Hwf) as Hc'.
  assert (Hpow : 0 < 256 ^ Z.of_nat k) by (apply Z.pow_pos_nonneg; lia).
  set (P := polyZ text a (S k)). set (C := code_at text a * 256 ^ Z.of_nat k).
  assert (HC : 0 <= C) by (unfold C; nia).
  rewrite (rem_mod_nonneg C) by exact HC.
  pose proof (Z.mod_pos_bound P 101). pose proof (Z.mod_pos_bound C 101).
  rewrite rem_mod_nonneg by lia.
  rewrite polyZ_slide. fold P C.
  replace (a + 1 + Z.of_nat k) with (a + Z.of_nat (S k)) by lia.
  rewrite (Z.mod_eq P 101), (Z.mod_eq C 101) by lia.
  replace ((P - 101 * (P / 101) - (C - 101 * (C / 101)) + 101) * 256
           + code_at text (a + Z.of_nat (S k)))
    with ((P - C) * 256 + code_at text (a + Z.of_nat (S k))
          + (256 * (C / 101 - P / 101 + 1)) * 101) by ring.
  apply Z_mod_plus_full.
Qed.

Lemma rolledZ_poly (text : str) (m k : nat) :
  wf_str text -> (1 <= m)%nat ->
  rolledZ text (Z.of_nat m) k = polyZ text (Z.of_nat k) m mod 101.
Proof.
  intros Hwf Hm. destruct m as [|m]; [lia|].
  induction k as [|k IH]; cbn [rolledZ].
  - replace (Z.of_nat (S m)) with (0 + Z.of_nat (S m)) at 1 by lia.
    now apply calculateHashZ_poly.
  - rewrite IH, rollZ_slide by exact Hwf. f_equal. f_equal. lia.
Qed.



(** ** The doubles of the hash code are exact on short patterns *)

Lemma nadd_NaN_r (x : num) : nadd x NaN = NaN.
Proof. destruct x; reflexivity. Qed.

Lemma two_1024_pos : 0 < 2 ^ 1024.
Proof. apply Z.pow_pos_nonneg; lia. Qed.

Lemma norm_inject_Z (z : Z) :
  - 2 ^ 1024 < z < 2 ^ 1024 -> norm (inject_Z z) = of_Z z.
Proof.
  intros Hz. unfold norm, of_Z, two_1024. rewrite inject_Z_Qred.
  destruct (Qle_bool (inject_Z (2 ^ 1024)) (inject_Z z)) eqn:E1.
  { apply Qle_bool_iff in E1. rewrite <- Zle_Qle in E1. lia. }
  rewrite <- inject_Z_opp.
  destruct (Qle_bool (inject_Z z) (inject_Z (- 2 ^ 1024))) eqn:E2.
  { apply Qle_bool_iff in E2. rewrite <- Zle_Qle in E2. lia. }
  reflexivity.
Qed.

Lemma nmul_of_Z (a b : Z) :
  - 2 ^ 1024 < a * b < 2 ^ 1024 -> nmul (of_Z a) (of_Z b) = of_Z (a * b).
Proof.
  intros H. unfold nmul, of_Z at 1 2. rewrite <- inject_Z_mult.
  now apply norm_inject_Z.
Qed.

Lemma nadd_of_Z (a b : Z) :
  - 2 ^ 1024 < a + b < 2 ^ 1024 -> nadd (of_Z a) (of_Z b) = of_Z (a + b).
Proof.
  intros H. unfold nadd, of_Z at 1 2. rewrite <- inject_Z_plus.
  now apply norm_inject_Z.
Qed.

Lemma nsub_of_Z (a b : Z) :
  - 2 ^ 1024 < a - b < 2 ^ 1024 -> nsub (of_Z a) (of_Z b) = of_Z (a - b).
Proof.
  intros H. unfold nsub, nopp, of_Z at 2.
  rewrite <- inject_Z_opp, inject_Z_Qred. fold (of_Z (- b)).
  rewrite nadd_of_Z by lia. f_equal.
Qed.

Lemma nrem_prime (a : Z) : nrem (of_Z a) prime = of_Z (Z.rem a 101).
Proof.
  unfold nrem, prime, of_Z.
  change (Qeq_bool (inject_Z 101) 0) with false. cbv iota.
  assert (E : Qtrunc (inject_Z a / inject_Z 101) = Z.quot a 101).
  { unfold Qtrunc, Qdiv, Qinv, Qmult, inject_Z. cbn [Qnum Qden].
    now rewrite Z.mul_1_r. }
  rewrite E. unfold Qminus.
  rewrite <- inject_Z_mult, <- inject_Z_opp, <- inject_Z_plus, inject_Z_Qred.
  do 2 f_equal. rewrite Z.rem_eq by lia. lia.
Qed.

Lemma norm_proper (p q : Q) : p == q -> norm p = norm q.
Proof. intros H. unfold norm. now rewrite (Qred_complete p q H). Qed.

Lemma Math_pow_256_exact (k : Z) :
  0 <= k <= 127 -> Math_pow_256 k = of_Z (256 ^ k).
Proof.
  intros Hk. unfold Math_pow_256.
  rewrite <- (norm_proper _ _ (Zpower_Qpower 256 k (proj1 Hk))).
  apply norm_inject_Z.
  assert (0 < 256 ^ k) by (apply Z.pow_pos_nonneg; lia).
  assert (256 ^ k <= 256 ^ 127) by (apply Z.pow_le_mono_r; lia).
  assert (256 ^ 127 < 2 ^ 1024) by (vm_compute; reflexivity).
  lia.
Qed.

Lemma charCodeAt_in_range (s : str) (i : Z) :
  0 <= i < strlen s -> charCodeAt s i = of_Z (code_at s i).
Proof.
  intros Hi. unfold charCodeAt, code_at.
  destruct (proj2 (get_Some_iff s i) Hi) as [c ->]. reflexivity.
Qed.

Lemma calculateHashZ_range (s : str) (a : Z) (k : nat) :
  wf_str s -> 0 <= calculateHashZ s a (a + Z.of_nat k) < 101.
Proof.
  intros Hwf. rewrite calculateHashZ_poly by exact Hwf.
  apply Z.mod_pos_bound. lia.
Qed.

Lemma small_in_range (z : Z) :
  0 <= z < 2 ^ 32 -> - 2 ^ 1024 < z < 2 ^ 1024.
Proof.
  intros H. assert (2 ^ 32 < 2 ^ 1024) by (vm_compute; reflexivity). lia.
Qed.

(** Inside the string [calculateHash] computes what the integer reading
    computes. *)
Lemma calculateHash_exact (s : str) (a : Z) (k : nat) :
  wf_str s -> 0 <= a -> a + Z.of_nat k <= strlen s ->
  calculateHash s a (a + Z.of_nat k) = of_Z (calculateHashZ s a (a + Z.of_nat k)).
Proof.
  intros Hwf Ha. induction k as [|k IH]; intros Hk.
  - unfold calculateHash, calculateHashZ. now rewrite seqZ_nil by lia.
  - pose proof (calculateHashZ_range s a k Hwf) as Hr.
    specialize (IH ltac:(lia)). revert IH Hr.
    unfold calculateHash, calculateHashZ.
    replace (a + Z.of_nat (S k) - a) with (Z.of_nat (S k)) by lia.
    replace (a + Z.of_nat k - a) with (Z.of_nat k) by lia.
    rewrite seqZ_S, !fold_left_app. cbn [fold_left]. intros -> Hr.
    fold (code_at s (a + Z.of_nat k)).
    pose proof (code_at_range s (a + Z.of_nat k) Hwf).
    rewrite charCodeAt_in_range by lia.
    rewrite nmul_of_Z by (apply small_in_range; lia).
    rewrite nadd_of_Z by (apply small_in_range; lia).
    apply nrem_prime.
Qed.

(** With both symbols inside the text and a pattern of at most 127
    symbols, the rolling update computes what the integer reading
    computes. *)
Lemma roll_exact (text : str) (m h i : Z) :
  wf_str text -> 1 <= m <= 127 -> 0 <= h < 101 ->
  0 <= i -> i + m < strlen text ->
  roll text m (of_Z h) i = of_Z (rollZ text m h i).
Proof.
  intros Hwf Hm Hh Hi Him. unfold roll, rollZ.
  fold (code_at text i). fold (code_at text (i + m)).
  pose proof (code_at_range text i Hwf) as Hc.
  pose proof (code_at_range text (i + m) Hwf) as Hc'.
  rewrite !charCodeAt_in_range by lia.
  rewrite Math_pow_256_exact by lia.
  assert (Hpow : 0 < 256 ^ (m - 1) <= 256 ^ 126).
  { split; [apply Z.pow_pos_nonneg; lia | apply Z.pow_le_mono_r; lia]. }
  assert (H126 : 65536 * 256 ^ 126 = 2 ^ 1024) by (vm_compute; reflexivity).
  pose proof two_1024_pos.
  rewrite nmul_of_Z by nia.
  rewrite nrem_prime.
  assert (Hx : 0 <= Z.rem (code_at text i * 256 ^ (m - 1)) 101 < 101).
  { rewrite rem_mod_nonneg by nia. apply Z.mod_pos_bound. lia. }
  rewrite nsub_of_Z by (assert (2 ^ 32 < 2 ^ 1024) by (vm_compute; reflexivity); lia).
  unfold prime at 1. rewrite nadd_of_Z by (apply small_in_range; lia).
  rewrite nmul_of_Z by (apply small_in_range; lia).
  rewrite nadd_of_Z by (apply small_in_range; lia).
  apply nrem_prime.
Qed.

(** While the window stays inside the text, the double that the window
    loop holds is the integer of the exact reading. *)
Lemma rolled_exact (text : str) (m : Z) (k : nat) :
  wf_str text -> 1 <= m <= 127 -> Z.of_nat k + m <= strlen text ->
  rolled text m k = of_Z (rolledZ text m k).
Proof.
  intros Hwf Hm. induction k as [|k IH]; intros Hk; cbn [rolled rolledZ].
  - replace m with (0 + Z.of_nat (Z.to_nat m)) by lia.
    apply calculateHash_exact; [exact Hwf | lia | lia].
  - rewrite IH by lia. apply roll_exact; try assumption; try lia.
    replace m with (Z.of_nat (Z.to_nat m)) by lia.
    rewrite rolledZ_poly by (exact Hwf || lia). apply Z.mod_pos_bound. lia.
Qed.

(** X16. Where the rolling hash is right.  In exact integer arithmetic with
    base 256 and modulus 101, for a pattern of length between 1 and the
    length of the text and every window offset [i] between 0 and
    [|text| - |pattern|], applying the rolling update [i] times to the hash
    of the first window gives the hash of the window at [i] computed
    directly.  While the pattern has at most 127 symbols the doubles of the
    program are these integers, and the same holds of what the program
    computes. *)
Theorem hash_roll_equivalence (text pattern : str) (i : Z) :
  wf_str text ->
  1 <= strlen pattern <= strlen text ->
  0 <= i <= strlen text - strlen pattern ->
  rolledZ text (strlen pattern) (Z.to_nat i) =
    calculateHashZ text i (i + strlen pattern) /\
  (strlen pattern <= 127 ->
   rolled text (strlen pattern) (Z.to_nat i) =
     calculateHash text i (i + strlen pattern) /\
   rolled text (strlen pattern) (Z.to_nat i) =
     of_Z (rolledZ text (strlen pattern) (Z.to_nat i))).
Proof.
  intros Hwf Hm Hi.
  assert (E : rolledZ text (strlen pattern) (Z.to_nat i) =
              calculateHashZ text i (i + strlen pattern)).
  { unfold strlen in *.
    rewrite rolledZ_poly by (exact Hwf || lia).
    rewrite calculateHashZ_poly by exact Hwf. f_equal. f_equal. lia. }
  split; [exact E|]. intros Hshort.
  rewrite rolled_exact by (try assumption; lia).
  split; [|reflexivity]. rewrite E. symmetry. unfold strlen in *.
  apply calculateHash_exact; [exact Hwf | lia | unfold strlen; lia].
Qed.

Lemma hash_roll_equivalence_witness :
  rolledZ (codes "ABABDABACD") 3 7 = calculateHashZ (codes "ABABDABACD") 7 10 /\
  rolled (codes "ABABDABACD") 3 7 = calculateHash (codes "ABABDABACD") 7 10.
Proof.
  destruct (hash_roll_equivalence (codes "ABABDABACD") (codes "ABC") 7)
    as [H1 H2].
  - unfold wf_str, codes. simpl. repeat constructor; lia.
  - concrete.
  - concrete.
  - split; [exact H1|]. apply H2. concrete.
Defined.


(** ** The doubles of the hash code on long patterns *)

Lemma norm_inject_Z_overflow (z : Z) :
  2 ^ 1024 <= z -> norm (inject_Z z) = Inf false.
Proof.
  intros Hz. unfold norm, two_1024. rewrite inject_Z_Qred.
  destruct (Qle_bool (inject_Z (2 ^ 1024)) (inject_Z z)) eqn:E; [reflexivity|].
  assert (H : Qle_bool (inject_Z (2 ^ 1024)) (inject_Z z) = true)
    by (apply Qle_bool_iff; rewrite <- Zle_Qle; exact Hz).
  congruence.
Qed.

(** [Math.pow(256, k)] is [Infinity] from [k = 128] on. *)
Lemma Math_pow_256_overflow (k : Z) : 128 <= k -> Math_pow_256 k = Inf false.
Proof.
  intros Hk. unfold Math_pow_256.
  rewrite <- (norm_proper _ _ (Zpower_Qpower 256 k ltac:(lia))).
  apply norm_inject_Z_overflow.
  assert (256 ^ 128 <= 256 ^ k) by (apply Z.pow_le_mono_r; lia).
  assert (256 ^ 128 = 2 ^ 1024) by (vm_compute; reflexivity).
  lia.
Qed.

(** With a pattern of 129 symbols or more every rolling update gives
    [NaN], whatever the text and the hash before it. *)
Lemma roll_long_pattern (text : str) (m : Z) (h : num) (i : Z) :
  129 <= m -> roll text m h i = NaN.
Proof.
  intros Hm. unfold roll. rewrite Math_pow_256_overflow by lia.
  assert (E : nrem (nmul (charCodeAt text i) (Inf false)) prime = NaN).
  { destruct (charCodeAt text i) as [a| |]; cbn [nmul]; [|reflexivity..].
    destruct (Qeq_bool a 0); reflexivity. }
  rewrite E. unfold nsub. cbn [nopp]. rewrite nadd_NaN_r. reflexivity.
Qed.

Lemma rolled_long_pattern (text : str) (m : Z) (k : nat) :
  129 <= m -> rolled text m (S k) = NaN.
Proof. intros Hm. cbn [rolled]. now apply roll_long_pattern. Qed.


(** ** A pattern longer than the text *)




Lemma naive_long_pattern (text pattern : str) :
  strlen text < strlen pattern ->
  naiveStringMatching text pattern = empty_trace.
Proof.
  intros H. unfold naiveStringMatching. now rewrite seqZ_nil by lia.
Qed.

Lemma rk_long_pattern (text pattern : str) :
  strlen text < strlen pattern ->
  rabinKarpStringMatching text pattern = r_trace (rk_init text pattern).
Proof.
  intros H. unfold rabinKarpStringMatching. now rewrite seqZ_nil by lia.
Qed.










(** ** Running totals *)




(** ** Counting against tracing *)

(** C3 as stated fails for KMP: on "AB" against "AB" the counter returns 3,
    one unit for the loop that builds the table and two for the scan, while
    the last step of the trace has a running total of 2. *)
Lemma kmp_count_exceeds_trace :
  countKMPComparisons 10 (codes "AB") (codes "AB") = Done 3 /\
  exists tr, kmpStringMatching 10 (codes "AB") (codes "AB") = Done tr /\
             last_total (steps tr) = Some 2.
Proof.
  split; [vm_compute; reflexivity|].
  eexists. split; [vm_compute; reflexivity | reflexivity].
Qed.

Lemma kmp_shape_last (tr : trace) (x : Z) :
  kmp_shape tr -> last_total (steps tr) = Some x -> x <= totalComparisons tr.
Proof.
  intros (_ & H & _). unfold last_total.
  destruct (rev (steps tr)) as [|st l] eqn:E; [discriminate|].
  intros [= <-].
  assert (Hin : In st (steps tr)) by (apply in_rev; rewrite E; now left).
  apply list_elem_of_In, list_elem_of_lookup in Hin as [k Hk].
  specialize (H k st Hk). lia.
Qed.

(** C3, as the code has it. When the pattern is not longer than the text,
    [countNaiveComparisons] and [countRabinKarpComparisons] return the
    running total of the last step of the matching trace.  For every
    non-empty pattern, longer than the text or not, [countKMPComparisons]
    returns more than the trace shows: the final comparison counter of the
    KMP generator, which the last step's total never exceeds, plus one unit
    per iteration of the loop that builds the prefix table, of which there
    are at least [|pattern| - 1]. *)
Theorem count_versus_trace (text pattern : str) :
  (strlen pattern <= strlen text ->
   last_total (steps (naiveStringMatching text pattern)) =
     Some (countNaiveComparisons text pattern) /\
   last_total (steps (rabinKarpStringMatching text pattern)) =
     Some (countRabinKarpComparisons text pattern)) /\
  (pattern <> [] ->
   forall fuel, (2 * (length text + length pattern) <= fuel)%nat ->
     exists tr c,
       kmpStringMatching fuel text pattern = Done tr /\
       ctable_loop fuel pattern (ctable_init pattern) = Done c /\
       countKMPComparisons fuel text pattern =
         Done (ct_comparisons c + totalComparisons tr) /\
       strlen pattern - 1 <= ct_comparisons c /\
       (forall x, last_total (steps tr) = Some x -> x <= totalComparisons tr)).
Proof.
  split.
  - intros Hle.
    assert (Hne : seqZ 0 (strlen text - strlen pattern + 1) <> []).
    { rewrite seqZ_cons by lia. discriminate. }
    split.
    + unfold naiveStringMatching, countNaiveComparisons.
      rewrite (naive_fold_last text pattern _ empty_trace Hne).
      f_equal. symmetry. apply (naive_fold_count text pattern _ empty_trace).
    + unfold rabinKarpStringMatching, countRabinKarpComparisons.
      rewrite (rk_fold_last text pattern _ _ (rk_init text pattern) Hne).
      f_equal. symmetry. now apply rk_fold_count.
  - intros Hp fuel Hf.
    destruct (kmpStringMatching_returns text pattern
                (fun s => kmp_shape (k_trace s)) fuel Hp Hf)
      as (t & s & Ht & _ & Hloop & Hs & _ & Hshape & _).
    + intros lps s _ _ _ HP _. now apply kmp_iter_shape.
    + apply kmp_init_shape.
    + pose proof (ctable_simulation pattern fuel) as Hsim.
      unfold computeKMPPrefixTable in Ht. rewrite Ht in Hsim.
      destruct (ctable_loop fuel pattern (ctable_init pattern)) as [c|] eqn:Ec;
        [|contradiction].
      destruct Hsim as [Hlps Hcount].
      pose proof (ckmp_simulation text pattern (t_lps t) fuel
                    (ct_comparisons c) (t_reads t)) as Hsim'.
      rewrite Hloop in Hsim'.
      destruct (ckmp_loop fuel text pattern (t_lps t) _) as [cs|] eqn:Ecs;
        [|contradiction].
      exists (k_trace s), c. split; [exact Hs|]. split; [reflexivity|].
      split; [|split; [exact Hcount|]].
      * unfold countKMPComparisons. rewrite Ec, Hlps, Ecs. now rewrite Hsim'.
      * intros x. now apply kmp_shape_last.
Qed.

Lemma count_versus_trace_witness :
  last_total (steps (naiveStringMatching (codes "AAB") (codes "AB"))) =
    Some (countNaiveComparisons (codes "AAB") (codes "AB")) /\
  last_total (steps (rabinKarpStringMatching (codes "AAB") (codes "AB"))) =
    Some (countRabinKarpComparisons (codes "AAB") (codes "AB")) /\
  exists tr c,
    kmpStringMatching 10 (codes "AB") (codes "ABC") = Done tr /\
    ctable_loop 10 (codes "ABC") (ctable_init (codes "ABC")) = Done c /\
    countKMPComparisons 10 (codes "AB") (codes "ABC") =
      Done (ct_comparisons c + totalComparisons tr).
Proof.
  destruct (count_versus_trace (codes "AAB") (codes "AB")) as [H1 _].
  destruct (H1 ltac:(concrete)) as [Hn Hr].
  split; [exact Hn|]. split; [exact Hr|].
  destruct (count_versus_trace (codes "AB") (codes "ABC")) as [_ H3].
  destruct (H3 ltac:(discriminate) 10%nat ltac:(concrete))
    as (tr & c & E1 & E2 & E3 & _).
  exists tr, c. auto.
Defined.


(** ** Bounds of the reads, termination *)

Lemma calculateHash_reads_in_bounds (a : array) (n m e : Z) :
  e <= (match a with AText => n | _ => m end) ->
  Forall (in_bounds n m) (calculateHash_reads a 0 e).
Proof.
  intros H. unfold calculateHash_reads. apply Forall_map.
  apply Forall_forall. intros i Hi.
  apply list_elem_of_In, elem_of_seqZ in Hi. unfold in_bounds. cbn.
  destruct a; lia.
Qed.

Lemma window_offsets (n m : Z) :
  Forall (fun i => 0 <= i <= n - m) (seqZ 0 (n - m + 1)).
Proof. apply Forall_seqZ. intros i Hi. lia. Qed.

(** C4 as stated fails: on an empty pattern the KMP scan reads
    [pattern[0]], which does not exist, and never leaves its loop, and on a
    pattern longer than the text Rabin-Karp reads past the end of the
    text. *)
Lemma unsafe_trace_generation :
  (forall fuel, kmpStringMatching fuel (codes "A") (codes "") = OutOfFuel) /\
  In (Rd APattern (JNum 0))
    (reads (k_trace (kmp_iter (codes "A") (codes "") [] (kmp_init [])))) /\
  in_boundsb 1 0 (Rd APattern (JNum 0)) = false /\
  In (Rd AText (JNum 2))
    (reads (rabinKarpStringMatching (codes "AB") (codes "ABC"))) /\
  in_boundsb 2 3 (Rd AText (JNum 2)) = false.
Proof.
  split; [intros fuel; apply kmp_empty_pattern_diverges;
          [reflexivity | discriminate]|].
  split; [cbn; repeat (first [left; reflexivity | right])|].
  split; [reflexivity|].
  split; [cbn; repeat (first [left; reflexivity | right]) | reflexivity].
Qed.

(** C4, as the code has it. The naive scan returns on every text and
    pattern, empty ones included, and reads inside the text and the pattern
    only.  Rabin-Karp always returns, and reads inside the text and the
    pattern only when the pattern is not longer than the text.  The KMP
    scan returns, within [2 * (|text| + |pattern|)] iterations of its two
    loops, and reads inside the text, the pattern and the prefix table only,
    whenever the pattern is not empty or the text is empty. *)
Theorem trace_generation_bounds (text pattern : str) :
  Forall (in_bounds (strlen text) (strlen pattern))
    (reads (naiveStringMatching text pattern)) /\
  (strlen pattern <= strlen text ->
   Forall (in_bounds (strlen text) (strlen pattern))
     (reads (rabinKarpStringMatching text pattern))) /\
  (pattern <> [] \/ text = [] ->
   forall fuel, (2 * (length text + length pattern) <= fuel)%nat ->
     exists tr, kmpStringMatching fuel text pattern = Done tr /\
                Forall (in_bounds (strlen text) (strlen pattern)) (reads tr)).
Proof.
  split; [|split].
  - apply naive_fold_reads; [apply window_offsets | constructor].
  - intros Hle. apply rk_fold_reads; [apply window_offsets|].
    cbn [rk_init r_trace reads]. apply Forall_app.
    split; apply calculateHash_reads_in_bounds; lia.
  - intros Hcase fuel Hf.
    destruct (decide (pattern = [])) as [Hp|Hp].
    + destruct Hcase as [?| ->]; [contradiction|]. subst pattern.
      exists (k_trace (kmp_init [])). split; [|constructor].
      unfold kmpStringMatching. rewrite computeKMPPrefixTable_empty.
      destruct fuel; reflexivity.
    + destruct (kmpStringMatching_returns text pattern (fun _ => True) fuel Hp Hf)
        as (t & s & _ & _ & _ & Hs & (_ & _ & Hrd) & _); auto.
      eauto.
Qed.

Lemma trace_generation_bounds_witness :
  Forall (in_bounds 3 2) (reads (rabinKarpStringMatching (codes "AAB") (codes "AB"))) /\
  exists tr, kmpStringMatching 10 (codes "AAB") (codes "AB") = Done tr /\
             Forall (in_bounds 3 2) (reads tr).
Proof.
  destruct (trace_generation_bounds (codes "AAB") (codes "AB")) as (_ & H2 & H3).
  split; [apply H2; concrete|].
  apply H3; [left; discriminate | concrete].
Defined.

(** ** The dispatcher has no error result *)

(** C7 as stated fails: an empty text with the pattern "A" and an
    unrecognised algorithm name both give the empty trace, silently. *)
Lemma generateSteps_silent_empty_trace :
  generateSteps 0 "naive" (codes "") (codes "A") = Done empty_trace /\
  generateSteps 0 "boyer-moore" (codes "AB") (codes "A") = Done empty_trace.
Proof. split; reflexivity. Qed.

(** C7, as the code has it. [generateSteps] has no error result.  With an
    algorithm name other than the three it knows it returns the empty
    trace; with an empty text and a non-empty pattern it returns a trace
    with no step and no match position, whatever the algorithm.  Empty
    inputs are kept out by its caller: the Start control is enabled exactly
    when nothing is running and both strings are non-empty. *)
Theorem generateSteps_no_error_result :
  (forall fuel algorithm text pattern,
     algorithm <> "naive"%string -> algorithm <> "kmp"%string ->
     algorithm <> "rabin-karp"%string ->
     generateSteps fuel algorithm text pattern = Done empty_trace) /\
  (forall fuel algorithm pattern,
     pattern <> [] -> (2 * length pattern <= fuel)%nat ->
     exists tr, generateSteps fuel algorithm [] pattern = Done tr /\
                steps tr = [] /\ foundMatches tr = []) /\
  (forall isRunning text pattern,
     start_disabled isRunning text pattern = false <->
     isRunning = false /\ text <> [] /\ pattern <> []).
Proof.
  split; [|split].
  - intros fuel algorithm text pattern H1 H2 H3. unfold generateSteps.
    apply String.eqb_neq in H1, H2, H3. now rewrite H1, H2, H3.
  - intros fuel algorithm pattern Hp Hf.
    assert (Hlong : strlen [] < strlen pattern)
      by (rewrite strlen_nil; now apply strlen_pos).
    unfold generateSteps.
    destruct (String.eqb algorithm "naive").
    { eexists. split; [reflexivity|]. now rewrite naive_long_pattern. }
    destruct (String.eqb algorithm "kmp").
    { destruct (kmpStringMatching_returns [] pattern
                  (fun s => s = kmp_init (reads (k_trace s))) fuel Hp)
        as (t & s & _ & _ & _ & Hs & _ & HP & _).
      - cbn [length]. lia.
      - intros lps s _ _ (Hi & _) _ Hc. apply Z.ltb_lt in Hc.
        rewrite strlen_nil in *. lia.
      - reflexivity.
      - exists (k_trace s). split; [exact Hs|]. rewrite HP. split; reflexivity. }
    destruct (String.eqb algorithm "rabin-karp").
    { eexists. split; [reflexivity|]. now rewrite rk_long_pattern. }
    eexists. split; [reflexivity|]. split; reflexivity.
  - intros isRunning text pattern. unfold start_disabled.
    rewrite !orb_false_iff, !Z.eqb_neq.
    assert (E : forall s : str, strlen s <> 0 <-> s <> []).
    { intros [|c s]; unfold strlen; cbn [length]; split; intros H;
        try congruence; try lia; discriminate. }
    rewrite !E. tauto.
Qed.

Lemma generateSteps_no_error_result_witness :
  generateSteps 0 "boyer-moore" (codes "AB") (codes "A") = Done empty_trace /\
  (exists tr, generateSteps 2 "kmp" [] (codes "A") = Done tr /\
              steps tr = [] /\ foundMatches tr = []) /\
  start_disabled false (codes "AB") (codes "A") = false.
Proof.
  destruct generateSteps_no_error_result as (H1 & H2 & H3).
  split; [apply H1; discriminate|].
  split; [apply H2; [discriminate | concrete]|].
  apply H3. repeat split; discriminate.
Defined.

(** ** The look-ahead of the KMP scan *)

(** C8. When the KMP loop compares [text[i]] with [pattern[j]] and they are
    equal, the pattern is not complete and the next text symbol differs from
    the next pattern symbol, the iteration emits a step tagged as a mismatch
    with prefix shift whose only comparison record is the successful one
    ([i], [j], matched); the running total grows by that one comparison, and
    the pair [i + 1], [j + 1] that caused the tag is not recorded. *)
Theorem kmp_lookahead_mismatch (text pattern : str) (lps : list jsval)
  (s : kmp_state) (i j : Z) :
  k_i s = i -> k_j s = JNum j ->
  sym_eqb (get text i) (get pattern j) = true ->
  j + 1 <> strlen pattern ->
  i + 1 < strlen text ->
  sym_eqb (get text (i + 1)) (get pattern (j + 1)) = false ->
  0 <= j ->
  exists st,
    steps (k_trace (kmp_iter text pattern lps s)) = steps (k_trace s) ++ [st] /\
    s_description st = MismatchPrefixShift /\
    s_comparisons st = [Comparison i (JNum j) true] /\
    ~ In (Comparison (i + 1) (JNum (j + 1)) false) (s_comparisons st) /\
    s_totalComparisons st = totalComparisons (k_trace s) + 1 /\
    totalComparisons (k_trace (kmp_iter text pattern lps s)) =
      totalComparisons (k_trace s) + 1.
Proof.
  intros Hi Hj Heq Hm Hn Hneq Hj0. unfold kmp_iter. rewrite Hi, Hj. cbn zeta.
  cbn [getv]. rewrite Heq. cbn [jincr jsval_eqb getv].
  destruct (Z.eqb_spec (j + 1) (strlen pattern)); [contradiction|].
  destruct (Z.ltb_spec (i + 1) (strlen text)); [|lia].
  rewrite Hneq. cbn [negb]. destruct (Z.eqb_spec (j + 1) 0); [lia|]. cbn [negb].
  eexists. cbn [k_trace steps totalComparisons].
  split; [reflexivity|]. cbn [s_description s_comparisons s_totalComparisons].
  repeat split. intros [Hin|[]]. discriminate Hin.
Qed.

Lemma kmp_lookahead_mismatch_witness :
  exists tr, kmpStringMatching 10 (codes "ABC") (codes "ABD") = Done tr /\
  exists st, nth_error (steps tr) 0 = Some st /\
             s_description st = MismatchPrefixShift /\
             s_comparisons st = [Comparison 1 (JNum 1) true] /\
             s_totalComparisons st = 2.
Proof.
  eexists. split; [vm_compute; reflexivity|].
  destruct (kmp_lookahead_mismatch (codes "ABC") (codes "ABD")
              [JNum 0; JNum 0; JNum 0]
              (kmp_iter (codes "ABC") (codes "ABD") [JNum 0; JNum 0; JNum 0]
                 (kmp_init [Rd APattern (JNum 1); Rd APattern (JNum 0);
                            Rd APattern (JNum 2); Rd APattern (JNum 0)]))
              1 1)
    as (st & H1 & H2 & H3 & _ & H5 & _);
    try reflexivity; try concrete.
  exists st. cbn in H1. cbn [steps nth_error].
  inversion H1; subst st. repeat split.
Defined.


(** ** Agreement of the three match lists *)

(** With a pattern of 129 symbols or more Rabin-Karp reports no offset but
    0: after the first rolling update no window passes the hash test. *)
Lemma rk_long_pattern_offsets (text pattern : str) (p : jsval) :
  129 <= strlen pattern ->
  In p (foundMatches (rabinKarpStringMatching text pattern)) -> p = JNum 0.
Proof.
  intros Hm. unfold rabinKarpStringMatching.
  destruct (Z.le_gt_cases (strlen text - strlen pattern + 1) 0) as [Hle|Hgt].
  { rewrite seqZ_nil by lia. intros []. }
  replace (strlen text - strlen pattern + 1)
    with (Z.of_nat (Z.to_nat (strlen text - strlen pattern + 1))) by lia.
  destruct (rk_fold_prefix text pattern (calculateHash pattern 0 (strlen pattern))
              (Z.to_nat (strlen text - strlen pattern + 1))) as [_ E]; [lia|].
  rewrite E. intros Hin. apply in_map_iff in Hin as (i & <- & Hi).
  apply filter_In in Hi as [Hi Hf].
  apply list_elem_of_In, elem_of_seqZ in Hi.
  destruct (Z.to_nat i) as [|k] eqn:Ek; [f_equal; lia|].
  rewrite rolled_long_pattern in Hf by exact Hm. discriminate.
Qed.

(** C1 fails on the code once the pattern is longer than 128 symbols. On
    130 letters A against 129 letters A the naive scan and KMP report the
    offsets 0 and 1, and Rabin-Karp reports 0 only: [Math.pow(256, 128)]
    overflows to [Infinity], the first rolling update turns the window hash
    into [NaN], and no later window passes the hash test.  (Up to 127
    symbols the three agree, see [match_positions_agree] below.) *)
Theorem rabin_karp_misses_long_pattern :
  foundMatches (naiveStringMatching (As 130) (As 129)) = [JNum 0; JNum 1] /\
  (exists tr, kmpStringMatching 600 (As 130) (As 129) = Done tr /\
              foundMatches tr = [JNum 0; JNum 1]) /\
  foundMatches (rabinKarpStringMatching (As 130) (As 129)) = [JNum 0] /\
  Math_pow_256 128 = Inf false /\
  rolled (As 130) 129 0 = calculateHash (As 129) 0 129 /\
  rolled (As 130) 129 1 = NaN.
Proof.
  split; [vm_compute; reflexivity|].
  split; [eexists; split; [vm_compute; reflexivity | reflexivity]|].
  repeat split; vm_compute; reflexivity.
Qed.

(** ** The rolling hash on a long pattern *)

(** C5 fails on the code once the pattern is longer than 128 symbols. A
    text of 130 letters A, a pattern length of 129 and the window at offset
    1 are in the range of the claim.  The hash of that window computed
    directly is 25, and so is the hash of the first window, but one rolling
    update from the first window gives [NaN], because [Math.pow(256, 128)]
    is [Infinity]: the rolled hash and the direct hash are not equal.  In
    exact integer arithmetic both are 25.  (Up to 127 symbols the doubles
    of the program are the exact integers, see [hash_roll_equivalence].) *)
Theorem rolling_hash_departs_from_direct_hash :
  wf_str (As 130) /\
  1 <= 129 <= strlen (As 130) /\
  0 <= 1 <= strlen (As 130) - 129 /\
  calculateHash (As 130) 1 (1 + 129) = of_Z 25 /\
  rolled (As 130) 129 0 = of_Z 25 /\
  Math_pow_256 (129 - 1) = Inf false /\
  rolled (As 130) 129 1 = NaN /\
  num_eqb (rolled (As 130) 129 1) (calculateHash (As 130) 1 (1 + 129))
    = false /\
  rolledZ (As 130) 129 1 = 25 /\
  calculateHashZ (As 130) 1 (1 + 129) = 25.
Proof.
  split; [unfold As; apply Forall_replicate; lia|].
  split; [unfold strlen, As; rewrite length_replicate; lia|].
  split; [unfold strlen, As; rewrite length_replicate; lia|].
  repeat split; vm_compute; reflexivity.
Qed.


Lemma ascending_seqZ (lo len : Z) : ascending (seqZ lo len).
Proof.
  unfold ascending. remember (Z.to_nat len) as k eqn:Hk.
  revert lo len Hk. induction k as [|k IH]; intros lo len Hk.
  - rewrite seqZ_nil by lia. constructor.
  - rewrite seqZ_cons by lia. constructor; [apply IH; lia|].
    apply Forall_forall. intros x Hx.
    apply list_elem_of_In, elem_of_seqZ in Hx. lia.
Qed.

Lemma ascending_filter (f : Z -> bool) (l : list Z) :
  ascending l -> ascending (List.filter f l).
Proof.
  unfold ascending. induction 1 as [|a l Hl IH Ha]; cbn [List.filter];
    [constructor|].
  destruct (f a); [|exact IH]. constructor; [exact IH|].
  rewrite Forall_forall in *. intros x Hx. apply filter_In in Hx as [Hx _]. auto.
Qed.

Lemma polyZ_ext (s t : str) (a b : Z) (k : nat) :
  seg_eq s t a b (Z.of_nat k) -> polyZ s a k = polyZ t b k.
Proof.
  induction k as [|k IH]; intros H; [reflexivity|].
  rewrite !polyZ_S. rewrite IH by (eapply seg_eq_weaken; [exact H | lia]).
  unfold code_at. now rewrite (H (Z.of_nat k)) by lia.
Qed.

(** At an occurrence the rolled hash equals the hash of the pattern, so the
    hash test of Rabin-Karp lets it through. *)
Lemma rk_hash_test_passes (text pattern : str) (i : Z) :
  wf_str text -> wf_str pattern -> 1 <= strlen pattern <= 127 ->
  0 <= i <= strlen text - strlen pattern ->
  occurs text pattern i = true ->
  num_eqb (rolled text (strlen pattern) (Z.to_nat i))
    (calculateHash pattern 0 (strlen pattern)) = true.
Proof.
  intros Ht Hp Hm Hi Hocc. apply occurs_iff in Hocc.
  assert (E1 : calculateHash pattern 0 (strlen pattern) =
               of_Z (polyZ pattern 0 (length pattern) mod 101)).
  { pose proof (calculateHash_exact pattern 0 (length pattern) Hp
                  ltac:(lia) ltac:(unfold strlen; lia)) as E.
    rewrite calculateHashZ_poly in E by assumption. exact E. }
  assert (E2 : rolled text (strlen pattern) (Z.to_nat i) =
               of_Z (polyZ text i (length pattern) mod 101)).
  { rewrite rolled_exact by (try assumption; lia). unfold strlen.
    rewrite rolledZ_poly by (try assumption; unfold strlen in Hm; lia).
    now rewrite Z2Nat.id by lia. }
  rewrite E1, E2.
  rewrite (polyZ_ext text pattern i 0 (length pattern)) by exact Hocc.
  apply Qeq_bool_refl.
Qed.

Lemma rk_finds_occurrences (text pattern : str) :
  wf_str text -> wf_str pattern -> 1 <= strlen pattern <= 127 ->
  foundMatches (rabinKarpStringMatching text pattern) =
  map JNum (occurrences text pattern).
Proof.
  intros Ht Hp Hm. unfold occurrences.
  destruct (Z.le_gt_cases (strlen pattern) (strlen text)) as [Hle|Hgt].
  - unfold rabinKarpStringMatching.
    replace (strlen text - strlen pattern + 1)
      with (Z.of_nat (Z.to_nat (strlen text - strlen pattern + 1))) by lia.
    destruct (rk_fold_prefix text pattern (calculateHash pattern 0 (strlen pattern))
                (Z.to_nat (strlen text - strlen pattern + 1))) as [_ E]; [lia|].
    rewrite E. f_equal. apply filter_ext_in. intros i Hi.
    apply list_elem_of_In, elem_of_seqZ in Hi.
    destruct (occurs text pattern i) eqn:Hocc; [|apply andb_false_r].
    rewrite rk_hash_test_passes by (try assumption; lia). reflexivity.
  - rewrite rk_long_pattern by lia. now rewrite seqZ_nil by lia.
Qed.

(** X3. Short patterns. While the pattern has between 1 and 127 symbols, the
    three generators report the same match positions: the offsets at which
    the pattern occurs in the text, in ascending order. *)
Theorem match_positions_agree (text pattern : str) (fuel : nat) :
  wf_str text -> wf_str pattern -> 1 <= strlen pattern <= 127 ->
  (2 * (length text + length pattern) <= fuel)%nat ->
  foundMatches (naiveStringMatching text pattern) =
    map JNum (occurrences text pattern) /\
  (exists tr, kmpStringMatching fuel text pattern = Done tr /\
              foundMatches tr = map JNum (occurrences text pattern)) /\
  foundMatches (rabinKarpStringMatching text pattern) =
    map JNum (occurrences text pattern) /\
  ascending (occurrences text pattern).
Proof.
  intros Ht Hp Hm Hf. split; [|split; [|split]].
  - apply (naive_fold_matches text pattern _ empty_trace).
  - apply kmp_finds_occurrences; [|exact Hf].
    intros ->. rewrite strlen_nil in Hm. lia.
  - now apply rk_finds_occurrences.
  - apply ascending_filter, ascending_seqZ.
Qed.

Lemma match_positions_agree_witness :
  foundMatches (rabinKarpStringMatching (codes "ABABDABACDABABCABAB")
                  (codes "ABABCABAB")) = [JNum 10] /\
  occurrences (codes "AAAAA") (codes "AA") = [0; 1; 2; 3].
Proof.
  split; [|reflexivity].
  destruct (match_positions_agree (codes "ABABDABACDABABCABAB")
              (codes "ABABCABAB") 56) as (_ & _ & H & _).
  - unfold wf_str, codes. simpl. repeat constructor; lia.
  - unfold wf_str, codes. simpl. repeat constructor; lia.
  - concrete.
  - concrete.
  - rewrite H. reflexivity.
Defined.


(** * Further properties of the generators *)

(** ** The prefix table *)

(** X1. [computeKMPPrefixTable] returns within [2 * |pattern|] iterations
    of its loop.  The table has one cell per symbol of the pattern, and the
    cell [q - 1] holds the length of the longest proper border of the first
    [q] symbols: the longest proper prefix of them that is also their
    suffix.  In particular the first cell holds 0. *)
Theorem prefix_table_longest_borders (pattern : str) (fuel : nat) :
  (2 * length pattern <= fuel)%nat ->
  exists t,
    computeKMPPrefixTable fuel pattern = Done t /\
    length (t_lps t) = length pattern /\
    (forall q, 1 <= q <= strlen pattern ->
       exists b, t_lps t !! Z.to_nat (q - 1) = Some (JNum b) /\
                 longest_border pattern q b) /\
    (pattern <> [] -> t_lps t !! 0%nat = Some (JNum 0)).
Proof.
  intros Hf.
  destruct (computeKMPPrefixTable_correct pattern fuel Hf)
    as (t & Ht & (_ & Hlen & _) & Hlps).
  assert (Hcell : forall q, 1 <= q <= strlen pattern ->
            exists b, t_lps t !! Z.to_nat (q - 1) = Some (JNum b) /\
                      longest_border pattern q b).
  { intros q Hq. destruct (Hlps q) as (b & Hb & Hlb); [lia | lia |].
    exists b. split; [|exact Hlb].
    unfold lps_get, getv, get in Hb.
    destruct (Z.leb_spec 0 (q - 1)); [|lia].
    destruct (t_lps t !! Z.to_nat (q - 1)) as [v|]; [|discriminate].
    now subst v. }
  exists t. split; [exact Ht|]. split; [exact Hlen|]. split; [exact Hcell|].
  intros Hp. pose proof (strlen_pos pattern Hp).
  destruct (Hcell 1) as (b & Hb & [[Hb0 _] _]); [lia|].
  replace b with 0 in Hb by lia. exact Hb.
Qed.

Lemma prefix_table_longest_borders_witness :
  exists t,
    computeKMPPrefixTable 18 (codes "ABABCABAB") = Done t /\
    length (t_lps t) = 9%nat /\
    t_lps t !! 0%nat = Some (JNum 0).
Proof.
  destruct (prefix_table_longest_borders (codes "ABABCABAB") 18)
    as (t & Ht & Hlen & _ & H0); [concrete|].
  exists t. split; [exact Ht|]. split; [exact Hlen|]. apply H0. discriminate.
Defined.

(** ** The naive scan and KMP find the occurrences *)

Lemma occurrences_spec (text pattern : str) (p : Z) :
  pattern <> [] ->
  In p (occurrences text pattern) <-> occurs text pattern p = true.
Proof.
  intros Hp. unfold occurrences. rewrite filter_In. split; [tauto|].
  intros H. split; [|exact H].
  apply occurs_bound in H as Hb; [|exact Hp].
  apply list_elem_of_In, elem_of_seqZ. lia.
Qed.

(** X2. For every text and every non-empty pattern, whatever their lengths
    and code units, the naive scan and the KMP scan report the same match
    positions: every offset at which the pattern occurs in the text and no
    other, each once, in ascending order, all between 0 and
    [|text| - |pattern|]. *)
Theorem naive_kmp_report_occurrences (text pattern : str) (fuel : nat) :
  pattern <> [] ->
  (2 * (length text + length pattern) <= fuel)%nat ->
  foundMatches (naiveStringMatching text pattern) =
    map JNum (occurrences text pattern) /\
  (exists tr, kmpStringMatching fuel text pattern = Done tr /\
              foundMatches tr = map JNum (occurrences text pattern)) /\
  ascending (occurrences text pattern) /\
  (forall p, In p (occurrences text pattern) <->
             occurs text pattern p = true) /\
  (forall p, In p (occurrences text pattern) ->
             0 <= p <= strlen text - strlen pattern).
Proof.
  intros Hp Hf. split; [|split; [|split; [|split]]].
  - apply (naive_fold_matches text pattern _ empty_trace).
  - now apply kmp_finds_occurrences.
  - apply ascending_filter, ascending_seqZ.
  - intros p. now apply occurrences_spec.
  - intros p Hin. apply occurrences_spec in Hin; [|exact Hp].
    now apply occurs_bound.
Qed.

Lemma naive_kmp_report_occurrences_witness :
  foundMatches (naiveStringMatching (codes "AAAAA") (codes "AA")) =
    map JNum [0; 1; 2; 3] /\
  exists tr, kmpStringMatching 14 (codes "AAAAA") (codes "AA") = Done tr /\
             foundMatches tr = map JNum [0; 1; 2; 3].
Proof.
  destruct (naive_kmp_report_occurrences (codes "AAAAA") (codes "AA") 14)
    as (H1 & H2 & _); [discriminate | concrete |].
  split; [exact H1 | exact H2].
Defined.

(** ** Rabin-Karp on long patterns *)

(** X4. With a pattern of 129 symbols or more, Rabin-Karp reports no match
    position other than 0: every occurrence of the pattern at an offset
    from 1 on is missed. *)
Theorem rabin_karp_long_pattern_misses (text pattern : str) :
  129 <= strlen pattern ->
  Forall (fun p => p = JNum 0)
    (foundMatches (rabinKarpStringMatching text pattern)) /\
  (forall i, 1 <= i -> occurs text pattern i = true ->
     ~ In (JNum i) (foundMatches (rabinKarpStringMatching text pattern))).
Proof.
  intros Hm. split.
  - apply Forall_forall. intros p Hp. now apply (rk_long_pattern_offsets text pattern).
  - intros i Hi _ Hin.
    apply (rk_long_pattern_offsets text pattern) in Hin; [|exact Hm].
    injection Hin as ->. lia.
Qed.

Lemma rabin_karp_long_pattern_misses_witness :
  occurs (As 130) (As 129) 1 = true /\
  ~ In (JNum 1) (foundMatches (rabinKarpStringMatching (As 130) (As 129))).
Proof.
  split; [vm_compute; reflexivity|].
  destruct (rabin_karp_long_pattern_misses (As 130) (As 129)) as [_ H].
  - unfold strlen, As. rewrite length_replicate. lia.
  - apply (H 1); [lia | vm_compute; reflexivity].
Defined.

(** ** KMP on an empty pattern *)

(** X15. On the empty pattern the KMP generator returns only for the empty
    text, with the empty trace; for every non-empty text its loop never
    ends, however much fuel it is given, and so [generateSteps] does not
    return either. *)
Theorem kmp_empty_pattern_never_returns (text : str) (fuel : nat) :
  text <> [] ->
  kmpStringMatching fuel text [] = OutOfFuel /\
  generateSteps fuel "kmp" text [] = OutOfFuel /\
  kmpStringMatching fuel [] [] = Done empty_trace.
Proof.
  intros Ht. split; [|split].
  - now apply kmp_empty_pattern_diverges.
  - unfold generateSteps. cbn [String.eqb Ascii.eqb Bool.eqb].
    now apply kmp_empty_pattern_diverges.
  - unfold kmpStringMatching. rewrite computeKMPPrefixTable_empty.
    destruct fuel; reflexivity.
Qed.

Lemma kmp_empty_pattern_never_returns_witness :
  kmpStringMatching 1000 (codes "A") [] = OutOfFuel.
Proof.
  destruct (kmp_empty_pattern_never_returns (codes "A") 1000) as [H _];
    [discriminate | exact H].
Defined.


(** ** The number of comparisons of KMP *)

(** A loop that returns has run its body at most as many times as its
    variant allowed. *)
Lemma while_variant_bound {St : Type} (cond : St -> bool) (body : St -> St)
  (Inv : St -> Prop) (v : St -> nat) :
  (forall s, Inv s -> cond s = true -> Inv (body s) /\ (v (body s) < v s)%nat) ->
  forall fuel s s', Inv s -> while cond body fuel s = Done s' ->
    exists t, s' = Nat.iter t body s /\ (t + v s' <= v s)%nat.
Proof.
  intros Hbody fuel. induction fuel as [|fuel IH]; intros s s' Hs; cbn [while];
    destruct (cond s) eqn:Hc; try discriminate.
  - intros [= <-]. exists 0%nat. split; [reflexivity | lia].
  - intros H. destruct (Hbody s Hs Hc) as [Hs' Hv].
    destruct (IH _ _ Hs' H) as (t & -> & Ht). exists (S t).
    split; [cbn [Nat.iter]; apply Nat.iter_swap | lia].
  - intros [= <-]. exists 0%nat. split; [reflexivity | lia].
Qed.

(** The text index advances by at most one per iteration. *)
Lemma kmp_iter_index (text pattern : str) (lps : list jsval) (s : kmp_state) :
  kmp_inv text pattern s ->
  k_i (kmp_iter text pattern lps s) <= k_i s + 1.
Proof.
  intros (_ & (k & Hj & Hk & _) & _). unfold kmp_iter. rewrite Hj. cbn zeta.
  destruct (sym_eqb (get text (k_i s)) (getv pattern (JNum k)));
    cbn [jincr jsval_eqb].
  - destruct (Z.eqb_spec (k + 1) 0); [lia|]. cbn [negb].
    split_ifs; cbn [k_i]; lia.
  - split_ifs; cbn [k_i]; lia.
Qed.

(** X6. On a non-empty pattern the KMP scan makes at least [|text|] and at
    most [2 * |text|] symbol comparisons, and pushes at most one step per
    comparison; [countKMPComparisons], which also counts the iterations of
    its table loop, returns at most [2 * (|text| + |pattern|)]. *)
Theorem kmp_linear_comparisons (text pattern : str) (fuel : nat) :
  pattern <> [] ->
  (2 * (length text + length pattern) <= fuel)%nat ->
  (exists tr, kmpStringMatching fuel text pattern = Done tr /\
              strlen text <= totalComparisons tr <= 2 * strlen text /\
              Z.of_nat (length (steps tr)) <= totalComparisons tr) /\
  (exists c, countKMPComparisons fuel text pattern = Done c /\
             strlen text <= c <= 2 * (strlen text + strlen pattern)).
Proof.
  intros Hp Hf.
  destruct (kmpStringMatching_returns text pattern
              (fun s => kmp_shape (k_trace s) /\
                        k_i s <= totalComparisons (k_trace s)) fuel Hp Hf)
    as (t & s & Ht & Htinv & Hloop & Hs & Hinv & [Hshape Hlow] & Hi).
  { intros lps s _ _ Hinv [H1 H2] _. split; [now apply kmp_iter_shape|].
    destruct (kmp_iter_trace text pattern lps s) as [E _]. rewrite E.
    pose proof (kmp_iter_index text pattern lps s Hinv). lia. }
  { intros rd. split; [apply kmp_init_shape | cbn; lia]. }
  pose proof Htinv as (_ & Hlen & Hok & _ & Hrd).
  assert (Hinit : kmp_inv text pattern (kmp_init (t_reads t))).
  { apply kmp_init_inv; [exact Hp|].
    eapply Forall_impl; [|exact Hrd]. intros a Ha.
    eapply in_bounds_text_mono; [exact Ha | apply strlen_nonneg]. }
  destruct (while_variant_bound _ _ _ _
              (kmp_iter_inv text pattern (t_lps t) Hlen Hok)
              fuel _ _ Hinit Hloop) as (n & Hn & Hbound).
  assert (Htotal : totalComparisons (k_trace s) = Z.of_nat n).
  { rewrite Hn. apply (kmp_after_total text pattern (t_lps t)). }
  assert (Hupper : Z.of_nat n <= 2 * strlen text).
  { unfold kmp_variant at 2 in Hbound. cbn [kmp_init k_j k_i] in Hbound.
    pose proof (strlen_nonneg text). lia. }
  split.
  - exists (k_trace s). split; [exact Hs|]. split; [lia|].
    destruct Hshape as (_ & _ & H). exact H.
  - (* the counter: the table loop, then the scan *)
    pose proof (while_simulation
      (fun c => ct_i c <? strlen pattern) (ctable_iter pattern)
      (fun t => t_i t <? strlen pattern) (table_iter pattern)
      (fun c t => table_inv pattern t /\ ct_lps c = t_lps t /\
                  ct_len c = t_len t /\ ct_i c = t_i t /\
                  0 <= ct_comparisons c /\
                  ct_comparisons c + Z.of_nat (table_variant pattern t)
                  <= 2 * strlen pattern)) as Hsim.
    specialize (Hsim ltac:(
      intros c0 t0 (H0 & H1 & H2 & H3 & H4 & H5); split; [now rewrite H3|];
      intros Hc; rewrite H3 in Hc;
      destruct (table_iter_inv pattern t0 H0 Hc) as [H0' Hv];
      split; [exact H0'|];
      revert Hv; unfold ctable_iter, table_iter; rewrite H1, H2, H3;
      split_ifs; cbn [ct_lps ct_len ct_i ct_comparisons t_lps t_len t_i];
      intros Hv; repeat split; lia) fuel (ctable_init pattern)
      (table_init pattern)).
    specialize (Hsim ltac:(
      split; [apply table_init_inv|]; cbn; repeat split; try lia;
      unfold table_variant, strlen; cbn; lia)).
    unfold computeKMPPrefixTable, table_loop in Ht. rewrite Ht in Hsim.
    destruct (while _ (ctable_iter pattern) fuel _) as [c|] eqn:Ec;
      [|contradiction].
    destruct Hsim as (_ & Hlps & _ & _ & Hc0 & Hc1).
    pose proof (ckmp_simulation text pattern (t_lps t) fuel
                  (ct_comparisons c) (t_reads t)) as Hsim'.
    rewrite Hloop in Hsim'.
    destruct (ckmp_loop fuel text pattern (t_lps t) _) as [cs|] eqn:Ecs;
      [|contradiction].
    exists (ck_comparisons cs). split.
    + unfold countKMPComparisons, ctable_loop. rewrite Ec, Hlps, Ecs. reflexivity.
    + rewrite Hsim'. lia.
Qed.

Lemma kmp_linear_comparisons_witness :
  exists tr, kmpStringMatching 56 (codes "ABABDABACDABABCABAB")
               (codes "ABABCABAB") = Done tr /\
             19 <= totalComparisons tr <= 38.
Proof.
  destruct (kmp_linear_comparisons (codes "ABABDABACDABABCABAB")
              (codes "ABABCABAB") 56) as ((tr & Htr & Hb & _) & _);
    [discriminate | concrete |].
  exists tr. split; [exact Htr | exact Hb].
Defined.


(** ** The steps of the naive scan *)

Section Compared.
Variables (text pattern : str) (i : Z).

Lemma compared_le (j : Z) (k : nat) : (compared text pattern i j k <= k)%nat.
Proof.
revert j. induction k as [|k IH]; intros j; cbn [compared]; [lia|].
destruct (sym_eqb _ _); [specialize (IH (j + 1))|]; lia.
Qed.

Lemma compared_pos (j : Z) (k : nat) :
(1 <= k)%nat -> (1 <= compared text pattern i j k)%nat.
Proof. destruct k; [lia|]. intros _. cbn [compared]. destruct (sym_eqb _ _); lia. Qed.

Lemma compared_agree (j : Z) (k : nat) :
agree text pattern i j k = true -> compared text pattern i j k = k.
Proof.
revert j. induction k as [|k IH]; intros j; [reflexivity|].
rewrite agree_S. cbn [compared]. intros H. apply andb_true_iff in H as [-> H].
now rewrite IH.
Qed.

(** All pairs before the last one compared are equal. *)
Lemma compared_prefix (j : Z) (k : nat) :
agree text pattern i j (compared text pattern i j k - 1) = true.
Proof.
revert j. induction k as [|k IH]; intros j; cbn [compared]; [reflexivity|].
destruct (sym_eqb (get text (i + j)) (get pattern j)) eqn:E; [|reflexivity].
destruct (compared text pattern i (j + 1) k) as [|c] eqn:Ec; [reflexivity|].
replace (S (S c) - 1)%nat with (S c) by lia. rewrite agree_S, E.
specialize (IH (j + 1)). rewrite Ec in IH.
now replace (S c - 1)%nat with c in IH by lia.
Qed.

(** When not all pairs are equal the last one compared differs. *)
Lemma compared_last (j : Z) (k : nat) :
agree text pattern i j k = false ->
(1 <= compared text pattern i j k)%nat /\
c_match (scan_record text pattern i
           (j + Z.of_nat (compared text pattern i j k) - 1)) = false.
Proof.
revert j. induction k as [|k IH]; intros j; [discriminate|].
rewrite agree_S. cbn [compared].
destruct (sym_eqb (get text (i + j)) (get pattern j)) eqn:E; cbn [andb].
- intros H. destruct (IH _ H) as [H1 H2]. split; [lia|].
  replace (j + Z.of_nat (S (compared text pattern i (j + 1) k)) - 1)
    with (j + 1 + Z.of_nat (compared text pattern i (j + 1) k) - 1) by lia.
  exact H2.
- intros _. split; [lia|]. unfold scan_record. cbn [c_match].
  now replace (j + Z.of_nat 1 - 1) with j by lia.
Qed.

(** What the inner loop leaves: the records of the pairs it compared, in
  order, and [j] on the pair that differed or at the bound. *)
Lemma inner_scan_exact (k : nat) (s : scan) :
let c := compared text pattern i (sc_j s) k in
sc_comparisons (inner_scan text pattern i k s) =
  sc_comparisons s ++
  map (scan_record text pattern i) (seqZ (sc_j s) (Z.of_nat c)) /\
sc_total (inner_scan text pattern i k s) = sc_total s + Z.of_nat c /\
sc_stepc (inner_scan text pattern i k s) = sc_stepc s + Z.of_nat c /\
sc_j (inner_scan text pattern i k s) =
  (if agree text pattern i (sc_j s) k then sc_j s + Z.of_nat k
   else sc_j s + Z.of_nat c - 1).
Proof.
cbn zeta. revert s. induction k as [|k IH]; intros s.
- unfold agree. cbn [inner_scan compared]. rewrite !seqZ_nil by lia.
  cbn [map forallb]. rewrite app_nil_r. repeat split; lia.
- rewrite agree_S. cbn [inner_scan compared].
  destruct (sym_eqb (get text (i + sc_j s)) (get pattern (sc_j s))) eqn:E;
    cbn [andb].
  + match goal with |- context [inner_scan _ _ _ k ?s'] =>
      destruct (IH s') as (E1 & E2 & E3 & E4) end.
    cbn [sc_j sc_comparisons sc_total sc_stepc] in E1, E2, E3, E4.
    rewrite E1, E2, E3, E4. rewrite (seqZ_cons (sc_j s)) by lia.
    cbn [map]. rewrite <- app_assoc. cbn [app].
    unfold scan_record at 2. rewrite E.
    replace (Z.pred (Z.of_nat (S (compared text pattern i (sc_j s + 1) k))))
      with (Z.of_nat (compared text pattern i (sc_j s + 1) k)) by lia.
    replace (Z.succ (sc_j s)) with (sc_j s + 1) by lia.
    repeat split; try lia.
    destruct (agree text pattern i (sc_j s + 1) k); lia.
  + cbn [sc_j sc_comparisons sc_total sc_stepc].
    rewrite (seqZ_cons (sc_j s)) by lia. rewrite seqZ_nil by lia.
    cbn [map]. unfold scan_record. rewrite E. repeat split; lia.
Qed.
End Compared.

Lemma lookup_snoc_inv {A : Type} (P : nat -> A -> Prop) (l : list A) (y : A) :
  (forall k x, l !! k = Some x -> P k x) -> P (length l) y ->
  forall k x, (l ++ [y]) !! k = Some x -> P k x.
Proof.
  intros Hl Hy k x H. apply lookup_app_Some in H as [H | [Hk H]]; [auto|].
  destruct (k - length l)%nat as [|d] eqn:Hd; [|destruct d; discriminate].
  inversion H; subst x. now replace k with (length l) by lia.
Qed.

Section NaiveSteps.
Variables (text pattern : str).

Lemma naive_body_exact (tr : trace) (i : Z) :
let c := Z.of_nat (scan_length text pattern i) in
steps (naive_body text pattern tr i) =
  steps tr ++
  [Step (JNum i) 0 (scan_records text pattern i) (totalComparisons tr + c)
     (if occurs text pattern i then MatchFoundAt (JNum i)
      else MismatchAtShifting (i + (c - 1)))
     NoDetail] /\
totalComparisons (naive_body text pattern tr i) = totalComparisons tr + c /\
history (naive_body text pattern tr i) =
  history tr ++ [Hist i c (totalComparisons tr + c)].
Proof.
cbn zeta. unfold naive_body.
destruct (inner_scan_exact text pattern i (length pattern)
            (start_scan (totalComparisons tr) 0 (reads tr)))
  as (E1 & E2 & E3 & E4).
cbn [start_scan sc_j sc_comparisons sc_total sc_stepc] in E1, E2, E3, E4.
fold (scan_length text pattern i) in E1, E2, E3, E4.
fold (scan_records text pattern i) in E1.
rewrite <- occurs_agree in E4.
cbn [steps totalComparisons history]. rewrite E1, E2, E3, E4. cbn [app].
fold (strlen pattern).
destruct (occurs text pattern i) eqn:Hocc.
- rewrite Z.add_0_l, Z.eqb_refl. repeat split; f_equal; lia.
- pose proof (compared_le text pattern i 0 (length pattern)) as Hle.
  fold (scan_length text pattern i) in Hle.
  destruct (Z.eqb_spec (0 + Z.of_nat (scan_length text pattern i) - 1)
              (strlen pattern)) as [Heq|_];
    [unfold strlen in Heq; lia|].
  repeat split; repeat f_equal; lia.
Qed.

(** The naive loop over the offsets [0 .. k - 1]. *)
Lemma naive_fold_steps (k : nat) :
let tr := fold_left (naive_body text pattern) (seqZ 0 (Z.of_nat k))
            empty_trace in
length (steps tr) = k /\
length (history tr) = k /\
(forall idx st, steps tr !! idx = Some st ->
   s_textIndex st = JNum (Z.of_nat idx) /\
   s_comparisons st = scan_records text pattern (Z.of_nat idx) /\
   s_description st =
     (if occurs text pattern (Z.of_nat idx)
      then MatchFoundAt (JNum (Z.of_nat idx))
      else MismatchAtShifting
             (Z.of_nat idx
              + (Z.of_nat (scan_length text pattern (Z.of_nat idx)) - 1))) /\
   s_detail st = NoDetail /\
   history tr !! idx =
     Some (Hist (Z.of_nat idx) (weight st) (s_totalComparisons st))).
Proof.
induction k as [|k IH]; cbn zeta.
- cbn. repeat split; intros; discriminate.
- rewrite seqZ_S, fold_left_app. cbn [fold_left]. rewrite Z.add_0_l.
  destruct IH as (IH1 & IH2 & IH3).
  destruct (naive_body_exact
              (fold_left (naive_body text pattern) (seqZ 0 (Z.of_nat k))
                 empty_trace) (Z.of_nat k)) as (E1 & E2 & E3).
  rewrite E1, E3, !length_app, IH1, IH2. cbn [length].
  split; [lia|]. split; [lia|].
  apply lookup_snoc_inv.
  + intros idx st Hst. destruct (IH3 idx st Hst) as (H1 & H2 & H3 & H4 & H5).
    repeat split; auto. now apply lookup_app_l_Some.
  + rewrite IH1. cbn [s_textIndex s_comparisons s_description s_detail
                       s_totalComparisons].
    repeat split.
    rewrite lookup_app_r by lia. rewrite IH2, Nat.sub_diag. cbn.
    unfold weight, scan_records. cbn [s_comparisons].
    now rewrite length_map, length_seqZ, Nat2Z.id.
Qed.
End NaiveSteps.


(** ** The steps of the Rabin-Karp scan *)

Section RabinKarpSteps.
Variables (text pattern : str) (patternHash : num).

Lemma rk_body_exact (st : rk_state) (i : Z) :
let tr := r_trace st in
let hm := num_eqb (r_textHash st) patternHash in
let occ := occurs text pattern i in
let cmps := if hm then scan_records text pattern i else [] in
let total := totalComparisons tr + 1 + Z.of_nat (length cmps) in
let tr' := r_trace (rk_body text pattern patternHash st i) in
steps tr' =
  steps tr ++
  [Step (JNum i) 0 cmps total (rk_tag hm occ i)
     (HashInfo patternHash (r_textHash st) hm (hm && negb occ))] /\
totalComparisons tr' = total /\
history tr' = history tr ++ [Hist i (1 + Z.of_nat (length cmps)) total].
Proof.
cbn zeta. unfold rk_body. cbn zeta.
destruct (inner_scan_exact text pattern i (length pattern)
            (start_scan (totalComparisons (r_trace st) + 1) 1
               (reads (r_trace st))))
  as (E1 & E2 & E3 & E4).
cbn [start_scan sc_j sc_comparisons sc_total sc_stepc] in E1, E2, E3, E4.
fold (scan_length text pattern i) in E1, E2, E3, E4.
fold (scan_records text pattern i) in E1.
rewrite <- occurs_agree in E4.
cbn [r_trace steps totalComparisons history].
destruct (num_eqb (r_textHash st) patternHash); cbn [andb rk_tag].
- rewrite E1, E2, E3, E4. cbn [app]. fold (strlen pattern).
  assert (Hlen : length (scan_records text pattern i) =
                 scan_length text pattern i)
    by (unfold scan_records; now rewrite length_map, length_seqZ, Nat2Z.id).
  rewrite Hlen.
  unfold rk_tag.
  destruct (occurs text pattern i) eqn:Hocc; cbn [negb].
  + rewrite Z.add_0_l, Z.eqb_refl. repeat split; repeat f_equal; lia.
  + pose proof (compared_le text pattern i 0 (length pattern)) as Hle.
    fold (scan_length text pattern i) in Hle.
    destruct (Z.eqb_spec (0 + Z.of_nat (scan_length text pattern i) - 1)
                (strlen pattern)) as [Heq|_];
      [unfold strlen in Heq; lia|].
    repeat split; try reflexivity; repeat f_equal; lia.
- cbn [start_scan sc_j sc_comparisons sc_total sc_stepc length Z.of_nat].
  rewrite !Z.add_0_r. repeat split; reflexivity.
Qed.

(** The window loop over the offsets [0 .. k - 1]. *)
Lemma rk_fold_steps (k : nat) :
k = 0%nat \/ Z.of_nat k <= strlen text - strlen pattern + 1 ->
let tr := r_trace (fold_left (rk_body text pattern patternHash)
                     (seqZ 0 (Z.of_nat k)) (rk_init text pattern)) in
length (steps tr) = k /\
length (history tr) = k /\
(forall idx st, steps tr !! idx = Some st ->
   let hm := num_eqb (rolled text (strlen pattern) idx) patternHash in
   let occ := occurs text pattern (Z.of_nat idx) in
   s_textIndex st = JNum (Z.of_nat idx) /\
   s_comparisons st =
     (if hm then scan_records text pattern (Z.of_nat idx) else []) /\
   s_description st = rk_tag hm occ (Z.of_nat idx) /\
   s_detail st =
     HashInfo patternHash (rolled text (strlen pattern) idx) hm
       (hm && negb occ) /\
   history tr !! idx =
     Some (Hist (Z.of_nat idx) (1 + weight st) (s_totalComparisons st))).
Proof.
induction k as [|k IH]; intros Hk; cbn zeta.
- cbn. repeat split; intros; discriminate.
- assert (Hk' : Z.of_nat (S k) <= strlen text - strlen pattern + 1)
    by (destruct Hk; [discriminate | assumption]).
  rewrite seqZ_S, fold_left_app. cbn [fold_left]. rewrite Z.add_0_l.
  destruct IH as (IH1 & IH2 & IH3); [lia|].
  destruct (rk_fold_prefix text pattern patternHash k) as [Hh _]; [lia|].
  cbn zeta in Hh.
  replace (Nat.min k (Z.to_nat (strlen text - strlen pattern))) with k
    in Hh by lia.
  destruct (rk_body_exact
              (fold_left (rk_body text pattern patternHash)
                 (seqZ 0 (Z.of_nat k)) (rk_init text pattern)) (Z.of_nat k))
    as (E1 & E2 & E3).
  cbn zeta in E1, E2, E3. rewrite Hh in E1, E3.
  rewrite E1, E3, !length_app, IH1, IH2. cbn [length].
  split; [lia|]. split; [lia|].
  apply lookup_snoc_inv.
  + intros idx st Hst. destruct (IH3 idx st Hst) as (H1 & H2 & H3 & H4 & H5).
    repeat split; auto. now apply lookup_app_l_Some.
  + rewrite IH1. cbn [s_textIndex s_comparisons s_description s_detail
                       s_totalComparisons].
    repeat split.
    rewrite lookup_app_r by lia. rewrite IH2, Nat.sub_diag. cbn.
    reflexivity.
Qed.
End RabinKarpSteps.


(** ** The steps of the KMP scan *)

Lemma history_of_snoc (extra : Z) (sts : list step) (st : step) :
  history_of extra (sts ++ [st]) =
  history_of extra sts ++
  [Hist (Z.of_nat (length sts)) (extra + weight st) (s_totalComparisons st)].
Proof.
  unfold history_of. rewrite imap_app. cbn. now rewrite Nat.add_0_r.
Qed.

Section KmpSteps.
Variables (text pattern : str) (lps : list jsval).
Hypothesis lps_length : length lps = length pattern.
Hypothesis lps_ok : table_ok lps.

(** An iteration of the scan pushes no step, or one well-formed step and
  its history entry. *)
Lemma kmp_iter_emits (s : kmp_state) :
kmp_inv text pattern s -> (k_i s <? strlen text) = true ->
let s' := kmp_iter text pattern lps s in
(steps (k_trace s') = steps (k_trace s) /\
 history (k_trace s') = history (k_trace s) /\
 k_step s' = k_step s) \/
exists st,
  steps (k_trace s') = steps (k_trace s) ++ [st] /\
  history (k_trace s') =
    history (k_trace s) ++ [Hist (k_step s) 1 (s_totalComparisons st)] /\
  k_step s' = k_step s + 1 /\
  weight st = 1 /\
  kmp_step_ok (strlen text) (strlen pattern) st.
Proof.
intros (Hi & (k & Hj & Hk & Hki) & _) Hc. apply Z.ltb_lt in Hc.
assert (Hlen : Z.of_nat (length lps) = strlen pattern)
  by (unfold strlen; now rewrite lps_length).
cbn zeta. unfold kmp_iter. rewrite Hj. cbn zeta.
destruct (sym_eqb (get text (k_i s)) (getv pattern (JNum k))) eqn:Heq;
  cbn [jincr jsval_eqb jsub].
- destruct (Z.eqb_spec (k + 1) (strlen pattern)) as [Hm|Hm].
  + right. eexists. cbn [k_trace steps history k_step].
    split; [reflexivity|]. split; [reflexivity|]. split; [reflexivity|].
    split; [reflexivity|]. unfold kmp_step_ok.
    cbn [s_comparisons s_textIndex s_description s_detail].
    exists (k_i s), k, true, (k_i s + 1 - (k + 1)).
    repeat (split; [first [reflexivity | lia]|]). lia.
  + destruct (Z.ltb_spec (k_i s + 1) (strlen text)) as [Hlt|Hge].
    * destruct (sym_eqb (get text (k_i s + 1)) (getv pattern (JNum (k + 1))));
        cbn [negb].
      -- left. cbn [k_trace steps history k_step]. auto.
      -- destruct (Z.eqb_spec (k + 1) 0) as [?|_]; [lia|]. cbn [negb].
         destruct (table_ok_get lps (k + 1 - 1) lps_ok) as (z & Hz & Hzb);
           [lia|].
         rewrite Hz. cbn [jsub]. right. eexists.
         cbn [k_trace steps history k_step].
         split; [reflexivity|]. split; [reflexivity|]. split; [reflexivity|].
         split; [reflexivity|]. unfold kmp_step_ok.
         cbn [s_comparisons s_textIndex s_description s_detail].
         exists (k_i s), k, true, (k_i s + 1 - z).
         repeat (split; [first [reflexivity | lia]|]). lia.
    * left. cbn [k_trace steps history k_step]. auto.
- destruct (Z.eqb_spec k (strlen pattern)) as [?|_]; [lia|].
  destruct (Z.ltb_spec (k_i s) (strlen text)) as [_|?]; [|lia].
  rewrite Heq. cbn [negb].
  destruct (Z.eqb_spec k 0) as [->|Hk0]; cbn [negb].
  + right. eexists. cbn [k_trace steps history k_step jsub].
    split; [reflexivity|]. split; [reflexivity|]. split; [reflexivity|].
    split; [reflexivity|]. unfold kmp_step_ok.
    cbn [s_comparisons s_textIndex s_description s_detail].
    exists (k_i s), 0, false, (k_i s - 0).
    repeat (split; [first [reflexivity | lia]|]). lia.
  + destruct (table_ok_get lps (k - 1) lps_ok) as (z & Hz & Hzb); [lia|].
    cbn [jsub]. rewrite Hz. cbn [jsub]. right. eexists.
    cbn [k_trace steps history k_step].
    split; [reflexivity|]. split; [reflexivity|]. split; [reflexivity|].
    split; [reflexivity|]. unfold kmp_step_ok.
    cbn [s_comparisons s_textIndex s_description s_detail].
    exists (k_i s), k, false, (k_i s - z).
    repeat (split; [first [reflexivity | lia]|]). lia.
Qed.

(** The numbering of the steps, the history and the shape of the steps
  are kept by an iteration. *)
Lemma kmp_iter_steps_inv (s : kmp_state) :
kmp_inv text pattern s -> (k_i s <? strlen text) = true ->
kmp_steps_inv text pattern s ->
kmp_steps_inv text pattern (kmp_iter text pattern lps s).
Proof.
intros Hinv Hc (H1 & H2 & H3).
destruct (kmp_iter_emits s Hinv Hc)
  as [(Es & Eh & Ek) | (st & Es & Eh & Ek & Hw & Hok)];
  unfold kmp_steps_inv; rewrite Es, Eh, Ek.
- auto.
- rewrite history_of_snoc, length_app, Hw, <- H1, <- H2. cbn [length].
  split; [lia|]. split; [reflexivity|].
  apply Forall_app. split; [exact H3|]. constructor; [exact Hok | constructor].
Qed.
End KmpSteps.


(** ** Steps, records, history and counters of the window scans *)

Lemma seqZ_to_nat (lo len : Z) :
  seqZ lo len = seqZ lo (Z.of_nat (Z.to_nat len)).
Proof. unfold seqZ. now rewrite Nat2Z.id. Qed.

Lemma scan_length_le (text pattern : str) (i : Z) :
  Z.of_nat (scan_length text pattern i) <= strlen pattern.
Proof.
  pose proof (compared_le text pattern i 0 (length pattern)).
  unfold scan_length, strlen. lia.
Qed.

Lemma scan_records_length (text pattern : str) (i : Z) :
  length (scan_records text pattern i) = scan_length text pattern i.
Proof. unfold scan_records. now rewrite length_map, length_seqZ, Nat2Z.id. Qed.

Lemma scan_records_aligned (text pattern : str) (i : Z) :
  0 <= i <= strlen text - strlen pattern ->
  Forall (aligned_record i (strlen text) (strlen pattern))
    (scan_records text pattern i).
Proof.
  intros Hi. pose proof (scan_length_le text pattern i) as Hle.
  unfold scan_records. apply Forall_map, Forall_forall. intros j Hj.
  apply list_elem_of_In, elem_of_seqZ in Hj. exists j. cbn. repeat split; lia.
Qed.

Lemma history_of_lookup (extra : Z) (hs : list hist) (sts : list step) :
  length hs = length sts ->
  (forall k st, sts !! k = Some st ->
     hs !! k =
       Some (Hist (Z.of_nat k) (extra + weight st) (s_totalComparisons st))) ->
  hs = history_of extra sts.
Proof.
  intros Hlen H. apply list_eq. intros k. unfold history_of.
  rewrite list_lookup_imap. destruct (sts !! k) as [st|] eqn:E.
  - now rewrite (H k st E).
  - cbn. apply lookup_ge_None. apply lookup_ge_None in E. lia.
Qed.

Lemma naive_fold_bounds (text pattern : str) (k : nat) :
  let tr := fold_left (naive_body text pattern) (seqZ 0 (Z.of_nat k))
              empty_trace in
  totalComparisons tr <= Z.of_nat k * strlen pattern /\
  (pattern <> [] -> Z.of_nat k <= totalComparisons tr).
Proof.
  induction k as [|k IH]; cbn zeta.
  - rewrite seqZ_nil by lia. unfold empty_trace.
    cbn [fold_left totalComparisons]. split; intros; lia.
  - rewrite seqZ_S, fold_left_app. cbn [fold_left]. rewrite Z.add_0_l.
    destruct (naive_body_exact text pattern
                (fold_left (naive_body text pattern) (seqZ 0 (Z.of_nat k))
                   empty_trace) (Z.of_nat k)) as (_ & E & _).
    rewrite E. pose proof (scan_length_le text pattern (Z.of_nat k)) as Hle.
    destruct IH as [IH1 IH2]. split; [nia|].
    intros Hp. specialize (IH2 Hp).
    pose proof (compared_pos text pattern (Z.of_nat k) 0 (length pattern))
      as Hpos.
    fold (scan_length text pattern (Z.of_nat k)) in Hpos.
    destruct pattern; [contradiction|]. cbn [length] in Hpos. lia.
Qed.

Lemma rk_fold_bounds (text pattern : str) (patternHash : num) (k : nat) :
  let tr := r_trace (fold_left (rk_body text pattern patternHash)
                       (seqZ 0 (Z.of_nat k)) (rk_init text pattern)) in
  Z.of_nat k <= totalComparisons tr <= Z.of_nat k * (strlen pattern + 1).
Proof.
  induction k as [|k IH]; cbn zeta.
  - rewrite seqZ_nil by lia. unfold rk_init.
    cbn [fold_left r_trace totalComparisons]. lia.
  - rewrite seqZ_S, fold_left_app. cbn [fold_left]. rewrite Z.add_0_l.
    destruct (rk_body_exact text pattern patternHash
                (fold_left (rk_body text pattern patternHash)
                   (seqZ 0 (Z.of_nat k)) (rk_init text pattern)) (Z.of_nat k))
      as (_ & E & _).
    cbn zeta in E. rewrite E.
    pose proof (scan_length_le text pattern (Z.of_nat k)) as Hle.
    pose proof (strlen_nonneg pattern).
    cbn zeta in IH. destruct IH as [IH1 IH2].
    destruct (num_eqb _ patternHash);
      rewrite ?scan_records_length; cbn [length]; nia.
Qed.

(** X7. The naive generator pushes one step per offset from 0 to
    [|text| - |pattern|], in order, and none when the pattern is longer
    than the text.  The step of offset [i] is anchored at [i].  It holds
    the records of the pattern symbols 0, 1, ... against the text symbols
    from [i] on, up to and including the first pair that differs: the
    pairs before the last record are equal.  When the pattern occurs at
    [i] there is one record per pattern symbol and the step is tagged as a
    match at [i]; otherwise the last record is a mismatch and the tag
    names the text position of that mismatch. *)
Theorem naive_steps_by_offset (text pattern : str) :
  let tr := naiveStringMatching text pattern in
  length (steps tr) = Z.to_nat (strlen text - strlen pattern + 1) /\
  forall (k : nat) (st : step), steps tr !! k = Some st ->
    let i := Z.of_nat k in
    exists c : nat,
      s_textIndex st = JNum i /\
      s_comparisons st =
        map (scan_record text pattern i) (seqZ 0 (Z.of_nat c)) /\
      (c <= length pattern)%nat /\
      agree text pattern i 0 (c - 1) = true /\
      if occurs text pattern i
      then c = length pattern /\ s_description st = MatchFoundAt (JNum i)
      else (1 <= c)%nat /\
           c_match (scan_record text pattern i (Z.of_nat c - 1)) = false /\
           s_description st = MismatchAtShifting (i + (Z.of_nat c - 1)).
Proof.
  cbn zeta. unfold naiveStringMatching. rewrite seqZ_to_nat.
  destruct (naive_fold_steps text pattern
              (Z.to_nat (strlen text - strlen pattern + 1)))
    as (H1 & _ & H3).
  split; [exact H1|]. intros k st Hst.
  destruct (H3 k st Hst) as (E1 & E2 & E3 & _).
  exists (scan_length text pattern (Z.of_nat k)).
  split; [exact E1|]. split; [exact E2|].
  split; [apply compared_le|]. split; [apply compared_prefix|].
  rewrite E3. destruct (occurs text pattern (Z.of_nat k)) eqn:Hocc.
  - split; [|reflexivity]. apply compared_agree. now rewrite <- occurs_agree.
  - rewrite occurs_agree in Hocc.
    destruct (compared_last text pattern (Z.of_nat k) 0 (length pattern) Hocc)
      as [Hc Hm].
    split; [exact Hc|]. split; [|reflexivity].
    now rewrite Z.add_0_l in Hm.
Qed.

Lemma naive_steps_by_offset_witness :
  exists st,
    steps (naiveStringMatching (codes "AAB") (codes "AB")) !! 1%nat = Some st /\
    s_textIndex st = JNum 1.
Proof.
  destruct (naive_steps_by_offset (codes "AAB") (codes "AB")) as [_ H].
  eexists. split; [reflexivity|].
  destruct (H 1%nat _ eq_refl) as (c & E & _). exact E.
Defined.

(** X8. The Rabin-Karp generator pushes one step per window, for the
    offsets from 0 to [|text| - |pattern|] in order.  The step of window
    [k] is anchored at [k] and shows the hash of the pattern, the hash that
    the rolling update has reached after [k] rounds, and whether the two
    are equal.  When they differ the step holds no comparison record and
    is tagged as skipped.  When they are equal it holds the records of the
    symbol by symbol confirmation, and is tagged as a confirmed match at
    [k] when the pattern occurs there and as a spurious hit, with the
    spurious flag set, when it does not. *)
Theorem rabin_karp_steps_by_window (text pattern : str) :
  let ph := calculateHash pattern 0 (strlen pattern) in
  let tr := rabinKarpStringMatching text pattern in
  length (steps tr) = Z.to_nat (strlen text - strlen pattern + 1) /\
  forall (k : nat) (st : step), steps tr !! k = Some st ->
    let i := Z.of_nat k in
    let th := rolled text (strlen pattern) k in
    let hm := num_eqb th ph in
    let occ := occurs text pattern i in
    s_textIndex st = JNum i /\
    s_detail st = HashInfo ph th hm (hm && negb occ) /\
    s_comparisons st = (if hm then scan_records text pattern i else []) /\
    s_description st = rk_tag hm occ i.
Proof.
  cbn zeta. unfold rabinKarpStringMatching. rewrite seqZ_to_nat.
  destruct (rk_fold_steps text pattern
              (calculateHash pattern 0 (strlen pattern))
              (Z.to_nat (strlen text - strlen pattern + 1)))
    as (H1 & _ & H3); [lia|].
  split; [exact H1|]. intros k st Hst.
  destruct (H3 k st Hst) as (E1 & E2 & E3 & E4 & _). auto.
Qed.

Lemma rabin_karp_steps_by_window_witness :
  exists st,
    steps (rabinKarpStringMatching (codes "AAB") (codes "AB")) !! 1%nat =
      Some st /\
    s_textIndex st = JNum 1.
Proof.
  destruct (rabin_karp_steps_by_window (codes "AAB") (codes "AB")) as [_ H].
  assert (Hst : exists st,
             steps (rabinKarpStringMatching (codes "AAB") (codes "AB")) !! 1%nat
             = Some st)
    by (eexists; vm_compute; reflexivity).
  destruct Hst as [st Hst]. exists st. split; [exact Hst|].
  destruct (H 1%nat st Hst) as (E & _). exact E.
Defined.

(** X5. Whatever the text and the pattern, Rabin-Karp reports no false
    match: every position it reports is an offset between 0 and
    [|text| - |pattern|] at which the pattern occurs in the text, and the
    positions come in ascending order, each at most once. *)
Theorem rabin_karp_reports_only_occurrences (text pattern : str) :
  exists l : list Z,
    foundMatches (rabinKarpStringMatching text pattern) = map JNum l /\
    ascending l /\
    Forall (fun i => 0 <= i <= strlen text - strlen pattern /\
                     occurs text pattern i = true) l.
Proof.
  unfold rabinKarpStringMatching.
  destruct (Z.le_gt_cases (strlen text - strlen pattern + 1) 0) as [Hle|Hgt].
  { rewrite seqZ_nil by lia. exists []. repeat constructor. }
  rewrite seqZ_to_nat.
  destruct (rk_fold_prefix text pattern
              (calculateHash pattern 0 (strlen pattern))
              (Z.to_nat (strlen text - strlen pattern + 1))) as [_ E]; [lia|].
  cbn zeta in E. rewrite E. eexists. split; [reflexivity|].
  split; [apply ascending_filter, ascending_seqZ|].
  apply Forall_forall. intros i Hi.
  apply filter_In in Hi as [Hi Hf]. apply list_elem_of_In, elem_of_seqZ in Hi.
  apply andb_true_iff in Hf as [_ Hf]. split; [lia | exact Hf].
Qed.

(** X9. In every step of a naive or of a Rabin-Karp trace, every
    comparison record is one of the pattern laid at the step's offset:
    the step of index [k] is anchored at [k], and a record of pattern
    symbol [j] is a record of text symbol [k + j], with [j] inside the
    pattern and [k + j] inside the text.  So the cell that the pattern row
    highlights lies under the cell that the text row highlights. *)
Theorem window_records_aligned (text pattern : str) :
  let ok (tr : trace) :=
    forall (k : nat) (st : step), steps tr !! k = Some st ->
      s_textIndex st = JNum (Z.of_nat k) /\
      Z.of_nat k <= strlen text - strlen pattern /\
      Forall (aligned_record (Z.of_nat k) (strlen text) (strlen pattern))
        (s_comparisons st) in
  ok (naiveStringMatching text pattern) /\
  ok (rabinKarpStringMatching text pattern).
Proof.
  cbn zeta. split; intros k st Hst.
  - unfold naiveStringMatching in Hst. rewrite seqZ_to_nat in Hst.
    destruct (naive_fold_steps text pattern
                (Z.to_nat (strlen text - strlen pattern + 1)))
      as (H1 & _ & H3).
    apply lookup_lt_Some in Hst as Hlt. rewrite H1 in Hlt.
    destruct (H3 k st Hst) as (E1 & E2 & _).
    split; [exact E1|]. split; [lia|]. rewrite E2.
    apply scan_records_aligned. lia.
  - unfold rabinKarpStringMatching in Hst. rewrite seqZ_to_nat in Hst.
    destruct (rk_fold_steps text pattern
                (calculateHash pattern 0 (strlen pattern))
                (Z.to_nat (strlen text - strlen pattern + 1)))
      as (H1 & _ & H3); [lia|].
    apply lookup_lt_Some in Hst as Hlt. rewrite H1 in Hlt.
    destruct (H3 k st Hst) as (E1 & E2 & _).
    split; [exact E1|]. split; [lia|]. rewrite E2.
    destruct (num_eqb _ _); [|constructor].
    apply scan_records_aligned. lia.
Qed.

Lemma window_records_aligned_witness :
  exists st,
    steps (naiveStringMatching (codes "AAB") (codes "AB")) !! 1%nat = Some st /\
    Forall (aligned_record 1 3 2) (s_comparisons st).
Proof.
  destruct (window_records_aligned (codes "AAB") (codes "AB")) as [H _].
  eexists. split; [reflexivity|].
  destruct (H 1%nat _ eq_refl) as (_ & _ & E). exact E.
Defined.

(** X11. The comparison counters of the performance chart against the
    generators, for every text and pattern.  [countNaiveComparisons]
    returns the final comparison counter of the naive generator, which is
    at most [w * |pattern|] for the [w] offsets tried, and at least [w]
    when the pattern is not empty.  [countRabinKarpComparisons] returns
    the final counter of the Rabin-Karp generator, which lies between [w]
    and [w * (|pattern| + 1)]. *)
Theorem window_scan_comparison_bounds (text pattern : str) :
  let w := Z.of_nat (Z.to_nat (strlen text - strlen pattern + 1)) in
  (countNaiveComparisons text pattern =
     totalComparisons (naiveStringMatching text pattern) /\
   countNaiveComparisons text pattern <= w * strlen pattern /\
   (pattern <> [] -> w <= countNaiveComparisons text pattern)) /\
  (countRabinKarpComparisons text pattern =
     totalComparisons (rabinKarpStringMatching text pattern) /\
   w <= countRabinKarpComparisons text pattern <= w * (strlen pattern + 1)).
Proof.
  cbn zeta.
  assert (En : countNaiveComparisons text pattern =
               totalComparisons (naiveStringMatching text pattern))
    by apply (naive_fold_count text pattern _ empty_trace).
  assert (Er : countRabinKarpComparisons text pattern =
               totalComparisons (rabinKarpStringMatching text pattern))
    by (apply rk_fold_count; reflexivity).
  rewrite En, Er. unfold naiveStringMatching, rabinKarpStringMatching.
  rewrite seqZ_to_nat.
  split; [split; [reflexivity | apply naive_fold_bounds]|].
  split; [reflexivity | apply rk_fold_bounds].
Qed.

Lemma window_scan_comparison_bounds_witness :
  4 <= countNaiveComparisons (codes "AABAA") (codes "AA").
Proof.
  destruct (window_scan_comparison_bounds (codes "AABAA") (codes "AA"))
    as [(_ & _ & H) _].
  apply H. discriminate.
Defined.


(** ** The steps and the history of KMP *)

Lemma kmp_steps_inv_returns (text pattern : str) (fuel : nat) :
  pattern <> [] -> (2 * (length text + length pattern) <= fuel)%nat ->
  exists s, kmpStringMatching fuel text pattern = Done (k_trace s) /\
            kmp_steps_inv text pattern s.
Proof.
  intros Hp Hf.
  destruct (kmpStringMatching_returns text pattern
              (kmp_steps_inv text pattern) fuel Hp Hf)
    as (t & s & _ & _ & _ & Hs & _ & HP & _).
  - intros lps s Hlen Hok Hinv HP Hc. now apply kmp_iter_steps_inv.
  - intros rd. unfold kmp_steps_inv, kmp_init. cbn. auto.
  - exists s. auto.
Qed.

(** X10. On a non-empty pattern every step of the KMP trace holds exactly
    one comparison record, of a text symbol and a pattern symbol inside
    their strings, and an alignment offset between 0 and [|text|].  A
    match step is anchored where the whole pattern fits, and its record is
    the last pattern symbol against the text symbol above it.  A step for
    a mismatch at the beginning of the pattern records the first pattern
    symbol against the text symbol at the alignment offset.  A step for a
    mismatch with a shift carries a [prefixUse] whose [newJ] is smaller
    than its [oldJ]; it is anchored at the offset after the shift, so its
    record shows the pattern symbol [oldJ - newJ] cells to the right of
    the text symbol it was compared with. *)
Theorem kmp_steps_well_formed (text pattern : str) (fuel : nat) :
  pattern <> [] -> (2 * (length text + length pattern) <= fuel)%nat ->
  exists tr, kmpStringMatching fuel text pattern = Done tr /\
             Forall (kmp_step_ok (strlen text) (strlen pattern)) (steps tr).
Proof.
  intros Hp Hf.
  destruct (kmp_steps_inv_returns text pattern fuel Hp Hf)
    as (s & Hs & _ & _ & H).
  exists (k_trace s). auto.
Qed.

Lemma kmp_steps_well_formed_witness :
  exists tr, kmpStringMatching 18 (codes "AABAAB") (codes "AAB") = Done tr /\
             Forall (kmp_step_ok 6 3) (steps tr).
Proof.
  apply (kmp_steps_well_formed (codes "AABAAB") (codes "AAB") 18);
    [discriminate | concrete].
Defined.

(** X12. The history that feeds the comparison chart mirrors the steps.
    For the naive scan and for Rabin-Karp, on every input, and for KMP on
    a non-empty pattern, the history has one entry per step; the entry of
    step [k] is numbered [k] and carries the running total of that step.
    Its number of comparisons is the number of comparison records of the
    step, plus one for the hash test in Rabin-Karp. *)
Theorem history_mirrors_steps (text pattern : str) :
  history (naiveStringMatching text pattern) =
    history_of 0 (steps (naiveStringMatching text pattern)) /\
  history (rabinKarpStringMatching text pattern) =
    history_of 1 (steps (rabinKarpStringMatching text pattern)) /\
  (pattern <> [] ->
   forall fuel, (2 * (length text + length pattern) <= fuel)%nat ->
     exists tr, kmpStringMatching fuel text pattern = Done tr /\
                history tr = history_of 0 (steps tr)).
Proof.
  split; [|split].
  - unfold naiveStringMatching. rewrite seqZ_to_nat.
    destruct (naive_fold_steps text pattern
                (Z.to_nat (strlen text - strlen pattern + 1)))
      as (H1 & H2 & H3).
    apply history_of_lookup; [lia|]. intros k st Hst.
    destruct (H3 k st Hst) as (_ & _ & _ & _ & E). now rewrite Z.add_0_l.
  - unfold rabinKarpStringMatching. rewrite seqZ_to_nat.
    destruct (rk_fold_steps text pattern
                (calculateHash pattern 0 (strlen pattern))
                (Z.to_nat (strlen text - strlen pattern + 1)))
      as (H1 & H2 & H3); [lia|].
    apply history_of_lookup; [lia|]. intros k st Hst.
    destruct (H3 k st Hst) as (_ & _ & _ & _ & E). exact E.
  - intros Hp fuel Hf.
    destruct (kmp_steps_inv_returns text pattern fuel Hp Hf)
      as (s & Hs & _ & H & _).
    exists (k_trace s). auto.
Qed.

Lemma history_mirrors_steps_witness :
  exists tr, kmpStringMatching 10 (codes "AAB") (codes "AB") = Done tr /\
             history tr = history_of 0 (steps tr).
Proof.
  destruct (history_mirrors_steps (codes "AAB") (codes "AB")) as (_ & _ & H).
  apply H; [discriminate | concrete].
Defined.

(** ** Playback *)

Lemma ticks_from_start (L : Z) (u0 : ui) (k : nat) :
  0 < L -> u_interval u0 = true -> u_isRunning u0 = true ->
  u_currentStep u0 = 0 ->
  let uk := Nat.iter k (tick L) u0 in
  u_steps uk = u_steps u0 /\
  u_comparisons uk = u_comparisons u0 /\
  u_matches uk = u_matches u0 /\
  u_comparisonHistory uk = u_comparisonHistory u0 /\
  u_currentStep uk = Z.min (Z.of_nat k) (L - 1) /\
  u_isRunning uk = (Z.of_nat k <? L) /\
  u_interval uk = (Z.of_nat k <? L).
Proof.
  intros HL Hi Hr Hc. cbn zeta. induction k as [|k IH].
  - cbn [Nat.iter nat_rect]. rewrite Hi, Hr, Hc.
    destruct (Z.ltb_spec (Z.of_nat 0) L); [|lia]. repeat split; lia.
  - rewrite Nat.iter_succ.
    destruct IH as (E1 & E2 & E3 & E4 & E5 & E6 & E7).
    set (uk := Nat.iter k (tick L) u0) in *.
    unfold tick. rewrite E7.
    destruct (Z.ltb_spec (Z.of_nat k) L) as [Hk|Hk].
    + rewrite E5. cbn zeta.
      destruct (Z.leb_spec L (Z.min (Z.of_nat k) (L - 1) + 1)) as [Hl|Hl];
        cbn [u_steps u_comparisons u_matches u_comparisonHistory
             u_currentStep u_isRunning u_interval];
        destruct (Z.ltb_spec (Z.of_nat (S k)) L); try lia;
        rewrite ?E5, ?E6, ?E7;
        destruct (Z.ltb_spec (Z.of_nat k) L); try lia;
        repeat split; auto; lia.
    + destruct (Z.ltb_spec (Z.of_nat (S k)) L); [lia|].
      rewrite E6, E5.
      destruct (Z.ltb_spec (Z.of_nat k) L); [lia|]. repeat split; auto; lia.
Qed.

(** What a call of [startVisualization] that returned has done. *)
Lemma playback_after_start (fuel : nat) (algorithm : string)
  (text pattern : str) (u u0 : ui) :
  startVisualization fuel algorithm text pattern u = Done u0 ->
  (exists tr, generateSteps fuel algorithm text pattern = Done tr /\
              u_steps u0 = steps tr) /\
  (u_steps u0 = [] ->
   u_isRunning u0 = u_isRunning u /\ u_interval u0 = u_interval u /\
   u_currentStep u0 = u_currentStep u) /\
  (u_steps u0 <> [] ->
   forall k : nat,
     let L := Z.of_nat (length (u_steps u0)) in
     let uk := Nat.iter k (tick L) u0 in
     u_steps uk = u_steps u0 /\
     u_comparisons uk = u_comparisons u0 /\
     u_matches uk = u_matches u0 /\
     u_comparisonHistory uk = u_comparisonHistory u0 /\
     u_currentStep uk = Z.min (Z.of_nat k) (L - 1) /\
     u_isRunning uk = (Z.of_nat k <? L) /\
     u_interval uk = u_isRunning uk /\
     exists st, currentStepData uk = Some st /\ In st (u_steps u0)).
Proof.
  unfold startVisualization. intros H.
  destruct (generateSteps_ui fuel algorithm text pattern u) as [u'|] eqn:Eg;
    [|discriminate].
  assert (Hg : exists tr, generateSteps fuel algorithm text pattern = Done tr /\
                          u_steps u' = steps tr /\
                          u_isRunning u' = u_isRunning u /\
                          u_interval u' = u_interval u /\
                          u_currentStep u' = u_currentStep u).
  { unfold generateSteps_ui in Eg. unfold generateSteps.
    destruct (String.eqb algorithm "naive").
    { inversion Eg; subst u'. eexists. split; [reflexivity|]. cbn. auto. }
    destruct (String.eqb algorithm "kmp").
    { destruct (kmpStringMatching fuel text pattern) as [tr|]; [|discriminate].
      inversion Eg; subst u'. exists tr. cbn. auto. }
    destruct (String.eqb algorithm "rabin-karp").
    { inversion Eg; subst u'. eexists. split; [reflexivity|]. cbn. auto. }
    inversion Eg; subst u'. eexists. split; [reflexivity|]. cbn. auto. }
  destruct Hg as (tr & Hg & Hsteps & Hr & Hi & Hc).
  destruct (Z.eqb_spec (Z.of_nat (length (u_steps u'))) 0) as [Hz|Hz];
    inversion H; subst u0; clear H.
  - split; [exists tr; auto|]. split; [auto|].
    intros Hne. destruct (u_steps u'); [contradiction | discriminate].
  - cbn [u_steps u_isRunning u_interval u_currentStep].
    split; [exists tr; auto|]. split.
    { intros Hnil. rewrite Hnil in Hz. contradiction. }
    intros _ k. cbn zeta.
    match goal with |- context [Nat.iter k _ ?x] => set (u0 := x) end.
    destruct (ticks_from_start (Z.of_nat (length (u_steps u'))) u0 k)
      as (E1 & E2 & E3 & E4 & E5 & E6 & E7); try reflexivity; [lia|].
    rewrite E1, E2, E3, E4, E5, E6, E7.
    repeat (split; [reflexivity|]).
    unfold currentStepData. rewrite E1, E5. cbn [u0 u_steps].
    destruct (proj2 (get_Some_iff (u_steps u')
                       (Z.min (Z.of_nat k) (Z.of_nat (length (u_steps u')) - 1))))
      as [st Hst]; [lia|].
    exists st. split; [exact Hst|].
    unfold get in Hst. destruct (0 <=? _); [|discriminate].
    apply list_elem_of_In. eapply list_elem_of_lookup_2. exact Hst.
Qed.

(** On a non-empty pattern [generateSteps] returns, whichever algorithm
    is selected. *)
Lemma generateSteps_returns (fuel : nat) (algorithm : string)
  (text pattern : str) :
  pattern <> [] -> (2 * (length text + length pattern) <= fuel)%nat ->
  exists tr, generateSteps fuel algorithm text pattern = Done tr.
Proof.
  intros Hp Hf. unfold generateSteps.
  destruct (String.eqb algorithm "naive"); [eauto|].
  destruct (String.eqb algorithm "kmp"); [|destruct (String.eqb _ _); eauto].
  destruct (kmp_run text pattern fuel Hp Hf) as (tb & t & _ & H & _). eauto.
Qed.

(** X13. What pressing Start does, on a non-empty pattern and whichever
    algorithm is selected.  [generateSteps] returns, and
    [startVisualization] returns with the steps it returned stored.  When
    there is none, it neither starts playback nor arms the interval, and
    leaves the current step alone.  Otherwise playback starts at step 0,
    and after [k] firings of the interval the current step is [k], up to
    the last step, where it stays: the firing that would pass the last
    step clears the interval and ends the run instead.  The interval is
    armed exactly while [isRunning] is set, the steps, the counter, the
    matches and the history do not change during playback, and the
    current step is always a step of the trace, never the empty object. *)
Theorem playback_runs_to_last_step (fuel : nat) (algorithm : string)
  (text pattern : str) (u : ui) :
  pattern <> [] -> (2 * (length text + length pattern) <= fuel)%nat ->
  exists tr u0,
    generateSteps fuel algorithm text pattern = Done tr /\
    startVisualization fuel algorithm text pattern u = Done u0 /\
    u_steps u0 = steps tr /\
    (steps tr = [] ->
     u_isRunning u0 = u_isRunning u /\ u_interval u0 = u_interval u /\
     u_currentStep u0 = u_currentStep u) /\
    (steps tr <> [] ->
     forall k : nat,
       let L := Z.of_nat (length (steps tr)) in
       let uk := Nat.iter k (tick L) u0 in
       u_steps uk = steps tr /\
       u_comparisons uk = u_comparisons u0 /\
       u_matches uk = u_matches u0 /\
       u_comparisonHistory uk = u_comparisonHistory u0 /\
       u_currentStep uk = Z.min (Z.of_nat k) (L - 1) /\
       u_isRunning uk = (Z.of_nat k <? L) /\
       u_interval uk = u_isRunning uk /\
       exists st, currentStepData uk = Some st /\ In st (steps tr)).
Proof.
  intros Hp Hf.
  destruct (generateSteps_returns fuel algorithm text pattern Hp Hf)
    as [tr Htr].
  assert (Hstart : exists u0,
             startVisualization fuel algorithm text pattern u = Done u0).
  { unfold startVisualization, generateSteps_ui.
    unfold generateSteps in Htr.
    destruct (String.eqb algorithm "naive");
      [destruct (_ =? 0); eauto|].
    destruct (String.eqb algorithm "kmp");
      [|destruct (String.eqb _ _); destruct (_ =? 0); eauto].
    rewrite Htr. destruct (_ =? 0); eauto. }
  destruct Hstart as [u0 Hu0]. exists tr, u0.
  destruct (playback_after_start fuel algorithm text pattern u u0 Hu0)
    as ((tr' & Htr' & Hsteps) & Hnone & Hsome).
  rewrite Htr in Htr'. injection Htr' as <-.
  split; [exact Htr|]. split; [exact Hu0|]. split; [exact Hsteps|].
  rewrite <- Hsteps. split; [exact Hnone|].
  intros Hne k. cbn zeta. destruct (Hsome Hne k) as (E1 & E2 & E3 & E4 & E5 & E6 & E7 & E8).
  auto 10.
Qed.

Lemma playback_runs_to_last_step_witness :
  exists tr u0,
    generateSteps 10 "kmp" (codes "AAB") (codes "AB") = Done tr /\
    startVisualization 10 "kmp" (codes "AAB") (codes "AB")
      (Ui false 0 [] 0 [] [] false) = Done u0 /\
    u_steps u0 = steps tr.
Proof.
  destruct (playback_runs_to_last_step 10 "kmp" (codes "AAB") (codes "AB")
              (Ui false 0 [] 0 [] [] false))
    as (tr & u0 & H1 & H2 & H3 & _); [discriminate | concrete |].
  exists tr, u0. auto.
Defined.

(** ** The pattern row *)

(** X14. The blank cells in front of the pattern row.  On a text shorter
    than 2^32 symbols and a non-empty pattern, whichever algorithm is
    selected, [generateSteps] returns, and for every step it returns the
    expression that builds the blank cells gets a valid array length,
    between 0 and [|text|]: drawing the pattern row throws no
    [RangeError].  With no current step the row has no blank cell. *)
Theorem pattern_row_never_throws (fuel : nat) (algorithm : string)
  (text pattern : str) :
  strlen text < 2 ^ 32 -> pattern <> [] ->
  (2 * (length text + length pattern) <= fuel)%nat ->
  pattern_row_spacers None = Some 0 /\
  exists tr, generateSteps fuel algorithm text pattern = Done tr /\
    Forall (fun st => exists z, pattern_row_spacers (Some st) = Some z /\
                                0 <= z <= strlen text)
      (steps tr).
Proof.
  intros Hn Hp Hf. split; [reflexivity|].
  assert (Hsp : forall st p, s_textIndex st = JNum p -> 0 <= p <= strlen text ->
                  exists z, pattern_row_spacers (Some st) = Some z /\
                            0 <= z <= strlen text).
  { intros st p E Hb. exists p. unfold pattern_row_spacers. rewrite E.
    cbn [or_zero].
    destruct (Z.leb_spec 0 p); [|lia]. destruct (Z.ltb_spec p (2 ^ 32)); [|lia].
    auto. }
  pose proof (strlen_nonneg pattern) as Hm.
  unfold generateSteps.
  destruct (String.eqb algorithm "naive").
  { eexists. split; [reflexivity|]. apply Forall_lookup_2. intros k st Hst.
    unfold naiveStringMatching in Hst. rewrite seqZ_to_nat in Hst.
    destruct (naive_fold_steps text pattern
                (Z.to_nat (strlen text - strlen pattern + 1)))
      as (H1 & _ & H3).
    apply lookup_lt_Some in Hst as Hlt. rewrite H1 in Hlt.
    destruct (H3 k st Hst) as (E1 & _). apply (Hsp st _ E1). lia. }
  destruct (String.eqb algorithm "kmp").
  { destruct (kmp_steps_inv_returns text pattern fuel Hp Hf)
      as (s & Hs & _ & _ & H).
    exists (k_trace s). split; [exact Hs|].
    eapply Forall_impl; [|exact H].
    intros st (ti & pj & b & p & _ & _ & _ & E & Hb & _).
    now apply (Hsp st p). }
  destruct (String.eqb algorithm "rabin-karp").
  { eexists. split; [reflexivity|]. apply Forall_lookup_2. intros k st Hst.
    unfold rabinKarpStringMatching in Hst. rewrite seqZ_to_nat in Hst.
    destruct (rk_fold_steps text pattern
                (calculateHash pattern 0 (strlen pattern))
                (Z.to_nat (strlen text - strlen pattern + 1)))
      as (H1 & _ & H3); [lia|].
    apply lookup_lt_Some in Hst as Hlt. rewrite H1 in Hlt.
    destruct (H3 k st Hst) as (E1 & _). apply (Hsp st _ E1). lia. }
  eexists. split; [reflexivity|]. constructor.
Qed.

Lemma pattern_row_never_throws_witness :
  exists tr, generateSteps 18 "kmp" (codes "AABAAB") (codes "AAB") = Done tr /\
    Forall (fun st => exists z, pattern_row_spacers (Some st) = Some z /\
                                0 <= z <= 6)
      (steps tr).
Proof.
  apply (pattern_row_never_throws 18 "kmp" (codes "AABAAB") (codes "AAB"));
    [concrete | discriminate | concrete].
Defined.
